(** * A shallow embedding of the rss-reader fetch-and-parse pipeline

    The development follows the TypeScript sources of [@xmer/rss-reader]:

    - [src/services/TitleCleaner.ts], [src/services/LinkExtractor.ts]
      (field extractors, pure);
    - [src/validators/ItemValidator.ts], [src/reader/RssReader.ts]
      (per-entry collection of failures, de-duplication, orchestration);
    - [src/utils/RetryHandler.ts] (retry with exponential backoff);
    - [src/browser/BrowserManager.ts], [src/browser/BrowserPool.ts]
      (handle life cycle and the acquire/release pool);
    - [src/services/FeedFetcher.ts] (one retrieval through a handle).

    JavaScript strings are sequences of UTF-16 code units, modelled as
    [list N]; the numbers that the sources use as counts and as delays in
    milliseconds are integers ([Z]).  Anything the sources obtain from a
    third-party package (Puppeteer, xml2js, Cheerio, the regular-expression
    engine) enters as a parameter: a section variable or a method of the
    [Engine] class.

    An [async] method is a function of the state of its object and of a
    context: the world of the engine, a write-only log of the calls made,
    and the number of resolver callbacks created so far.  Its outcome is a
    promise that is resolved, rejected, or still pending when the method
    waits for something that only another caller or a timer can bring
    about.  Methods run one at a time, each to its outcome. *)

From stdpp Require Import gmap list strings pretty.

Set Warnings "-register-all".
Open Scope Z_scope.

(** ** JavaScript strings *)

Abbreviation jsstring := (list N).

(** Code units of an ASCII literal. *)
Fixpoint js (s : string) : jsstring :=
  match s with
  | EmptyString => []
  | String a r => Ascii.N_of_ascii a :: js r
  end.
Arguments js : simpl never.

(** The characters matched by [\s] and stripped by [String.prototype.trim]:
    ECMAScript WhiteSpace and LineTerminator. *)
Definition is_ws (c : N) : bool :=
  ((9 <=? c) && (c <=? 13) || (c =? 32) || (c =? 160) || (c =? 5760)
   || (8192 <=? c) && (c <=? 8202) || (c =? 8232) || (c =? 8233)
   || (c =? 8239) || (c =? 8287) || (c =? 12288) || (c =? 65279))%N.

Fixpoint trimStart (s : jsstring) : jsstring :=
  match s with
  | [] => []
  | c :: r => if is_ws c then trimStart r else s
  end.

Fixpoint trimEnd (s : jsstring) : jsstring :=
  match s with
  | [] => []
  | c :: r =>
      match trimEnd r with
      | [] => if is_ws c then [] else [c]
      | r' => c :: r'
      end
  end.

(** [s.trim()] *)
Definition trim (s : jsstring) : jsstring := trimEnd (trimStart s).

(** [s.replace(/\s+/g, ' ')]: every maximal run of whitespace becomes one
    space.  [in_run] tells that the previous code unit belonged to the run
    being replaced. *)
Fixpoint replace_ws_runs (in_run : bool) (s : jsstring) : jsstring :=
  match s with
  | [] => []
  | c :: r =>
      if is_ws c
      then (if in_run then replace_ws_runs true r
            else 32%N :: replace_ws_runs true r)
      else c :: replace_ws_runs false r
  end.

Definition collapse_ws (s : jsstring) : jsstring := replace_ws_runs false s.

(** ASCII case folding, as the [i] flag does on the letters of a pattern
    written in ASCII. *)
Definition ascii_lower (c : N) : N :=
  if ((65 <=? c) && (c <=? 90))%N then (c + 32)%N else c.

Fixpoint starts_with_ci (pat s : jsstring) : bool :=
  match pat, s with
  | [], _ => true
  | _ :: _, [] => false
  | p :: pat', c :: s' => (ascii_lower c =? p)%N && starts_with_ci pat' s'
  end.

(** [/^https?:\/\//i.test(s)] *)
Definition is_http_url (s : jsstring) : bool :=
  starts_with_ci (js "http://") s || starts_with_ci (js "https://") s.

(** ** Thrown values and completions *)

(** The error hierarchy of [src/errors/RssReaderErrors.ts]; [PlainError] is
    the built-in [Error]. *)
Inductive ErrorClass :=
  | PlainError
  | FeedFetchError (feedUrl : jsstring)
  | ParseError (feedUrl : option jsstring) (itemTitle : option jsstring)
  | BrowserError (operation : jsstring)
  | LinkNotFoundError (itemTitle : jsstring)
  | InvalidFeedError (feedUrl : jsstring).

Inductive JsError :=
  | MkError (cls : ErrorClass) (message : jsstring) (cause : option JsError).

Definition err_class (e : JsError) : ErrorClass :=
  let 'MkError c _ _ := e in c.
Definition err_message (e : JsError) : jsstring :=
  let 'MkError _ m _ := e in m.

(** What a [throw] can carry: an [Error] instance, or any other value, of
    which the sources only ever use [String(value)]. *)
Inductive JsThrown :=
  | ThrownError (e : JsError)
  | ThrownValue (shown : jsstring).

(** [error instanceof Error ? error.message : String(error)] *)
Definition errorMessage (t : JsThrown) : jsstring :=
  match t with
  | ThrownError e => err_message e
  | ThrownValue s => s
  end.

(** [error instanceof Error ? error : undefined] *)
Definition errorCause (t : JsThrown) : option JsError :=
  match t with
  | ThrownError e => Some e
  | ThrownValue _ => None
  end.

Definition is_ParseError (e : JsError) : bool :=
  match err_class e with ParseError _ _ => true | _ => false end.
Definition is_FeedFetchError (e : JsError) : bool :=
  match err_class e with FeedFetchError _ => true | _ => false end.
Definition is_BrowserError (e : JsError) : bool :=
  match err_class e with BrowserError _ => true | _ => false end.

(** The result of a synchronous call, or of a settled promise. *)
Inductive Completion (A : Type) :=
  | Return (a : A)
  | Throw (t : JsThrown).
Arguments Return {A} a.
Arguments Throw {A} t.

Definition throwError {A} (c : ErrorClass) (msg : jsstring)
    (cause : option JsError) : Completion A :=
  Throw (ThrownError (MkError c msg cause)).

Definition cbind {A B} (c : Completion A) (k : A → Completion B)
    : Completion B :=
  match c with
  | Return a => k a
  | Throw t => Throw t
  end.

(** [try { c } catch (error) { h error }] *)
Definition ccatch {A} (c : Completion A) (h : JsThrown → Completion A)
    : Completion A :=
  match c with
  | Return a => Return a
  | Throw t => h t
  end.

(** The argument of a function whose TypeScript type says [string] but
    whose body still checks [typeof x !== 'string'] at run time. *)
Inductive JsValue :=
  | JsString (s : jsstring)
  | JsNonString.

(** ** Title cleaner ([src/services/TitleCleaner.ts]) *)

(** A [RegExp] used as [cleaned.replace(pattern, '')]: the regular-expression
    engine is external, so a pattern is the function it computes, which may
    throw. *)
Definition Pattern := jsstring → Completion jsstring.

Record TitleCleanOptions := {
  suffixPattern : option Pattern;
  prefixPattern : option Pattern;
}.

(** [try { cleaned = cleaned.replace(pattern, '') } catch { }] under
    [if (pattern)] *)
Definition removePattern (p : option Pattern) (cleaned : jsstring) : jsstring :=
  match p with
  | None => cleaned
  | Some replace =>
      match replace cleaned with
      | Return cleaned' => cleaned'
      | Throw _ => cleaned
      end
  end.

Definition cleanTitle (title : JsValue) (options : option TitleCleanOptions)
    : jsstring :=
  match title with
  | JsNonString => []
  | JsString [] => []
  | JsString title =>
      let cleaned := title in
      let cleaned := removePattern (options ≫= prefixPattern) cleaned in
      let cleaned := removePattern (options ≫= suffixPattern) cleaned in
      collapse_ws (trim cleaned)
  end.

(** ** Link extractor ([src/services/LinkExtractor.ts]) *)

(** [links.filter(link => { if (seen.has(link)) return false;
    seen.add(link); return true; })] *)
Fixpoint filter_unseen (seen : gset jsstring) (links : list jsstring)
    : list jsstring :=
  match links with
  | [] => []
  | link :: rest =>
      if decide (link ∈ seen) then filter_unseen seen rest
      else link :: filter_unseen ({[link]} ∪ seen) rest
  end.

(** The body of the [each] callback: [href] is [undefined] when the anchor
    has no such attribute. *)
Definition keep_href (href : option jsstring) : option jsstring :=
  match href with
  | None => None
  | Some [] => None
  | Some h => if (0 <? Z.of_nat (length (trim h))) then Some (trim h) else None
  end.

Section LinkExtractor.
(** Cheerio: [cheerio.load(html)] followed by [$('a').each(...)] reading
    [attr('href')] of each anchor, in document order; it may throw. *)
Variable cheerio_anchor_hrefs : jsstring → Completion (list (option jsstring)).

Definition extractLinks (html : JsValue) : Completion (list jsstring) :=
  match html with
  | JsNonString => Return []
  | JsString [] => Return []
  | JsString html =>
      ccatch
        (cbind (cheerio_anchor_hrefs html) (λ hrefs,
           let links := omap keep_href hrefs in
           let uniqueLinks := filter_unseen ∅ links in
           Return uniqueLinks))
        (λ _, Return [])
  end.
End LinkExtractor.

(** ** Items ([src/types/index.ts]) *)

(** A [Date]: its time value in milliseconds, [None] for an invalid date
    (time value [NaN]). *)
Definition JsDate := option Z.

Record RssItem := {
  title : jsstring;
  link : jsstring;
  publishedAt : JsDate;
  links : list jsstring;
  itemId : option jsstring;
  rawContent : option jsstring;
  metadata : option (list (jsstring * list jsstring));
}.

(** An entry as xml2js hands it over: every field an array of values. *)
Record RawRssItem := {
  raw_title : option (list jsstring);
  raw_link : option (list jsstring);
  raw_pubDate : option (list jsstring);
  raw_contentEncoded : option (list jsstring);
  raw_description : option (list jsstring);
}.

(** ** Item validator ([src/validators/ItemValidator.ts])

    The argument is a well-typed [RssItem], so the [typeof] and
    [Array.isArray] tests of the source cannot fail; what remains are the
    tests on the values. *)
Definition validate (item : RssItem) : Completion unit :=
  if bool_decide (title item = []) || (Z.of_nat (length (trim (title item))) =? 0)
  then throwError (ParseError None (Some (title item)))
         (js "Item validation failed: title is required and must be a non-empty string")
         None
  else if bool_decide (link item = []) || (Z.of_nat (length (trim (link item))) =? 0)
  then throwError (ParseError None (Some (title item)))
         (js "Item validation failed: link is required and must be a non-empty string")
         None
  else match publishedAt item with
       | None =>
           throwError (ParseError None (Some (title item)))
             (js "Item validation failed: publishedAt must be a valid Date") None
       | Some _ => Return tt
       end.

(** ** Feed orchestrator: entries ([src/reader/RssReader.ts]) *)

Section ParseItems.
(** [IItemParser.parseItem]: the item assembler, injected into the reader.
    Its promise is settled when [await] returns. *)
Variable parseItem : RawRssItem → jsstring → Completion RssItem.

(** The [try] block of the loop body. *)
Definition parse_and_validate (rawItem : RawRssItem) (feedUrl : jsstring)
    : Completion RssItem :=
  cbind (parseItem rawItem feedUrl) (λ item,
  cbind (validate item) (λ _, Return item)).

(** The [catch] block of the loop body: the error pushed on [errors]. *)
Definition collected_error (rawItem : RawRssItem) (feedUrl : jsstring)
    (error : JsThrown) : JsError :=
  let wrapped :=
    let title := match raw_title rawItem with
                 | Some t => t !! 0%nat
                 | None => Some (js "Unknown")
                 end in
    MkError (ParseError (Some feedUrl) title)
      (js "Failed to parse item: " ++ errorMessage error) (errorCause error) in
  match error with
  | ThrownError e => if is_ParseError e then e else wrapped
  | ThrownValue _ => wrapped
  end.

(** One iteration of [for (const rawItem of rawItems)], on the two
    arrays [items] and [errors]. *)
Definition parseItems_step (feedUrl : jsstring)
    (acc : list RssItem * list JsError) (rawItem : RawRssItem)
    : list RssItem * list JsError :=
  let '(items, errors) := acc in
  match parse_and_validate rawItem feedUrl with
  | Return item => (items ++ [item], errors)
  | Throw error => (items, errors ++ [collected_error rawItem feedUrl error])
  end.

Definition parseItems (rawItems : list RawRssItem) (feedUrl : jsstring)
    : Completion (list RssItem) :=
  let '(items, errors) := foldl (parseItems_step feedUrl) ([], []) rawItems in
  if (Z.of_nat (length items) =? 0) && (0 <? Z.of_nat (length errors))
  then match errors !! 0%nat with
       | Some e => Throw (ThrownError e)
       | None => Throw (ThrownValue (js "undefined"))
       end
  else Return items.
End ParseItems.

(** De-duplication by link: the loop over [items] with the set [seen] and
    the array [deduplicated]. *)
Fixpoint deduplicate_loop (seen : gset jsstring) (deduplicated : list RssItem)
    (items : list RssItem) : list RssItem :=
  match items with
  | [] => deduplicated
  | item :: rest =>
      if decide (link item ∈ seen)
      then deduplicate_loop seen deduplicated rest
      else deduplicate_loop ({[link item]} ∪ seen) (deduplicated ++ [item]) rest
  end.

Definition deduplicateItems (items : list RssItem) : list RssItem :=
  deduplicate_loop ∅ [] items.

(** ** The browser engine and promises *)

(** Identities of Puppeteer [Browser] and [Page] objects, and of the
    resolver callbacks queued by [acquire]. *)
Definition Browser := nat.
Definition Page := nat.
Definition Waiter := nat.

(** An [HTTPResponse]: [response.status()] and [await response.text()]. *)
Record Response := {
  status : Z;
  text : Completion jsstring;
}.

(** The argument of [puppeteer.launch]. *)
Record LaunchArgs := {
  launch_headless : bool;
  launch_args : list jsstring;
}.

(** Puppeteer, timers and the clock, as far as the sources call them.  Every
    call may change the world; [browser_kill] is
    [browser.process()?.kill('SIGKILL')]. *)
Class Engine (W : Type) := {
  puppeteer_launch : LaunchArgs → W → Completion Browser * W;
  browser_isConnected : Browser → W → bool;
  browser_close : Browser → W → Completion unit * W;
  browser_kill : Browser → W → Completion unit * W;
  browser_newPage : Browser → W → Completion Page * W;
  page_setDefaultTimeouts : Page → Z → W → Completion unit * W;
  page_goto : Page → jsstring → Z → W → Completion (option Response) * W;
  page_close : Page → W → Completion unit * W;
  timer_sleep : Z → W → W;
  clock_now : W → Z;
}.

(** Calls in the order they are made.  The log is write-only: no modelled
    function reads it.  [EvAcquired] and [EvHandOff] mark the two places
    where the pool gives a handle to a caller, [EvReleased] the place where
    it takes one back. *)
Inductive Event :=
  | EvLaunch
  | EvClose (b : Browser)
  | EvKill (b : Browser)
  | EvNewPage (b : Browser)
  | EvPageTimeouts (p : Page) (ms : Z)
  | EvGoto (p : Page) (url : jsstring)
  | EvPageClose (p : Page)
  | EvSleep (ms : Z)
  | EvAcquired (b : Browser)
  | EvReleased (b : Browser)
  | EvHandOff (w : Waiter) (b : Browser).

(** The state of a promise when control comes back to the caller. *)
Inductive Outcome (A : Type) :=
  | Resolved (a : A)
  | Rejected (t : JsThrown)
  | Pending.
Arguments Resolved {A} a.
Arguments Rejected {A} t.
Arguments Pending {A}.

Definition settle {A} (c : Completion A) : Outcome A :=
  match c with
  | Return a => Resolved a
  | Throw t => Rejected t
  end.

Section Async.
Context {W : Type} `{Engine W}.

(** What every asynchronous function threads besides its own object:
    the world, the call log, and the number of resolvers created. *)
Record Ctx := {
  world : W;
  trace : list Event;
  resolvers : nat;
}.

(** An [async] method of an object with state [St].  [Pending] means the
    method is suspended on a promise that only another caller or a timer
    can settle; the model stops there. *)
Definition M (St A : Type) : Type := St → Ctx → Outcome A * St * Ctx.

Definition ret {St A} (a : A) : M St A := λ s c, (Resolved a, s, c).
Definition reject {St A} (t : JsThrown) : M St A := λ s c, (Rejected t, s, c).
Definition suspend {St A} : M St A := λ s c, (Pending, s, c).

Definition rejectWith {St A} (cls : ErrorClass) (msg : jsstring)
    (cause : option JsError) : M St A :=
  reject (ThrownError (MkError cls msg cause)).

Definition bind {St A B} (m : M St A) (k : A → M St B) : M St B :=
  λ s c,
    let '(r, s', c') := m s c in
    match r with
    | Resolved a => k a s' c'
    | Rejected t => (Rejected t, s', c')
    | Pending => (Pending, s', c')
    end.

(** [try { m } catch (error) { h error }] *)
Definition try_catch {St A} (m : M St A) (h : JsThrown → M St A) : M St A :=
  λ s c,
    let '(r, s', c') := m s c in
    match r with
    | Rejected t => h t s' c'
    | _ => (r, s', c')
    end.

(** [try { m } finally { f }]: a throw inside [f] replaces the outcome
    of [m]. *)
Definition try_finally {St A} (m : M St A) (f : M St unit) : M St A :=
  λ s c,
    let '(r, s', c') := m s c in
    match r with
    | Pending => (Pending, s', c')
    | _ =>
        let '(rf, s'', c'') := f s' c' in
        match rf with
        | Resolved _ => (r, s'', c'')
        | Rejected t => (Rejected t, s'', c'')
        | Pending => (Pending, s'', c'')
        end
    end.

Definition get {St} : M St St := λ s c, (Resolved s, s, c).
Definition put {St} (s : St) : M St unit := λ _ c, (Resolved tt, s, c).
Definition modify {St} (f : St → St) : M St unit := λ s c, (Resolved tt, f s, c).

Definition emit {St} (e : Event) : M St unit :=
  λ s c, (Resolved tt, s,
          {| world := world c; trace := trace c ++ [e]; resolvers := resolvers c |}).

(** A call into the engine, logged as [e]. *)
Definition call {St A} (e : Event) (f : W → Completion A * W) : M St A :=
  λ s c,
    let '(r, w') := f (world c) in
    (settle r, s,
     {| world := w'; trace := trace c ++ [e]; resolvers := resolvers c |}).

(** [browser.isConnected()] *)
Definition isConnected {St} (b : Browser) : M St bool :=
  λ s c, (Resolved (browser_isConnected b (world c)), s, c).

(** [new Promise(resolve => setTimeout(resolve, ms))] awaited. *)
Definition delay {St} (ms : Z) : M St unit :=
  λ s c, (Resolved tt, s,
          {| world := timer_sleep ms (world c);
             trace := trace c ++ [EvSleep ms];
             resolvers := resolvers c |}).
End Async.

Arguments Ctx W : clear implicits.
Arguments M W St A : clear implicits.

Declare Scope async_scope.
Delimit Scope async_scope with async.
Notation "x <- m ;; k" := (bind m (λ x, k))
  (at level 100, m at next level, right associativity) : async_scope.
Notation "m ;;; k" := (bind m (λ _, k))
  (at level 100, right associativity) : async_scope.

(** ** Handle manager ([src/browser/BrowserManager.ts]) *)

Record BrowserLaunchOptions := {
  opt_headless : option bool;
  opt_args : option (list jsstring);
  opt_disableSandbox : option bool;
}.

Record BrowserManager := {
  browser : option Browser;
  launching : bool;
  options : BrowserLaunchOptions;
}.

Definition set_browser (b : option Browser) (m : BrowserManager) : BrowserManager :=
  {| browser := b; launching := launching m; options := options m |}.
Definition set_launching (l : bool) (m : BrowserManager) : BrowserManager :=
  {| browser := browser m; launching := l; options := options m |}.

(** [new BrowserManager(options)] *)
Definition newBrowserManager (o : BrowserLaunchOptions) : BrowserManager :=
  {| browser := None; launching := false; options := o |}.

(** The callback that [launch] registers for ['disconnected']; the engine
    runs it between two calls of the methods below. *)
Definition on_disconnected (m : BrowserManager) : BrowserManager :=
  set_browser None m.

Section Manager.
Context {W : Type} `{Engine W}.
Local Open Scope async_scope.

Definition getBrowser (m : BrowserManager) : option Browser := browser m.

(** [this.browser && this.browser.isConnected()] *)
Definition browser_connected : M W BrowserManager (option Browser) :=
  m <- get ;;
  match browser m with
  | None => ret None
  | Some b =>
      connected <- isConnected b ;;
      if connected : bool then ret (Some b) else ret None
  end.

(** The [try]/[catch]/[finally] of [launch], entered with
    [this.launching = true]. *)
Definition launch_new : M W BrowserManager Browser :=
  try_finally
    (try_catch
       (m <- get ;;
        let defaultArgs :=
          [js "--disable-dev-shm-usage"; js "--disable-gpu"] ++
          (if bool_decide (opt_disableSandbox (options m) = Some true)
           then [js "--no-sandbox"; js "--disable-setuid-sandbox"] else []) in
        let args := defaultArgs ++ default [] (opt_args (options m)) in
        b <- call EvLaunch
               (puppeteer_launch
                  {| launch_headless :=
                       negb (bool_decide (opt_headless (options m) = Some false));
                     launch_args := args |}) ;;
        modify (set_browser (Some b)) ;;;
        ret b)
       (λ error,
          modify (set_browser None) ;;;
          rejectWith (BrowserError (js "launch"))
            (js "Failed to launch browser: " ++ errorMessage error)
            (errorCause error)))
    (modify (set_launching false)).

(** While another call is launching, [launch] polls every 100 ms; with
    nobody else running that wait does not end, so the method is
    suspended. *)
Definition launch : M W BrowserManager Browser :=
  m <- get ;;
  if launching m then suspend
  else
    live <- browser_connected ;;
    match live with
    | Some b => ret b
    | None => modify (set_launching true) ;;; launch_new
    end.

Definition close : M W BrowserManager unit :=
  m <- get ;;
  match browser m with
  | None => ret tt
  | Some b =>
      try_finally
        (try_catch
           (call (EvClose b) (browser_close b))
           (λ error,
              rejectWith (BrowserError (js "close"))
                (js "Failed to close browser: " ++ errorMessage error)
                (errorCause error)))
        (modify (set_browser None))
  end.

Definition kill : M W BrowserManager unit :=
  m <- get ;;
  match browser m with
  | None => ret tt
  | Some b =>
      try_finally
        (try_catch (call (EvKill b) (browser_kill b)) (λ _, ret tt))
        (modify (set_browser None))
  end.

Definition restart : M W BrowserManager Browser :=
  close ;;; launch.
End Manager.

(** ** Resource pool ([src/browser/BrowserPool.ts]) *)

Record BrowserPool := {
  managers : list BrowserManager;
  availableBrowsers : list Browser;
  busyBrowsers : gset Browser;
  initialized : bool;
  waitQueue : list Waiter;
  poolSize : Z;
  disableSandbox : bool;
}.

Definition set_managers (ms : list BrowserManager) (p : BrowserPool) : BrowserPool :=
  {| managers := ms; availableBrowsers := availableBrowsers p;
     busyBrowsers := busyBrowsers p; initialized := initialized p;
     waitQueue := waitQueue p; poolSize := poolSize p;
     disableSandbox := disableSandbox p |}.
Definition set_available (bs : list Browser) (p : BrowserPool) : BrowserPool :=
  {| managers := managers p; availableBrowsers := bs;
     busyBrowsers := busyBrowsers p; initialized := initialized p;
     waitQueue := waitQueue p; poolSize := poolSize p;
     disableSandbox := disableSandbox p |}.
Definition set_busy (bs : gset Browser) (p : BrowserPool) : BrowserPool :=
  {| managers := managers p; availableBrowsers := availableBrowsers p;
     busyBrowsers := bs; initialized := initialized p;
     waitQueue := waitQueue p; poolSize := poolSize p;
     disableSandbox := disableSandbox p |}.
Definition set_initialized (i : bool) (p : BrowserPool) : BrowserPool :=
  {| managers := managers p; availableBrowsers := availableBrowsers p;
     busyBrowsers := busyBrowsers p; initialized := i;
     waitQueue := waitQueue p; poolSize := poolSize p;
     disableSandbox := disableSandbox p |}.
Definition set_waitQueue (q : list Waiter) (p : BrowserPool) : BrowserPool :=
  {| managers := managers p; availableBrowsers := availableBrowsers p;
     busyBrowsers := busyBrowsers p; initialized := initialized p;
     waitQueue := q; poolSize := poolSize p;
     disableSandbox := disableSandbox p |}.

Record BrowserPoolOptions := {
  opt_poolSize : option Z;
  opt_poolDisableSandbox : option bool;
}.

(** [new BrowserPool(options)] *)
Definition newBrowserPool (o : BrowserPoolOptions) : Completion BrowserPool :=
  let poolSize := default 2 (opt_poolSize o) in
  let disableSandbox := default false (opt_poolDisableSandbox o) in
  if poolSize <? 1
  then throwError PlainError (js "Pool size must be at least 1") None
  else Return {| managers := []; availableBrowsers := []; busyBrowsers := ∅;
                 initialized := false; waitQueue := [];
                 poolSize := poolSize; disableSandbox := disableSandbox |}.

Record BrowserPoolStats := {
  total : Z;
  available : Z;
  inUse : Z;
}.

Definition getStats (p : BrowserPool) : BrowserPoolStats :=
  {| total := poolSize p;
     available := Z.of_nat (length (availableBrowsers p));
     inUse := Z.of_nat (size (busyBrowsers p)) |}.

Definition isInitialized (p : BrowserPool) : bool := initialized p.

(** [array.pop()]: the last element and what is left. *)
Definition pop {A} (l : list A) : option (A * list A) :=
  match last l with
  | Some x => Some (x, removelast l)
  | None => None
  end.

(** [Promise.all]: the first rejection if there is one, all the values if
    every promise resolved. *)
Fixpoint first_rejection {A} (rs : list (Outcome A)) : option JsThrown :=
  match rs with
  | [] => None
  | Rejected t :: _ => Some t
  | _ :: rs' => first_rejection rs'
  end.

Fixpoint all_resolved {A} (rs : list (Outcome A)) : option (list A) :=
  match rs with
  | [] => Some []
  | Resolved a :: rs' => cons a <$> all_resolved rs'
  | _ :: _ => None
  end.

Definition promise_all {A} (rs : list (Outcome A)) : Outcome (list A) :=
  match first_rejection rs with
  | Some t => Rejected t
  | None =>
      match all_resolved rs with
      | Some l => Resolved l
      | None => Pending
      end
  end.

Section Pool.
Context {W : Type} `{Engine W}.
Local Open Scope async_scope.

(** [this.managers.map(manager => f(manager))]: the calls start in array
    order, and here each one runs to its outcome before the next starts. *)
Fixpoint run_each {A} (f : M W BrowserManager A) (ms : list BrowserManager)
    (c : Ctx W) : list (Outcome A) * list BrowserManager * Ctx W :=
  match ms with
  | [] => ([], [], c)
  | m :: ms' =>
      let '(r, m', c') := f m c in
      let '(rs, ms'', c'') := run_each f ms' c' in
      (r :: rs, m' :: ms'', c'')
  end.

(** [await Promise.all(this.managers.map(f))] *)
Definition all_managers {A} (f : M W BrowserManager A) : M W BrowserPool (list A) :=
  λ p c,
    let '(rs, ms, c') := run_each f (managers p) c in
    (promise_all rs, set_managers ms p, c').

Definition cleanup : M W BrowserPool unit :=
  modify (set_waitQueue []) ;;;
  all_managers (try_catch close (λ _, kill)) ;;;
  modify (λ p, set_initialized false
                 (set_busy ∅ (set_available [] (set_managers [] p)))).

Definition initialize : M W BrowserPool unit :=
  p <- get ;;
  if initialized p then ret tt
  else
    try_catch
      (modify (set_managers
                 (replicate (Z.to_nat (poolSize p))
                    (newBrowserManager
                       {| opt_headless := Some true; opt_args := None;
                          opt_disableSandbox := Some (disableSandbox p) |}))) ;;;
       browsers <- all_managers launch ;;
       modify (λ p, set_initialized true
                      (set_busy ∅ (set_available browsers p))))
      (λ error,
         cleanup ;;;
         rejectWith (BrowserError (js "initialize"))
           (js "Failed to initialize browser pool: " ++ errorMessage error)
           (errorCause error)).

(** [this.managers.find(m => m.getBrowser() === browser)], then
    [manager.restart()], then the two updates of the collections. *)
Definition recoverBrowser (b : Browser) : M W BrowserPool unit :=
  p <- get ;;
  match list_find (λ m, getBrowser m = Some b) (managers p) with
  | None =>
      rejectWith (BrowserError (js "recover"))
        (js "Cannot recover browser: manager not found") None
  | Some (i, manager) =>
      try_catch
        (newBrowser <- (λ p c,
                          let '(r, manager', c') := restart manager c in
                          (r, set_managers (<[i := manager']> (managers p)) p, c')) ;;
         modify (λ p,
                   match list_find (λ x, x = b) (availableBrowsers p) with
                   | Some (availableIndex, _) =>
                       set_available
                         (<[availableIndex := newBrowser]> (availableBrowsers p)) p
                   | None => p
                   end) ;;;
         modify (λ p,
                   if decide (b ∈ busyBrowsers p)
                   then set_busy ({[newBrowser]} ∪ (busyBrowsers p ∖ {[b]})) p
                   else p))
        (λ error,
           rejectWith (BrowserError (js "recover"))
             (js "Failed to recover browser: " ++ errorMessage error)
             (errorCause error))
  end.

(** [this.waitQueue.push(...)] inside [new Promise]: a fresh resolver is
    queued and the caller stays suspended.  The 60 s timer that rejects
    the promise is not part of the model. *)
Definition enqueue_waiter {A} : M W BrowserPool A :=
  λ p c,
    (Pending, set_waitQueue (waitQueue p ++ [resolvers c]) p,
     {| world := world c; trace := trace c; resolvers := S (resolvers c) |}).

(** [acquire(maxRetries, attempt)]; [fuel] bounds the recursion and is
    [maxRetries - attempt] at the outermost call, which the test
    [attempt >= maxRetries] never lets run out. *)
Fixpoint acquire_rec (fuel : nat) (maxRetries attempt : Z)
    : M W BrowserPool Browser :=
  p <- get ;;
  if negb (initialized p)
  then rejectWith (BrowserError (js "acquire"))
         (js "Browser pool is not initialized. Call initialize() first.") None
  else if maxRetries <=? attempt
  then rejectWith (BrowserError (js "acquire"))
         (js "Failed to acquire browser after " ++ js (pretty maxRetries)
            ++ js " retry attempts") None
  else
    match pop (availableBrowsers p) with
    | Some (b, rest) =>
        modify (set_available rest) ;;;
        connected <- isConnected b ;;
        if connected : bool
        then
          modify (λ p, set_busy ({[b]} ∪ busyBrowsers p) p) ;;;
          emit (EvAcquired b) ;;;
          ret b
        else
          recoverBrowser b ;;;
          match fuel with
          | O => suspend
          | S fuel' => acquire_rec fuel' maxRetries (attempt + 1)
          end
    | None => enqueue_waiter
    end.

Definition acquire_with (maxRetries attempt : Z) : M W BrowserPool Browser :=
  acquire_rec (Z.to_nat (maxRetries - attempt)) maxRetries attempt.

(** [acquire()] with its default arguments. *)
Definition acquire : M W BrowserPool Browser := acquire_with 3 0.

Definition release (b : Browser) : M W BrowserPool unit :=
  p <- get ;;
  if negb (initialized p)
  then rejectWith (BrowserError (js "release"))
         (js "Browser pool is not initialized") None
  else if decide (b ∉ busyBrowsers p)
  then rejectWith (BrowserError (js "release"))
         (js "Browser is not from this pool or was already released") None
  else
    modify (λ p, set_busy (busyBrowsers p ∖ {[b]}) p) ;;;
    emit (EvReleased b) ;;;
    p <- get ;;
    match waitQueue p with
    | resolve :: rest =>
        modify (set_waitQueue rest) ;;;
        connected <- isConnected b ;;
        if connected : bool
        then
          modify (λ p, set_busy ({[b]} ∪ busyBrowsers p) p) ;;;
          emit (EvHandOff resolve b)
        else
          recoverBrowser b ;;;
          workingBrowser <- acquire ;;
          emit (EvHandOff resolve workingBrowser)
    | [] =>
        modify (λ p, set_available (availableBrowsers p ++ [b]) p)
    end.

(** [close()] of the pool. *)
Definition pool_close : M W BrowserPool unit :=
  p <- get ;;
  if negb (initialized p) then ret tt else cleanup.
End Pool.

(** ** Backoff executor ([src/utils/RetryHandler.ts]) *)

(** Delays are millisecond counts. *)
Record RetryOptions := {
  initialDelay : Z;
  maxDelay : Z;
  backoffMultiplier : Z;
}.

Record RetryOptionsArg := {
  arg_initialDelay : option Z;
  arg_maxDelay : option Z;
  arg_backoffMultiplier : option Z;
}.

(** [new RetryHandler(options)] *)
Definition newRetryHandler (o : RetryOptionsArg) : RetryOptions :=
  {| initialDelay := default 1000 (arg_initialDelay o);
     maxDelay := default 30000 (arg_maxDelay o);
     backoffMultiplier := default 2 (arg_backoffMultiplier o) |}.

(** [error instanceof Error ? error : new Error(String(error))] *)
Definition asError (error : JsThrown) : JsError :=
  match error with
  | ThrownError e => e
  | ThrownValue s => MkError PlainError s None
  end.

Section Retry.
Context {W : Type} `{Engine W}.
Context {St T : Type}.
Local Open Scope async_scope.

Variable this : RetryOptions.
Variable operation : M W St T.
Variable maxAttempts : Z.

(** [throw lastError] *)
Definition throw_lastError (lastError : option JsError) : M W St T :=
  match lastError with
  | Some e => reject (ThrownError e)
  | None => reject (ThrownValue (js "undefined"))
  end.

(** The [for] loop, entered at [attempt] with [iterations] turns left
    ([maxAttempts - attempt + 1] of them). *)
Fixpoint retry_loop (iterations : nat) (attempt currentDelay : Z)
    (lastError : option JsError) : M W St T :=
  match iterations with
  | O => throw_lastError lastError
  | S iterations' =>
      if attempt <=? maxAttempts
      then
        try_catch operation
          (λ error,
             let lastError := Some (asError error) in
             if attempt =? maxAttempts
             then throw_lastError lastError
             else
               delay currentDelay ;;;
               retry_loop iterations' (attempt + 1)
                 (Z.min (currentDelay * backoffMultiplier this) (maxDelay this))
                 lastError)
      else throw_lastError lastError
  end.

Definition executeWithRetry : M W St T :=
  if maxAttempts <? 1
  then rejectWith PlainError (js "maxAttempts must be at least 1") None
  else retry_loop (Z.to_nat maxAttempts) 1 (initialDelay this) None.
End Retry.

(** ** Fetch orchestrator ([src/services/FeedFetcher.ts]) *)

Section FeedFetcher.
Context {W : Type} `{Engine W}.
Context {St : Type}.
Local Open Scope async_scope.

Definition DEFAULT_TIMEOUT : Z := 30000.

(** The [catch] block of [fetchFeed]. *)
Definition fetch_catch (feedUrl : jsstring) (error : JsThrown) : M W St jsstring :=
  match error with
  | ThrownError e =>
      if is_FeedFetchError e then reject error
      else rejectWith (FeedFetchError feedUrl)
             (js "Failed to fetch feed: " ++ errorMessage error) (errorCause error)
  | ThrownValue _ =>
      rejectWith (FeedFetchError feedUrl)
        (js "Failed to fetch feed: " ++ errorMessage error) (errorCause error)
  end.

(** The [try] block of [fetchFeed] once the page exists. *)
Definition fetch_page (feedUrl : jsstring) (page : Page) (fetchTimeout : Z)
    : M W St jsstring :=
  call (EvPageTimeouts page fetchTimeout)
    (page_setDefaultTimeouts page fetchTimeout) ;;;
  response <- call (EvGoto page feedUrl) (page_goto page feedUrl fetchTimeout) ;;
  match response with
  | None =>
      rejectWith (FeedFetchError feedUrl)
        (js "Failed to navigate to feed URL: no response received") None
  | Some response =>
      if (status response <? 200) || (400 <=? status response)
      then rejectWith (FeedFetchError feedUrl)
             (js "Failed to fetch feed: HTTP " ++ js (pretty (status response))) None
      else
        content <- (λ s c, (settle (text response), s, c)) ;;
        if bool_decide (content = []) || (Z.of_nat (length (trim content)) =? 0)
        then rejectWith (FeedFetchError feedUrl) (js "Feed content is empty") None
        else ret content
  end.

(** [browser] is a handle of the pool, so the test [!browser] of the
    source cannot succeed. *)
Definition fetchFeed (feedUrl : jsstring) (b : Browser) (timeout : option Z)
    : M W St jsstring :=
  if bool_decide (feedUrl = [])
  then rejectWith (FeedFetchError feedUrl) (js "Feed URL is required") None
  else if negb (is_http_url feedUrl)
  then rejectWith (FeedFetchError feedUrl)
         (js "Invalid feed URL: must use HTTP or HTTPS protocol") None
  else
    let fetchTimeout := default DEFAULT_TIMEOUT timeout in
    λ s c,
      let '(opened, s1, c1) := call (EvNewPage b) (browser_newPage b) s c in
      match opened with
      | Resolved page =>
          try_finally
            (try_catch (fetch_page feedUrl page fetchTimeout) (fetch_catch feedUrl))
            (try_catch (call (EvPageClose page) (page_close page)) (λ _, ret tt))
            s1 c1
      | Rejected error => fetch_catch feedUrl error s1 c1
      | Pending => (Pending, s1, c1)
      end.
End FeedFetcher.

(** ** Feed orchestrator ([src/reader/RssReader.ts]) *)

(** What xml2js returns for a document: the RSS 2.0 shape, the Atom shape,
    or neither. *)
Record RssChannel := {
  channel_title : option (list jsstring);
  channel_description : option (list jsstring);
  channel_item : option (list RawRssItem);
}.

Record AtomFeed := {
  atom_title : option (list jsstring);
  atom_subtitle : option (list jsstring);
  atom_entry : option (list RawRssItem);
}.

Record FeedData := {
  rss : option (option (list RssChannel));
  feed : option AtomFeed;
}.

Record RssFeed := {
  feed_title : jsstring;
  feedUrl : jsstring;
  description : option jsstring;
  items : list RssItem;
  fetchedAt : JsDate;
}.

(** The configuration after the constructor has filled in the defaults.
    The pattern fields are handed to the item assembler and do not occur
    in the orchestrator itself. *)
Record RssReaderConfig := {
  browserPoolSize : Z;
  retryAttempts : Z;
  timeout : Z;
  cfg_disableSandbox : bool;
}.

Record RssReaderConfigArg := {
  arg_browserPoolSize : option Z;
  arg_retryAttempts : option Z;
  arg_timeout : option Z;
  arg_disableSandbox : option bool;
}.

Definition mergeConfig (config : option RssReaderConfigArg) : RssReaderConfig :=
  {| browserPoolSize := default 2 (config ≫= arg_browserPoolSize);
     retryAttempts := default 3 (config ≫= arg_retryAttempts);
     timeout := default 30000 (config ≫= arg_timeout);
     cfg_disableSandbox := default false (config ≫= arg_disableSandbox) |}.

(** The fields of a reader: [config] and [retryHandler] are read-only, the
    pool is the state its methods work on. *)
Record RssReader := {
  config : RssReaderConfig;
  browserPool : BrowserPool;
  retryHandler : RetryOptions;
}.

(** [new RssReader(config)] *)
Definition newRssReader (config : option RssReaderConfigArg) : Completion RssReader :=
  let config := mergeConfig config in
  cbind (newBrowserPool
           {| opt_poolSize := Some (browserPoolSize config);
              opt_poolDisableSandbox := Some (cfg_disableSandbox config) |})
    (λ pool,
       Return {| config := config; browserPool := pool;
                 retryHandler :=
                   newRetryHandler
                     {| arg_initialDelay := Some 1000; arg_maxDelay := Some 30000;
                        arg_backoffMultiplier := Some 2 |} |}).

(** A string that is neither [undefined] nor empty. *)
Definition truthy (s : option jsstring) : option jsstring :=
  match s with
  | Some (c :: r) => Some (c :: r)
  | _ => None
  end.

(** [array?.[0]] *)
Definition first {A} (array : option (list A)) : option A :=
  match array with
  | Some (x :: _) => Some x
  | _ => None
  end.

Definition first_channel (data : FeedData) : option RssChannel :=
  match rss data with
  | Some channel => first channel
  | None => None
  end.

Definition extractFeedTitle (data : FeedData) : jsstring :=
  match truthy (first (first_channel data ≫= channel_title)) with
  | Some t => t
  | None =>
      match truthy (first (feed data ≫= atom_title)) with
      | Some t => t
      | None => js "Unknown Feed"
      end
  end.

Definition extractFeedDescription (data : FeedData) : option jsstring :=
  match truthy (first (first_channel data ≫= channel_description)) with
  | Some t => Some t
  | None => truthy (first (feed data ≫= atom_subtitle))
  end.

Definition extractRawItems (data : FeedData) (feedUrl : jsstring)
    : Completion (list RawRssItem) :=
  match first_channel data ≫= channel_item with
  | Some item => Return item
  | None =>
      match feed data ≫= atom_entry with
      | Some entry => Return entry
      | None =>
          throwError (InvalidFeedError feedUrl)
            (js "Feed does not contain valid RSS or Atom structure") None
      end
  end.

Section Reader.
Context {W : Type} `{Engine W}.
Local Open Scope async_scope.

(** xml2js [parseString], and the injected item assembler. *)
Variable parseString : jsstring → Completion FeedData.
Variable parseItem : RawRssItem → jsstring → Completion RssItem.

Definition lift {St A} (c : Completion A) : M W St A :=
  λ s k, (settle c, s, k).

Definition parseXml {St} (xml feedUrl : jsstring) : M W St FeedData :=
  match parseString xml with
  | Return result => ret result
  | Throw err =>
      rejectWith (InvalidFeedError feedUrl)
        (js "Failed to parse XML: " ++ errorMessage err) (errorCause err)
  end.

(** The operation that [fetchAndParse] hands to the backoff executor. *)
Definition fetch_attempt (this : RssReader) (feedUrl : jsstring)
    : M W BrowserPool jsstring :=
  b <- acquire ;;
  try_finally
    (fetchFeed feedUrl b (Some (timeout (config this))))
    (release b).

Definition fetchAndParse (this : RssReader) (feedUrl : jsstring)
    : M W BrowserPool RssFeed :=
  pool <- get ;;
  if negb (isInitialized pool)
  then rejectWith (BrowserError (js "fetchAndParse"))
         (js "Browser pool not initialized. Call initialize() first.") None
  else
    xml <- executeWithRetry (retryHandler this) (fetch_attempt this feedUrl)
             (retryAttempts (config this)) ;;
    feedData <- parseXml xml feedUrl ;;
    let feedTitle := extractFeedTitle feedData in
    let feedDescription := extractFeedDescription feedData in
    rawItems <- lift (extractRawItems feedData feedUrl) ;;
    items <- lift (parseItems parseItem rawItems feedUrl) ;;
    let deduplicatedItems := deduplicateItems items in
    (λ s c,
       (Resolved {| feed_title := feedTitle; feedUrl := feedUrl;
                    description := feedDescription; items := deduplicatedItems;
                    fetchedAt := Some (clock_now (world c)) |}, s, c)).

(** [reader.initialize()], [reader.close()], [reader.getPoolStats()],
    [reader.isInitialized()] delegate to the pool. *)
Definition reader_initialize : M W BrowserPool unit := initialize.
Definition reader_close : M W BrowserPool unit := pool_close.
End Reader.

(** ** A scripted engine

    A deterministic stand-in for Puppeteer, used to run the model on
    concrete inputs: browsers and pages are numbered in the order they
    are created, [sim_dead] lists the browsers that are disconnected,
    [sim_close_fails] those whose graceful close throws, and
    [sim_launch_fails] makes every launch throw. *)

Record Sim := {
  sim_next : nat;
  sim_dead : list Browser;
  sim_close_fails : list Browser;
  sim_launch_fails : bool;
  sim_clock : Z;
}.

Definition sim_fresh (w : Sim) : Sim :=
  {| sim_next := S (sim_next w); sim_dead := sim_dead w;
     sim_close_fails := sim_close_fails w;
     sim_launch_fails := sim_launch_fails w; sim_clock := sim_clock w |}.

Definition sim_disconnect (b : Browser) (w : Sim) : Sim :=
  {| sim_next := sim_next w; sim_dead := b :: sim_dead w;
     sim_close_fails := sim_close_fails w;
     sim_launch_fails := sim_launch_fails w; sim_clock := sim_clock w |}.

Definition sim_tick (ms : Z) (w : Sim) : Sim :=
  {| sim_next := sim_next w; sim_dead := sim_dead w;
     sim_close_fails := sim_close_fails w;
     sim_launch_fails := sim_launch_fails w; sim_clock := sim_clock w + ms |}.

Definition sim_failure (what : string) : JsThrown :=
  ThrownError (MkError PlainError (js what) None).

#[local] Instance sim_engine : Engine Sim := {|
  puppeteer_launch _ w :=
    if sim_launch_fails w then (Throw (sim_failure "Failed to launch the browser process"), w)
    else (Return (sim_next w), sim_fresh w);
  browser_isConnected b w := negb (bool_decide (b ∈ sim_dead w));
  browser_close b w :=
    if bool_decide (b ∈ sim_close_fails w)
    then (Throw (sim_failure "Protocol error: Target closed"), w)
    else (Return tt, sim_disconnect b w);
  browser_kill b w := (Return tt, sim_disconnect b w);
  browser_newPage b w := (Return (sim_next w), sim_fresh w);
  page_setDefaultTimeouts _ _ w := (Return tt, w);
  page_goto _ _ _ w :=
    (Return (Some {| status := 200; text := Return (js "<rss></rss>") |}), w);
  page_close _ w := (Return tt, w);
  timer_sleep ms w := sim_tick ms w;
  clock_now w := sim_clock w;
|}.

Definition sim_world : Sim :=
  {| sim_next := 0; sim_dead := []; sim_close_fails := [];
     sim_launch_fails := false; sim_clock := 0 |}.

Definition sim_ctx (w : Sim) : Ctx Sim :=
  {| world := w; trace := []; resolvers := 0 |}.


(** * More of the sources

    The rest of the files above, and the services the orchestrator
    assembles: [src/validators/LinkValidator.ts], [src/utils/DateParser.ts],
    [src/utils/UrlParser.ts], [src/services/ItemParser.ts]. *)

(** ** Title cleaner, continued *)

(** [titles.map(title => this.cleanTitle(title, options))] *)
Definition cleanTitles (titles : list JsValue) (options : option TitleCleanOptions)
    : list jsstring :=
  (λ title, cleanTitle title options) <$> titles.

(** ** Link validator ([src/validators/LinkValidator.ts]) *)

(** [/^magnet:/i.test(link)] *)
Definition isMagnetLink (link : jsstring) : bool :=
  starts_with_ci (js "magnet:") link.

(** [/^https?:\/\//i.test(link)] *)
Definition isHttpLink (link : jsstring) : bool := is_http_url link.

(** A [RegExp] used as [pattern.test(s)], without the [g] and [y] flags, so
    that the call has no memory: the function it computes, which may
    throw. *)
Definition TestPattern := jsstring → Completion bool.

(** [/^(https?:\/\/|magnet:)/i] *)
Definition LinkValidator_DEFAULT_PATTERN : TestPattern :=
  λ s, Return (is_http_url s || isMagnetLink s).

Definition validateLink (link : JsValue) (pattern : option TestPattern) : bool :=
  match link with
  | JsNonString => false
  | JsString [] => false
  | JsString link =>
      let trimmedLink := trim link in
      if Z.of_nat (length trimmedLink) =? 0 then false
      else
        let validationPattern := default LinkValidator_DEFAULT_PATTERN pattern in
        match validationPattern trimmedLink with
        | Return b => b
        | Throw _ => false
        end
  end.

Definition validateLinks (links : list jsstring) (pattern : option TestPattern)
    : list bool :=
  (λ link, validateLink (JsString link) pattern) <$> links.

Definition filterValidLinks (links : list jsstring) (pattern : option TestPattern)
    : list jsstring :=
  filter (λ link, validateLink (JsString link) pattern) links.

(** ** Link extractor, continued *)

Record LinksByType := {
  http : list jsstring;
  magnet : list jsstring;
  other : list jsstring;
}.

(** One turn of [for (const link of allLinks)] on the object
    [categorized]. *)
Definition categorize (categorized : LinksByType) (link : jsstring) : LinksByType :=
  if is_http_url link
  then {| http := http categorized ++ [link]; magnet := magnet categorized;
          other := other categorized |}
  else if isMagnetLink link
  then {| http := http categorized; magnet := magnet categorized ++ [link];
          other := other categorized |}
  else {| http := http categorized; magnet := magnet categorized;
          other := other categorized ++ [link] |}.

Section LinkExtractorByType.
Variable cheerio_anchor_hrefs : jsstring → Completion (list (option jsstring)).

Definition extractLinksByType (html : JsValue) : Completion LinksByType :=
  cbind (extractLinks cheerio_anchor_hrefs html) (λ allLinks,
    Return (foldl categorize {| http := []; magnet := []; other := [] |} allLinks)).

Definition extractHttpLinks (html : JsValue) : Completion (list jsstring) :=
  cbind (extractLinks cheerio_anchor_hrefs html) (λ allLinks,
    Return (filter (λ link, is_http_url link) allLinks)).

Definition extractMagnetLinks (html : JsValue) : Completion (list jsstring) :=
  cbind (extractLinks cheerio_anchor_hrefs html) (λ allLinks,
    Return (filter (λ link, isMagnetLink link) allLinks)).
End LinkExtractorByType.

(** ** Date parser ([src/utils/DateParser.ts]) *)

Section DateParser.
(** [new Date(text)]: the date the engine reads in the text, invalid
    ([None]) when it reads none; the source guards the call with a
    [try]. *)
Variable Date_new : jsstring → Completion JsDate.

(** The result is a [Date] or [undefined]. *)
Definition parseDate (dateString : JsValue) : option JsDate :=
  match dateString with
  | JsNonString => None
  | JsString [] => None
  | JsString dateString =>
      let trimmedDate := trim dateString in
      if Z.of_nat (length trimmedDate) =? 0 then None
      else
        match Date_new trimmedDate with
        | Return (Some time) => Some (Some time)
        | Return None => None
        | Throw _ => None
        end
  end.

(** [this.parseDate(dateString) ?? new Date()], [now] being what the clock
    reads. *)
Definition parseDateWithFallback (now : Z) (dateString : JsValue) : JsDate :=
  default (Some now) (parseDate dateString).

(** [DateParser.parse(dateString) !== undefined] *)
Definition isValidDate (dateString : JsValue) : bool :=
  bool_decide (parseDate dateString ≠ None).
End DateParser.

(** ** URL parser ([src/utils/UrlParser.ts]) *)

(** A [RegExp] used as [pattern.exec(s)], without the [g] and [y] flags:
    [null], or the array of the whole match followed by the capture groups,
    [undefined] for a group that took no part in the match. *)
Definition ExecPattern := jsstring → Completion (option (list (option jsstring))).

(** [\d] *)
Definition is_digit (c : N) : bool := ((48 <=? c) && (c <=? 57))%N.

(** The longest run of digits at the start: what [\d+] takes. *)
Fixpoint take_digits (s : jsstring) : jsstring :=
  match s with
  | c :: r => if is_digit c then c :: take_digits r else []
  | [] => []
  end.

(** [/[?&]p=(\d+)/] tried at the start of [s]: the digits captured. *)
Definition item_id_here (s : jsstring) : option jsstring :=
  match s with
  | c :: p :: e :: d =>
      if ((c =? 63) || (c =? 38))%N && (p =? 112)%N && (e =? 61)%N
      then match take_digits d with
           | [] => None
           | digits => Some digits
           end
      else None
  | _ => None
  end.

(** [/[?&]p=(\d+)/.exec(s)]: the leftmost position where the pattern
    matches. *)
Fixpoint exec_item_id (s : jsstring) : option (list (option jsstring)) :=
  match s with
  | [] => None
  | c :: r =>
      match item_id_here s with
      | Some digits => Some [Some (c :: 112%N :: 61%N :: digits); Some digits]
      | None => exec_item_id r
      end
  end.

Definition UrlParser_DEFAULT_PATTERN : ExecPattern :=
  λ url, Return (exec_item_id url).

Definition extractItemId (url : jsstring) (pattern : option ExecPattern)
    : option jsstring :=
  let regexPattern := default UrlParser_DEFAULT_PATTERN pattern in
  match regexPattern url with
  | Return (Some matched) =>
      match matched !! 1%nat with
      | Some (Some (c :: group)) => Some (c :: group)
      | _ => None
      end
  | Return None => None
  | Throw _ => None
  end.

(** ** Item validator, continued *)

(** [for (const item of items) this.validate(item)] *)
Fixpoint validateItems (items : list RssItem) : Completion unit :=
  match items with
  | [] => Return tt
  | item :: rest => cbind (validate item) (λ _, validateItems rest)
  end.

(** [try { this.validate(item); return true } catch { return false }] *)
Definition isValid (item : RssItem) : bool :=
  match validate item with
  | Return _ => true
  | Throw _ => false
  end.

(** ** Item assembler ([src/services/ItemParser.ts]) *)

(** The fields of the reader's configuration that the assembler reads. *)
Record ItemParserConfig := {
  titleSuffixPattern : option Pattern;
  titlePrefixPattern : option Pattern;
  itemIdPattern : option ExecPattern;
}.

(** [extractFirstValue]: the first value of an xml2js array, trimmed. *)
Definition extractFirstValue (value : option (list jsstring)) : option jsstring :=
  match value with
  | Some (firstValue :: _) => Some (trim firstValue)
  | _ => None
  end.

(** [a || b] on strings that may be [undefined]. *)
Definition or_else (a : option jsstring) (b : option jsstring) : option jsstring :=
  match truthy a with
  | Some s => Some s
  | None => b
  end.

Section ItemParser.
(** The four injected services, each of which may throw, and the
    configuration.  [extractMetadata] stands for the private method of that
    name: it reads the keys of the entry beyond the five standard fields,
    which [RawRssItem] does not hold, so what it returns is a parameter. *)
Variable linkExtractor : JsValue → Completion (list jsstring).
Variable titleCleaner : JsValue → option TitleCleanOptions → Completion jsstring.
Variable urlParser : jsstring → option ExecPattern → Completion (option jsstring).
Variable dateParser : JsValue → Completion (option JsDate).
Variable config : option ItemParserConfig.
Variable extractMetadata : RawRssItem → list (jsstring * list jsstring).

Definition missing_field (field : string) (feedUrl : jsstring)
    (itemTitle : jsstring) : Completion RssItem :=
  throwError (ParseError (Some feedUrl) (Some itemTitle))
    (js "Item is missing required field: " ++ js field) None.

(** The [try] block of [parseItem]. *)
Definition parseItem_try (rawItem : RawRssItem) (feedUrl : jsstring)
    : Completion RssItem :=
  match truthy (extractFirstValue (raw_title rawItem)) with
  | None => missing_field "title" feedUrl (js "Unknown")
  | Some rawTitle =>
      cbind (titleCleaner (JsString rawTitle)
               (Some {| suffixPattern := config ≫= titleSuffixPattern;
                        prefixPattern := config ≫= titlePrefixPattern |}))
        (λ title,
      match truthy (extractFirstValue (raw_link rawItem)) with
      | None => missing_field "link" feedUrl title
      | Some link =>
          match truthy (extractFirstValue (raw_pubDate rawItem)) with
          | None => missing_field "pubDate" feedUrl title
          | Some pubDateString =>
              cbind (dateParser (JsString pubDateString)) (λ parsed,
              match parsed with
              | None =>
                  throwError (ParseError (Some feedUrl) (Some title))
                    (js "Failed to parse publication date: " ++ pubDateString) None
              | Some publishedAt =>
                  let rawContent :=
                    default []
                      (or_else (extractFirstValue (raw_contentEncoded rawItem))
                         (or_else (extractFirstValue (raw_description rawItem))
                            (Some []))) in
                  cbind (linkExtractor (JsString rawContent)) (λ links,
                  cbind (urlParser link (config ≫= itemIdPattern)) (λ itemId,
                  let metadata := extractMetadata rawItem in
                  Return {| title := title; link := link;
                            publishedAt := publishedAt; links := links;
                            itemId := itemId;
                            rawContent :=
                              if 0 <? Z.of_nat (length rawContent)
                              then Some rawContent else None;
                            metadata :=
                              if 0 <? Z.of_nat (length metadata)
                              then Some metadata else None |}))
              end)
          end
      end)
  end.

(** The [catch] block of [parseItem]. *)
Definition parseItem_catch (rawItem : RawRssItem) (feedUrl : jsstring)
    (error : JsThrown) : Completion RssItem :=
  let wrapped :=
    throwError
      (ParseError (Some feedUrl)
         (Some (default (js "Unknown")
                  (truthy (extractFirstValue (raw_title rawItem))))))
      (js "Failed to parse item: " ++ errorMessage error) (errorCause error) in
  match error with
  | ThrownError e => if is_ParseError e then Throw error else wrapped
  | ThrownValue _ => wrapped
  end.

Definition parseItem (rawItem : RawRssItem) (feedUrl : jsstring)
    : Completion RssItem :=
  ccatch (parseItem_try rawItem feedUrl) (parseItem_catch rawItem feedUrl).
End ItemParser.

(** [ItemParser.createDefault(config)]: the assembler with the services of
    this package, none of which throws. *)
Section CreateDefault.
Variable cheerio_anchor_hrefs : jsstring → Completion (list (option jsstring)).
Variable Date_new : jsstring → Completion JsDate.
Variable config : option ItemParserConfig.
Variable extractMetadata : RawRssItem → list (jsstring * list jsstring).

Definition createDefault : RawRssItem → jsstring → Completion RssItem :=
  parseItem
    (extractLinks cheerio_anchor_hrefs)
    (λ title options, Return (cleanTitle title options))
    (λ url pattern, Return (extractItemId url pattern))
    (λ dateString, Return (parseDate Date_new dateString))
    config extractMetadata.
End CreateDefault.

(** ** Handle manager, continued *)

(** [manager.isConnected()] *)
Definition manager_isConnected {W} `{Engine W} (m : BrowserManager) (w : W) : bool :=
  match browser m with
  | None => false
  | Some b => browser_isConnected b w
  end.

(** ** Fetch orchestrator, continued ([src/services/FeedFetcher.ts]) *)

Section FeedFetcherUserAgent.
Context {W : Type} `{Engine W}.
Context {St : Type}.
Local Open Scope async_scope.

(** [page.setUserAgent(userAgent)], the one Puppeteer call of this file that
    the engine above does not have; the log has no entry for it. *)
Variable page_setUserAgent : Page → jsstring → W → Completion unit * W.

Definition setUserAgent (page : Page) (userAgent : jsstring) : M W St unit :=
  λ s c,
    let '(r, w') := page_setUserAgent page userAgent (world c) in
    (settle r, s,
     {| world := w'; trace := trace c; resolvers := resolvers c |}).

(** As in [fetchFeed], [browser] is a handle, so the test [!browser] cannot
    succeed.  The URL is not tested here. *)
Definition fetchFeedWithUserAgent (feedUrl : jsstring) (b : Browser)
    (userAgent : jsstring) (timeout : option Z) : M W St jsstring :=
  λ s c,
    let '(opened, s1, c1) := call (EvNewPage b) (browser_newPage b) s c in
    match opened with
    | Resolved page =>
        try_finally
          (try_catch
             (setUserAgent page userAgent ;;;
              let fetchTimeout := default DEFAULT_TIMEOUT timeout in
              fetch_page feedUrl page fetchTimeout)
             (fetch_catch feedUrl))
          (try_catch (call (EvPageClose page) (page_close page)) (λ _, ret tt))
          s1 c1
    | Rejected error => fetch_catch feedUrl error s1 c1
    | Pending => (Pending, s1, c1)
    end.
End FeedFetcherUserAgent.
(** * Specifications

    The definitions below say what the claims are about, in the words of
    the specification, and fix the sample inputs on which the model is
    run.  Nothing in the model refers to them. *)

(** ** First occurrences

    Both de-duplications of the sources (items by link, links by value)
    keep an element exactly when its key has not been met before. *)

Section FirstOccurrences.
Context {A : Type} (key : A → jsstring).

(** From the wording of the specification: the element at index [i]
    stays iff no element before it has the same key. *)
Definition first_occurrences (l : list A) : list A :=
  omap id (imap (λ i x, if decide (key x ∈ key <$> take i l)
                        then None else Some x) l).

Fixpoint keep_unseen (seen : gset jsstring) (l : list A) : list A :=
  match l with
  | [] => []
  | x :: r =>
      if decide (key x ∈ seen) then keep_unseen seen r
      else x :: keep_unseen ({[key x]} ∪ seen) r
  end.

End FirstOccurrences.

(** ** Link extraction *)

(** From the wording of the specification: the [href] of every anchor that
    has one, trimmed, empty values discarded, first occurrences kept. *)
Definition anchor_links (hrefs : list (option jsstring)) : list jsstring :=
  first_occurrences id (filter (λ s, s ≠ []) (trim <$> omap id hrefs)).


(** ** Collected failures *)

Section ParseItemsSpec.
Variable parseItem : RawRssItem → jsstring → Completion RssItem.

(** From the wording of the specification: the items of the entries that
    parse and validate, and the failures of those that do not, both in
    entry order. *)
Definition successes (rawItems : list RawRssItem) (feedUrl : jsstring)
    : list RssItem :=
  omap (λ rawItem,
          match parse_and_validate parseItem rawItem feedUrl with
          | Return item => Some item
          | Throw _ => None
          end) rawItems.

Definition failures (rawItems : list RawRssItem) (feedUrl : jsstring)
    : list JsError :=
  omap (λ rawItem,
          match parse_and_validate parseItem rawItem feedUrl with
          | Return _ => None
          | Throw error => Some (collected_error rawItem feedUrl error)
          end) rawItems.

End ParseItemsSpec.

(** ** Backoff *)

Section RetrySpec.
Context {W : Type} `{Engine W}.
Context {St T : Type}.

Variable this : RetryOptions.
Variable operation : M W St T.

(** The delay that follows a delay of [d]. *)
Definition next_delay (d : Z) : Z :=
  Z.min (d * backoffMultiplier this) (maxDelay this).

(** The context after [await this.delay(ms)]. *)
Definition after_sleep (ms : Z) (c : Ctx W) : Ctx W :=
  {| world := timer_sleep ms (world c); trace := trace c ++ [EvSleep ms];
     resolvers := resolvers c |}.

(** From the wording of the specification: [k] attempts in a row that
    fail, each followed by a sleep, the first of [d] milliseconds and each
    later one of the previous delay times the factor, capped.  The result
    is the state in which the next attempt starts. *)
Fixpoint failed_attempts (k : nat) (d : Z) (s : St) (c : Ctx W)
    : option (St * Ctx W) :=
  match k with
  | O => Some (s, c)
  | S k' =>
      match operation s c with
      | (Rejected _, s', c') => failed_attempts k' (next_delay d) s' (after_sleep d c')
      | _ => None
      end
  end.

End RetrySpec.

(** The operation with a counter of its runs added to the state. *)
Definition counted {W St T} (operation : M W St T) : M W (St * nat) T :=
  λ sn c,
    let '(r, s', c') := operation (fst sn) c in
    (r, (s', S (snd sn)), c').


(** ** Contexts and thrown values named in the statements *)

Section Contexts.
Context {W : Type} `{Engine W}.

(** The context after a call into the engine that left the world [w']. *)
Definition after_call (e : Event) (w' : W) (c : Ctx W) : Ctx W :=
  {| world := w'; trace := trace c ++ [e]; resolvers := resolvers c |}.

End Contexts.

Definition release_uninitialized : JsThrown :=
  ThrownError (MkError (BrowserError (js "release"))
                 (js "Browser pool is not initialized") None).

Definition release_untracked : JsThrown :=
  ThrownError (MkError (BrowserError (js "release"))
                 (js "Browser is not from this pool or was already released") None).

Definition reader_uninitialized : JsThrown :=
  ThrownError (MkError (BrowserError (js "fetchAndParse"))
                 (js "Browser pool not initialized. Call initialize() first.") None).

(** What [fetchFeed] throws for a URL that fails its first two tests. *)
Definition scheme_error (feedUrl : jsstring) : JsThrown :=
  ThrownError
    (MkError (FeedFetchError feedUrl)
       (if bool_decide (feedUrl = []) then js "Feed URL is required"
        else js "Invalid feed URL: must use HTTP or HTTPS protocol")
       None).

(** The log of a call whose every attempt acquires handle [b], fails and
    releases it: [attempts] attempts, a sleep between two of them, the first
    of [d] milliseconds. *)
Fixpoint scheme_failure_events (this : RetryOptions) (b : Browser)
    (attempts : nat) (d : Z) : list Event :=
  match attempts with
  | O => []
  | S n =>
      EvAcquired b :: EvReleased b ::
      match n with
      | O => []
      | S _ => EvSleep d :: scheme_failure_events this b n (next_delay this d)
      end
  end.


(** ** Sample inputs and runs on the scripted engine *)

Definition sample_hrefs : list (option jsstring) :=
  [ Some (js " https://example.com/download ");
    Some (js "magnet:?xt=urn:btih:12345");
    None;
    Some (js "   ");
    Some (js "https://example.com/download") ].

(** The malformed input of the repository's test
    ([tests/unit/LinkExtractor.test.ts], "should handle malformed HTML
    gracefully"): an anchor followed by a paragraph that is never closed.
    Code unit 34 is the double quote. *)
Definition malformed_html : jsstring :=
  js "<a href=" ++ [34%N] ++ js "test" ++ [34%N] ++ js ">Link</a><p>Unclosed tag".

(** Cheerio on that input, as the same test expects it: it recovers from
    the unclosed tag and finds the anchor. *)
Definition recovering_cheerio : jsstring → Completion (list (option jsstring)) :=
  λ html,
    if bool_decide (html = malformed_html) then Return [Some (js "test")]
    else Return [].

(** A small assembler for running the loop: the first value of [title],
    [link] and [pubDate], the date being valid iff it is not ["bad"]. *)
Definition sample_parseItem (rawItem : RawRssItem) (feedUrl : jsstring)
    : Completion RssItem :=
  match first (raw_title rawItem), first (raw_link rawItem),
        first (raw_pubDate rawItem) with
  | Some t, Some l, Some d =>
      if bool_decide (d = js "bad")
      then throwError (ParseError (Some feedUrl) (Some t))
             (js "Failed to parse publication date: " ++ d) None
      else Return {| title := t; link := l; publishedAt := Some 1703440800000;
                     links := []; itemId := None; rawContent := None;
                     metadata := None |}
  | _, _, _ =>
      throwError (ParseError (Some feedUrl) (Some (js "Unknown")))
        (js "Item is missing a required field") None
  end.

Definition sample_entry (t l d : string) : RawRssItem :=
  {| raw_title := Some [js t]; raw_link := Some [js l];
     raw_pubDate := Some [js d]; raw_contentEncoded := None;
     raw_description := None |}.

Definition sample_entries : list RawRssItem :=
  [ sample_entry "one" "https://example.com/?p=1" "Sun, 24 Dec 2023 18:00:00 +0000";
    sample_entry "two" "https://example.com/?p=2" "bad";
    sample_entry "three" "https://example.com/?p=3" "Sun, 24 Dec 2023 18:00:00 +0000" ].

(** An operation that fails as many times as its state says, then returns
    the number of the runs it made. *)
Definition flaky : M Sim (nat * nat) nat :=
  λ s c,
    match fst s with
    | O => (Resolved (snd s), (O, S (snd s)), c)
    | S n => (Rejected (ThrownValue (js "boom")), (n, S (snd s)), c)
    end.

Definition retry_defaults : RetryOptions :=
  newRetryHandler {| arg_initialDelay := None; arg_maxDelay := None;
                     arg_backoffMultiplier := None |}.

(** A manager holding browser 0, whose graceful close throws. *)
Definition stuck_manager : BrowserManager :=
  {| browser := Some 0%nat; launching := false;
     options := {| opt_headless := Some true; opt_args := None;
                   opt_disableSandbox := Some false |} |}.

Definition stuck_world : Sim :=
  {| sim_next := 1; sim_dead := []; sim_close_fails := [0%nat];
     sim_launch_fails := false; sim_clock := 0 |}.

(** What [new BrowserPool({ poolSize: size })] builds when [size >= 1]. *)
Definition sim_pool (size : Z) : BrowserPool :=
  {| managers := []; availableBrowsers := []; busyBrowsers := ∅;
     initialized := false; waitQueue := []; poolSize := size;
     disableSandbox := false |}.

Definition exec {A} (m : M Sim BrowserPool A) (pc : BrowserPool * Ctx Sim)
    : BrowserPool * Ctx Sim :=
  let '(_, p, c) := m pc.1 pc.2 in (p, c).

(** A pool of one handle after [initialize]. *)
Definition ready_pool : BrowserPool * Ctx Sim :=
  exec initialize (sim_pool 1, sim_ctx sim_world).

(** The same pool after one caller has acquired the handle. *)
Definition busy_pool : BrowserPool * Ctx Sim := exec acquire ready_pool.

(** The same pool after a second caller has asked for a handle and waits. *)
Definition exhausted_pool : BrowserPool * Ctx Sim := exec acquire busy_pool.

Definition sample_reader : RssReader :=
  {| config := mergeConfig None; browserPool := sim_pool 2;
     retryHandler := retry_defaults |}.

Definition no_xml : jsstring → Completion FeedData :=
  λ _, Throw (sim_failure "Non-whitespace before first tag").

(** A reader on the scripted engine with its pool of two handles ready. *)
Definition ready_reader_pool : BrowserPool * Ctx Sim :=
  exec initialize (sim_pool 2, sim_ctx sim_world).

Definition ftp_url : jsstring := js "ftp://example.com/feed.xml".

(** ** Words *)

(** [s.split(/\s/)]: the pieces between single whitespace code units. *)
Fixpoint split_ws (s : jsstring) : list jsstring :=
  match s with
  | [] => [[]]
  | c :: r =>
      if is_ws c then [] :: split_ws r
      else match split_ws r with
           | w :: ws => (c :: w) :: ws
           | [] => [[c]]
           end
  end.

(** The words of a string: its maximal runs of code units that are not
    whitespace. *)
Definition words (s : jsstring) : list jsstring :=
  filter (λ w, w ≠ []) (split_ws s).

(** [ws.join(' ')] *)
Fixpoint join_words (ws : list jsstring) : jsstring :=
  match ws with
  | [] => []
  | w :: rest =>
      match rest with
      | [] => w
      | _ :: _ => w ++ 32%N :: join_words rest
      end
  end.

(** What follows the first word. *)
Definition tail_words (ws : list jsstring) : jsstring :=
  match ws with
  | [] => []
  | _ :: _ => 32%N :: join_words ws
  end.

(** ** The backoff schedule *)



(** ** Thrown values and sample pools named in the statements *)

Definition acquire_uninitialized : JsThrown :=
  ThrownError (MkError (BrowserError (js "acquire"))
                 (js "Browser pool is not initialized. Call initialize() first.")
                 None).

Definition acquire_exhausted (maxRetries : Z) : JsThrown :=
  ThrownError (MkError (BrowserError (js "acquire"))
                 (js "Failed to acquire browser after " ++ js (pretty maxRetries)
                    ++ js " retry attempts") None).




(** The pool [p] with nothing in it, as [cleanup] leaves it. *)
Definition emptied (p : BrowserPool) : BrowserPool :=
  {| managers := []; availableBrowsers := []; busyBrowsers := ∅;
     initialized := false; waitQueue := []; poolSize := poolSize p;
     disableSandbox := disableSandbox p |}.


(** A document reader for running the orchestrator: whatever the text, an
    RSS channel with the three sample entries. *)
Definition sample_xml : jsstring → Completion FeedData :=
  λ _, Return {| rss := Some (Some [ {| channel_title := Some [js "Sample feed"];
                                        channel_description := None;
                                        channel_item := Some sample_entries |} ]);
                 feed := None |}.




(** * Properties *)

Ltac unfold_async :=
  unfold bind, ret, reject, rejectWith, suspend, try_catch, try_finally,
    get, put, modify, emit, call, isConnected, delay in *.

(** ** First occurrences *)

Section FirstOccurrencesProperties.
Context {A : Type} (key : A → jsstring).

Lemma keep_unseen_prefix (pre : list A) (seen : gset jsstring) (l : list A) :
  (∀ k, k ∈ seen ↔ k ∈ key <$> pre) →
  keep_unseen key seen l =
  omap id (imap (λ i x, if decide (key x ∈ key <$> (pre ++ take i l))
                        then None else Some x) l).
Proof.
  revert pre seen. induction l as [|x r IH]; intros pre seen Hseen; [done|].
  cbn [keep_unseen imap omap take]. rewrite app_nil_r.
  destruct (decide (key x ∈ seen)) as [Hin|Hnin].
  - rewrite decide_True by (by apply Hseen). simpl.
    rewrite (IH (pre ++ [x]) seen).
    + f_equal. apply imap_ext; intros i y _; simpl. by rewrite <- app_assoc.
    + intros k. rewrite fmap_app, elem_of_app, <- Hseen. simpl.
      rewrite list_elem_of_singleton. split; [tauto|]. by intros [?| ->].
  - rewrite decide_False by (by rewrite <- Hseen). simpl. f_equal.
    rewrite (IH (pre ++ [x]) ({[key x]} ∪ seen)).
    + f_equal. apply imap_ext; intros i y _; simpl. by rewrite <- app_assoc.
    + intros k. rewrite fmap_app, elem_of_app, <- Hseen. simpl.
      rewrite list_elem_of_singleton, elem_of_union, elem_of_singleton. tauto.
Qed.

Lemma keep_unseen_first_occurrences (l : list A) :
  keep_unseen key ∅ l = first_occurrences key l.
Proof. apply (keep_unseen_prefix []). intros k. set_solver. Qed.

Lemma keep_unseen_sublist seen l : sublist (keep_unseen key seen l) l.
Proof.
  revert seen. induction l as [|x r IH]; intros seen; simpl; [done|].
  case_decide; [apply sublist_cons | apply sublist_skip]; apply IH.
Qed.

Lemma keep_unseen_fresh seen l x :
  x ∈ keep_unseen key seen l → key x ∉ seen.
Proof.
  revert seen. induction l as [|y r IH]; intros seen; simpl.
  - by intros ?%elem_of_nil.
  - case_decide as Hy.
    + apply IH.
    + intros [->|Hx%IH]%elem_of_cons; set_solver.
Qed.

Lemma keep_unseen_NoDup seen l : NoDup (key <$> keep_unseen key seen l).
Proof.
  revert seen. induction l as [|y r IH]; intros seen; simpl.
  - constructor.
  - case_decide as Hy; [apply IH|].
    rewrite fmap_cons. constructor; [|apply IH].
    intros (z & Hk & Hz%keep_unseen_fresh)%list_elem_of_fmap.
    set_solver.
Qed.

Lemma keep_unseen_covers seen l x :
  x ∈ l → key x ∈ seen ∨ key x ∈ key <$> keep_unseen key seen l.
Proof.
  revert seen. induction l as [|y r IH]; intros seen; simpl.
  - by intros ?%elem_of_nil.
  - intros [->|Hx]%elem_of_cons; case_decide as Hy; try (by left).
    + right. rewrite fmap_cons. apply elem_of_cons; by left.
    + by apply IH.
    + destruct (IH ({[key y]} ∪ seen) Hx) as [Hs|Hs].
      * apply elem_of_union in Hs as [->%elem_of_singleton|Hs]; [|by left].
        right. rewrite fmap_cons. apply elem_of_cons; by left.
      * right. rewrite fmap_cons. apply elem_of_cons; by right.
Qed.
End FirstOccurrencesProperties.

(** ** C7: de-duplication by link *)

Lemma deduplicate_loop_keep_unseen seen deduplicated items :
  deduplicate_loop seen deduplicated items =
  deduplicated ++ keep_unseen link seen items.
Proof.
  revert seen deduplicated.
  induction items as [|item rest IH]; intros seen deduplicated; simpl.
  - by rewrite app_nil_r.
  - case_decide; rewrite IH; [done|]. by rewrite <- app_assoc.
Qed.

(** C7. For every sequence of items, [deduplicateItems] keeps exactly the
    first occurrence of each distinct link ([first_occurrences]): the result
    is a subsequence of the input in its original order, no link occurs
    twice in it, every link of the input still occurs in it, and two items
    sharing one link collapse to the first of them. *)
Theorem deduplicateItems_keeps_first_occurrences (items : list RssItem) :
  deduplicateItems items = first_occurrences link items
  ∧ sublist (deduplicateItems items) items
  ∧ NoDup (link <$> deduplicateItems items)
  ∧ (∀ item, item ∈ items → link item ∈ link <$> deduplicateItems items)
  ∧ (∀ a b, link a = link b → deduplicateItems [a; b] = [a]).
Proof.
  unfold deduplicateItems.
  split_and!.
  - rewrite deduplicate_loop_keep_unseen. simpl.
    apply keep_unseen_first_occurrences.
  - rewrite deduplicate_loop_keep_unseen. apply keep_unseen_sublist.
  - rewrite deduplicate_loop_keep_unseen. apply keep_unseen_NoDup.
  - intros item Hin. rewrite deduplicate_loop_keep_unseen. simpl.
    destruct (keep_unseen_covers link ∅ items item Hin) as [Hs|Hs]; [|done].
    by apply not_elem_of_empty in Hs.
  - intros a b Hab. simpl.
    rewrite decide_False by apply not_elem_of_empty.
    rewrite decide_True by (rewrite Hab; set_solver). done.
Qed.

(** ** C9: link extraction *)

Lemma filter_unseen_keep_unseen seen links :
  filter_unseen seen links = keep_unseen id seen links.
Proof.
  revert seen. induction links as [|l r IH]; intros seen; simpl; [done|].
  case_decide; by rewrite IH.
Qed.

Lemma keep_href_Some (h : jsstring) :
  keep_href (Some h) = if decide (trim h ≠ []) then Some (trim h) else None.
Proof.
  destruct h as [|c h]; [done|]. cbn [keep_href].
  destruct (trim (c :: h)) as [|c' t]; [done|].
  rewrite decide_True by done. done.
Qed.

Lemma keep_href_trimmed (hrefs : list (option jsstring)) :
  omap keep_href hrefs = filter (λ s, s ≠ []) (trim <$> omap id hrefs).
Proof.
  induction hrefs as [|[h|] r IH]; [done| |done].
  cbn [omap list_omap fmap list_fmap id]. rewrite filter_cons, keep_href_Some.
  case_decide; by rewrite IH.
Qed.

(** C9 (as amended). Whatever Cheerio does, [extractLinks] returns and does
    not throw; the value is the trimmed [href] of every anchor Cheerio
    finds, empty ones discarded, duplicates removed in first-seen order; it
    is the empty array when Cheerio throws and when the input is empty or
    not a string.  Two identical links and a distinct one give two entries
    in their original order. *)
Theorem extractLinks_first_seen
    (cheerio : jsstring → Completion (list (option jsstring))) (html : JsValue) :
  extractLinks cheerio html =
    Return (match html with
            | JsString (c :: h) =>
                match cheerio (c :: h) with
                | Return hrefs => anchor_links hrefs
                | Throw _ => []
                end
            | _ => []
            end)
  ∧ extractLinks (λ _, Return sample_hrefs) (JsString (js "<a>"))
    = Return [js "https://example.com/download"; js "magnet:?xt=urn:btih:12345"].
Proof.
  split.
  - destruct html as [[|c h]|]; simpl; try done.
    destruct (cheerio (c :: h)) as [hrefs|t]; simpl; [|done].
    unfold anchor_links.
    by rewrite filter_unseen_keep_unseen, keep_unseen_first_occurrences,
      keep_href_trimmed.
  - vm_compute. reflexivity.
Qed.

(** C9 as stated fails on malformed HTML from which Cheerio recovers: the
    links it finds are returned, and the result is not empty. *)
Lemma extractLinks_malformed_counterexample :
  extractLinks recovering_cheerio (JsString malformed_html) = Return [js "test"]
  ∧ [js "test"] ≠ ([] : list jsstring).
Proof. split; [vm_compute; reflexivity|discriminate]. Qed.

(** ** C8: title cleaning *)

Lemma trimEnd_cons_keep c s :
  is_ws c = false → trimEnd (c :: s) = c :: trimEnd s.
Proof. intros Hc. simpl. rewrite Hc. by destruct (trimEnd s). Qed.

Lemma trimStart_collapse b s :
  trimStart (replace_ws_runs b s) = replace_ws_runs false (trimStart s).
Proof.
  revert b. induction s as [|c r IH]; intros b; [done|].
  simpl. destruct (is_ws c) eqn:Hc.
  - destruct b; simpl; apply IH.
  - simpl. by rewrite Hc.
Qed.

Lemma replace_ws_runs_nil b s :
  replace_ws_runs b s = [] → forallb is_ws s = true.
Proof.
  revert b. induction s as [|c r IH]; intros b; [done|].
  simpl. destruct (is_ws c); [|done]. destruct b; [|done]. apply IH.
Qed.

Lemma trimEnd_all_ws s : forallb is_ws (trimEnd s) = true → trimEnd s = [].
Proof.
  induction s as [|c r IH]; [done|]. simpl.
  destruct (trimEnd r) as [|c' r'] eqn:Hr.
  - destruct (is_ws c) eqn:Hc; [done|]. simpl. by rewrite Hc.
  - intros Hall. simpl in Hall.
    apply andb_prop in Hall as [_ Hall]. by specialize (IH Hall).
Qed.

Lemma trimEnd_collapse b s :
  trimEnd (replace_ws_runs b s) = replace_ws_runs b (trimEnd s).
Proof.
  revert b. induction s as [|c r IH]; intros b; [done|].
  destruct (is_ws c) eqn:Hc.
  - assert (Hstep : replace_ws_runs b (c :: r) =
              if b then replace_ws_runs true r else 32%N :: replace_ws_runs true r)
      by (simpl; by rewrite Hc).
    rewrite Hstep. cbn [trimEnd]. rewrite Hc.
    destruct (trimEnd r) as [|c' r'] eqn:Hr.
    + destruct b; rewrite ?IH; [done|].
      cbn [trimEnd]. rewrite IH. done.
    + destruct b.
      * rewrite IH. simpl. by rewrite Hc.
      * cbn [trimEnd]. rewrite IH.
        destruct (replace_ws_runs true (c' :: r')) as [|d t] eqn:Hd.
        { apply replace_ws_runs_nil in Hd. rewrite <- Hr in Hd.
          apply trimEnd_all_ws in Hd. congruence. }
        rewrite <- Hd. simpl. by rewrite Hc.
  - rewrite trimEnd_cons_keep by done. simpl. rewrite Hc.
    rewrite trimEnd_cons_keep by done. by rewrite IH.
Qed.

Lemma trim_collapse_ws s : trim (collapse_ws s) = collapse_ws (trim s).
Proof.
  unfold trim, collapse_ws. by rewrite trimStart_collapse, trimEnd_collapse.
Qed.

Lemma replace_ws_runs_idemp b s :
  replace_ws_runs b (replace_ws_runs b s) = replace_ws_runs b s.
Proof.
  revert b. induction s as [|c r IH]; intros b; [done|].
  simpl. destruct (is_ws c) eqn:Hc.
  - destruct b; [apply IH|]. simpl. by rewrite IH.
  - simpl. rewrite Hc. by rewrite IH.
Qed.

Lemma trimEnd_idemp s : trimEnd (trimEnd s) = trimEnd s.
Proof.
  induction s as [|c r IH]; [done|]. simpl.
  destruct (trimEnd r) as [|c' r'] eqn:Hr.
  - destruct (is_ws c) eqn:Hc; [done|]. simpl. by rewrite Hc.
  - cbn [trimEnd]. cbn [trimEnd] in IH. by rewrite IH.
Qed.

Lemma trimStart_fixed s :
  trimStart (trimEnd (trimStart s)) = trimEnd (trimStart s).
Proof.
  induction s as [|c r IH]; [done|]. simpl.
  destruct (is_ws c) eqn:Hc; [done|].
  rewrite trimEnd_cons_keep by done. simpl. by rewrite Hc.
Qed.

Lemma trim_idemp s : trim (trim s) = trim s.
Proof. unfold trim. by rewrite trimStart_fixed, trimEnd_idemp. Qed.

(** C8. [cleanTitle] removes the prefix pattern, then the suffix pattern,
    then collapses every whitespace run to one space and trims both ends
    (the source trims first and collapses second; the two orders agree); a
    pattern that throws leaves the title as it stood; the result is in
    normal form (trimming or collapsing it again changes nothing); input
    that is empty or not a string gives the empty string; and the sample
    title with runs of spaces, a newline and a tab is cleaned as stated. *)
Theorem cleanTitle_normalises (title : JsValue) (options : option TitleCleanOptions) :
  cleanTitle title options =
    match title with
    | JsString (c :: t) =>
        trim (collapse_ws
                (removePattern (options ≫= suffixPattern)
                   (removePattern (options ≫= prefixPattern) (c :: t))))
    | _ => []
    end
  ∧ (∀ (p : Pattern) (s : jsstring),
        removePattern (Some p) s =
          match p s with Return s' => s' | Throw _ => s end)
  ∧ (∀ s : jsstring, removePattern None s = s)
  ∧ trim (cleanTitle title options) = cleanTitle title options
  ∧ collapse_ws (cleanTitle title options) = cleanTitle title options
  ∧ cleanTitle (JsString (js "Sample    Title" ++ [10; 9]%N ++ js "with")) None
    = js "Sample Title with".
Proof.
  split_and!; try done.
  - destruct title as [[|c t]|]; try done. simpl. by rewrite trim_collapse_ws.
  - destruct title as [[|c t]|]; try done.
    unfold cleanTitle. rewrite <- trim_collapse_ws. apply trim_idemp.
  - destruct title as [[|c t]|]; try done.
    unfold cleanTitle, collapse_ws. apply replace_ws_runs_idemp.
Qed.

(** ** C2: per-entry failures are collected *)

Section ParseItemsProperties.
Variable parseItem : RawRssItem → jsstring → Completion RssItem.

Lemma parseItems_loop rawItems feedUrl items errors :
  foldl (parseItems_step parseItem feedUrl) (items, errors) rawItems =
  (items ++ successes parseItem rawItems feedUrl, errors ++ failures parseItem rawItems feedUrl).
Proof.
  revert items errors.
  induction rawItems as [|rawItem rest IH]; intros items errors.
  - simpl. by rewrite !app_nil_r.
  - cbn [foldl]. unfold parseItems_step at 2.
    unfold successes, failures. cbn [omap list_omap].
    destruct (parse_and_validate parseItem rawItem feedUrl) as [item|error];
      rewrite IH; unfold successes, failures; by rewrite <- app_assoc.
Qed.

Lemma successes_failures_length rawItems feedUrl :
  (length (successes parseItem rawItems feedUrl) + length (failures parseItem rawItems feedUrl)
   = length rawItems)%nat.
Proof.
  unfold successes, failures.
  induction rawItems as [|rawItem rest IH]; [done|]. cbn [omap list_omap].
  destruct (parse_and_validate parseItem rawItem feedUrl); simpl; lia.
Qed.

(** C2. Every entry is processed, and ends either among the items or
    among the collected failures.  If at least one entry succeeds the
    result is exactly the successful items, in entry order; if the list is
    non-empty and every entry fails, the failure collected first, which is
    that of the first entry, is thrown; an empty list gives an empty
    result. *)
Theorem parseItems_collects_failures (rawItems : list RawRssItem)
    (feedUrl : jsstring) :
  (length (successes parseItem rawItems feedUrl) + length (failures parseItem rawItems feedUrl)
   = length rawItems)%nat
  ∧ (successes parseItem rawItems feedUrl ≠ [] →
     parseItems parseItem rawItems feedUrl = Return (successes parseItem rawItems feedUrl))
  ∧ (rawItems ≠ [] → successes parseItem rawItems feedUrl = [] →
     ∃ rawItem rest error,
       rawItems = rawItem :: rest
       ∧ parse_and_validate parseItem rawItem feedUrl = Throw error
       ∧ head (failures parseItem rawItems feedUrl)
         = Some (collected_error rawItem feedUrl error)
       ∧ parseItems parseItem rawItems feedUrl
         = Throw (ThrownError (collected_error rawItem feedUrl error)))
  ∧ (rawItems = [] → parseItems parseItem rawItems feedUrl = Return []).
Proof.
  split_and!.
  - apply successes_failures_length.
  - intros Hok. unfold parseItems. rewrite parseItems_loop. simpl.
    destruct (successes parseItem rawItems feedUrl); done.
  - intros Hne Hok. destruct rawItems as [|rawItem rest]; [done|].
    unfold parseItems. rewrite parseItems_loop, Hok. clear Hne. revert Hok.
    unfold successes, failures. cbn [omap list_omap].
    destruct (parse_and_validate parseItem rawItem feedUrl) as [item|error] eqn:Hp;
      [done|].
    intros _. exists rawItem, rest, error. simpl.
    split_and!; done.
  - intros ->. done.
Qed.
End ParseItemsProperties.

(** Three entries, the second with an unparseable date: two items. *)
Lemma parseItems_collects_failures_witness :
  successes sample_parseItem sample_entries (js "https://example.com/feed") ≠ []
  ∧ parseItems sample_parseItem sample_entries (js "https://example.com/feed")
    = Return (successes sample_parseItem sample_entries (js "https://example.com/feed"))
  ∧ length (successes sample_parseItem sample_entries (js "https://example.com/feed")) = 2%nat.
Proof.
  assert (Hok : successes sample_parseItem sample_entries
                  (js "https://example.com/feed") ≠ [])
    by (vm_compute; discriminate).
  split; [exact Hok|]. split.
  - exact (proj1 (proj2 (parseItems_collects_failures sample_parseItem
                           sample_entries (js "https://example.com/feed"))) Hok).
  - vm_compute. reflexivity.
Defined.

(** ** C5: retry with backoff *)

Section RetryProperties.
Context {W : Type} `{Engine W}.
Context {St T : Type}.

Variable this : RetryOptions.
Variable operation : M W St T.
Variable maxAttempts : Z.

Lemma retry_loop_settles k :
  ∀ iterations attempt d lastError s c s1 c1 r s2 c2,
    (k < iterations)%nat →
    attempt + Z.of_nat k ≤ maxAttempts →
    failed_attempts this operation k d s c = Some (s1, c1) →
    operation s1 c1 = (r, s2, c2) →
    retry_loop this operation maxAttempts iterations attempt d lastError s c =
      match r with
      | Rejected e =>
          if attempt + Z.of_nat k =? maxAttempts
          then (Rejected (ThrownError (asError e)), s2, c2)
          else retry_loop this operation maxAttempts (iterations - S k)
                 (attempt + Z.of_nat (S k)) (next_delay this (Nat.iter k (next_delay this) d))
                 (Some (asError e)) s2 (after_sleep (Nat.iter k (next_delay this) d) c2)
      | _ => (r, s2, c2)
      end.
Proof.
  induction k as [|k IH];
    intros iterations attempt d lastError s c s1 c1 r s2 c2 Hk Hle Hfail Hop.
  - simpl in Hfail. injection Hfail as <- <-.
    destruct iterations as [|iterations]; [lia|].
    cbn [retry_loop]. rewrite (proj2 (Z.leb_le _ _)) by lia.
    unfold try_catch. rewrite Hop. rewrite Z.add_0_r.
    destruct r as [v|e|]; [done| |done].
    destruct (attempt =? maxAttempts); [done|].
    unfold bind, delay. simpl. rewrite Nat.sub_0_r.
    by replace (attempt + 1) with (attempt + Z.pos 1) by lia.
  - cbn [failed_attempts] in Hfail.
    destruct (operation s c) as [[r0 s0] c0] eqn:Hop0.
    destruct r0 as [|e0|]; [done| |done].
    destruct iterations as [|iterations]; [lia|].
    cbn [retry_loop]. rewrite (proj2 (Z.leb_le _ _)) by lia.
    unfold try_catch at 1. rewrite Hop0.
    rewrite (proj2 (Z.eqb_neq _ _)) by lia.
    unfold bind at 1, delay at 1.
    fold (after_sleep d c0). fold (next_delay this d).
    rewrite (IH iterations (attempt + 1) (next_delay this d) (Some (asError e0))
               s0 (after_sleep d c0) s1 c1 r s2 c2) by (done || lia).
    destruct r as [v|e|]; [done| |done].
    replace (attempt + 1 + Z.of_nat k) with (attempt + Z.of_nat (S k)) by lia.
    destruct (attempt + Z.of_nat (S k) =? maxAttempts); [done|].
    rewrite <- Nat.iter_succ_r. simpl Nat.sub.
    f_equal. lia.
Qed.

(** The attempts never stop in the middle: some attempt among the first
    [maxAttempts] resolves, or stays pending, or is the last and fails. *)
Lemma failed_attempts_end (n : nat) :
  ∀ d s c,
    ∃ k s1 c1 r s2 c2,
      (k ≤ n)%nat
      ∧ failed_attempts this operation k d s c = Some (s1, c1)
      ∧ operation s1 c1 = (r, s2, c2)
      ∧ ((∃ e, r = Rejected e) → k = n).
Proof.
  induction n as [|n IH]; intros d s c.
  - destruct (operation s c) as [[r s2] c2] eqn:Hop.
    exists 0%nat, s, c, r, s2, c2. split_and!; done.
  - destruct (operation s c) as [[r s2] c2] eqn:Hop.
    destruct r as [v|e|].
    + exists 0%nat, s, c, (Resolved v), s2, c2.
      split_and!; [lia|done|done|]. by intros [? ?].
    + destruct (IH (next_delay this d) s2 (after_sleep d c2))
        as (k & s1 & c1 & r & s3 & c3 & Hk & Hf & Ho & Hr).
      exists (S k), s1, c1, r, s3, c3.
      split_and!; [lia| |done|].
      * simpl. by rewrite Hop.
      * intros He. by rewrite Hr.
    + exists 0%nat, s, c, Pending, s2, c2.
      split_and!; [lia|done|done|]. by intros [? ?].
Qed.
End RetryProperties.

Section RetryCount.
Context {W : Type} `{Engine W}.
Context {St T : Type}.

Variable this : RetryOptions.
Variable operation : M W St T.
Variable maxAttempts : Z.

Lemma retry_loop_count iterations :
  ∀ attempt d lastError s n c,
    Z.of_nat iterations = maxAttempts - attempt + 1 →
    let '(_, sn, _) :=
      retry_loop this (counted operation) maxAttempts iterations attempt d
        lastError (s, n) c in
    (snd sn ≤ n + iterations)%nat ∧ ((0 < iterations)%nat → (n < snd sn)%nat).
Proof.
  induction iterations as [|iterations IH]; intros attempt d lastError s n c Hit.
  - simpl. destruct lastError; simpl; lia.
  - cbn [retry_loop]. rewrite (proj2 (Z.leb_le _ _)) by lia.
    unfold try_catch, counted at 1. simpl.
    destruct (operation s c) as [[r s'] c'].
    destruct r as [v|e|]; simpl; [lia| |lia].
    destruct (attempt =? maxAttempts) eqn:Hlast; simpl; [lia|].
    unfold bind, delay.
    specialize (IH (attempt + 1)
                  (Z.min (d * backoffMultiplier this) (maxDelay this))
                  (Some (asError e)) s' (S n)
                  {| world := timer_sleep d (world c');
                     trace := trace c' ++ [EvSleep d];
                     resolvers := resolvers c' |}).
    destruct (retry_loop _ _ _ _ _ _ _ _ _) as [[r2 sn2] c2].
    apply Z.eqb_neq in Hlast. destruct IH as [IH1 IH2]; [lia|]. lia.
Qed.
End RetryCount.

(** C5 (as amended). With at least one attempt allowed, the call consists
    of [k] failed attempts, each followed by a sleep ([failed_attempts]: the
    first sleep is the initial delay, each later one the previous delay
    times the factor, capped at the maximum), and one more attempt,
    [k + 1 <= maxAttempts] in all; a failed attempt ends the call only if it
    is the last one allowed, and no sleep follows it.  The call returns what
    that attempt returns; when it fails, its error is thrown again, as it is
    if it is an [Error] instance, and wrapped in [new Error(String(value))]
    otherwise.  The operation runs at least once and at most [maxAttempts]
    times.  With [maxAttempts < 1] the call throws at once and leaves the
    state, and so the operation, untouched. *)
Theorem executeWithRetry_backoff {W : Type} `{Engine W} {St T : Type}
    (this : RetryOptions) (operation : M W St T) (maxAttempts : Z)
    (s : St) (c : Ctx W) :
  (1 ≤ maxAttempts →
     (∃ k s1 c1 r s2 c2,
         Z.of_nat k < maxAttempts
         ∧ failed_attempts this operation k (initialDelay this) s c = Some (s1, c1)
         ∧ operation s1 c1 = (r, s2, c2)
         ∧ ((∃ e, r = Rejected e) → Z.of_nat (S k) = maxAttempts)
         ∧ executeWithRetry this operation maxAttempts s c =
             (match r with
              | Rejected e => Rejected (ThrownError (asError e))
              | _ => r
              end, s2, c2))
     ∧ (let '(_, sn, _) :=
          executeWithRetry this (counted operation) maxAttempts (s, 0%nat) c in
        (1 ≤ snd sn ≤ Z.to_nat maxAttempts)%nat))
  ∧ (∀ e, asError (ThrownError e) = e)
  ∧ (∀ shown, asError (ThrownValue shown) = MkError PlainError shown None)
  ∧ (maxAttempts < 1 →
       executeWithRetry this operation maxAttempts s c =
         (Rejected (ThrownError
                      (MkError PlainError (js "maxAttempts must be at least 1") None)),
          s, c)).
Proof.
  split_and!; try done.
  - intros Hmax. split.
    + destruct (failed_attempts_end this operation (Z.to_nat maxAttempts - 1)
                  (initialDelay this) s c)
        as (k & s1 & c1 & r & s2 & c2 & Hk & Hfail & Hop & Hlast).
      exists k, s1, c1, r, s2, c2. split_and!; [lia|done|done| |].
      * intros He. specialize (Hlast He). lia.
      * unfold executeWithRetry. rewrite (proj2 (Z.ltb_ge _ _)) by lia.
        rewrite (retry_loop_settles this operation maxAttempts k _ _ _ _ _ _
                   s1 c1 r s2 c2) by (done || lia).
        destruct r as [v|e|]; [done| |done].
        assert (k = (Z.to_nat maxAttempts - 1)%nat) as -> by (apply Hlast; eauto).
        rewrite (proj2 (Z.eqb_eq _ _)) by lia. done.
    + unfold executeWithRetry. rewrite (proj2 (Z.ltb_ge _ _)) by lia.
      pose proof (retry_loop_count this operation maxAttempts
                    (Z.to_nat maxAttempts) 1 (initialDelay this) None s 0%nat c)
        as Hcount.
      destruct (retry_loop _ _ _ _ _ _ _ _ _) as [[r sn] c'].
      destruct Hcount as [Hup Hlow]; [lia|]. specialize (Hlow ltac:(lia)). lia.
  - intros Hmax. unfold executeWithRetry.
    by rewrite (proj2 (Z.ltb_lt _ _)) by lia.
Qed.

(** Two failures, then a success on the third and last attempt allowed,
    after sleeps of 1000 and 2000 ms. *)
Lemma executeWithRetry_backoff_witness :
  1 ≤ 3
  ∧ (∃ k s1 c1 r s2 c2,
        Z.of_nat k < 3
        ∧ failed_attempts retry_defaults flaky k (initialDelay retry_defaults)
            (2%nat, 0%nat) (sim_ctx sim_world) = Some (s1, c1)
        ∧ flaky s1 c1 = (r, s2, c2)
        ∧ ((∃ e, r = Rejected e) → Z.of_nat (S k) = 3)
        ∧ executeWithRetry retry_defaults flaky 3 (2%nat, 0%nat) (sim_ctx sim_world) =
            (match r with
             | Rejected e => Rejected (ThrownError (asError e))
             | _ => r
             end, s2, c2))
  ∧ executeWithRetry retry_defaults flaky 3 (2%nat, 0%nat) (sim_ctx sim_world)
    = (Resolved 2%nat, (0%nat, 3%nat),
       {| world := sim_tick 2000 (sim_tick 1000 sim_world);
          trace := [EvSleep 1000; EvSleep 2000]; resolvers := 0 |}).
Proof.
  assert (Hmax : 1 ≤ 3) by lia.
  split; [exact Hmax|]. split.
  - exact (proj1 (proj1 (executeWithRetry_backoff retry_defaults flaky 3
                           (2%nat, 0%nat) (sim_ctx sim_world)) Hmax)).
  - vm_compute. reflexivity.
Defined.

(** C5 as stated fails on a value that is not an [Error]: the only attempt
    allowed throws the string ["boom"], and what the call throws is a new
    [Error] whose message is that string. *)
Lemma executeWithRetry_rethrow_counterexample :
  (reject (ThrownValue (js "boom")) : M Sim unit unit) tt (sim_ctx sim_world)
    = (Rejected (ThrownValue (js "boom")), tt, sim_ctx sim_world)
  ∧ executeWithRetry retry_defaults
      (reject (ThrownValue (js "boom")) : M Sim unit unit) 1 tt (sim_ctx sim_world)
    = (Rejected (ThrownError (MkError PlainError (js "boom") None)), tt,
       sim_ctx sim_world)
  ∧ ThrownError (MkError PlainError (js "boom") None) ≠ ThrownValue (js "boom").
Proof. split_and!; [reflexivity | vm_compute; reflexivity | discriminate]. Qed.

(** ** C6: restart of a handle manager *)

Section RestartProperties.
Context {W : Type} `{Engine W}.

Lemma close_no_browser (m : BrowserManager) (c : Ctx W) :
  browser m = None → close m c = (Resolved tt, m, c).
Proof. intros Hb. unfold close. unfold_async. by rewrite Hb. Qed.

Lemma close_outcome (m : BrowserManager) (c : Ctx W) (b : Browser) :
  browser m = Some b →
  close m c =
    (match (browser_close b (world c)).1 with
     | Return _ => Resolved tt
     | Throw error =>
         Rejected (ThrownError
                     (MkError (BrowserError (js "close"))
                        (js "Failed to close browser: " ++ errorMessage error)
                        (errorCause error)))
     end,
     set_browser None m,
     after_call (EvClose b) (browser_close b (world c)).2 c).
Proof.
  intros Hb. unfold close. unfold_async. rewrite Hb.
  destruct (browser_close b (world c)) as [[[]|error] w']; done.
Qed.

(** C6 (as amended). [restart] closes the current handle first.  Without a
    handle, or when the close succeeds, it goes on to [launch], from the
    manager with its handle cleared.  When the graceful close throws,
    [restart] throws the close error (operation [close], the cause
    attached) to its caller and does nothing more: the manager's handle is
    cleared and the log ends with the failed close, so no launch was
    made. *)
Theorem restart_close_then_launch (m : BrowserManager) (c : Ctx W) :
  (browser m = None → restart m c = launch m c)
  ∧ (∀ b w', browser m = Some b →
       browser_close b (world c) = (Return tt, w') →
       restart m c = launch (set_browser None m) (after_call (EvClose b) w' c))
  ∧ (∀ b error w', browser m = Some b →
       browser_close b (world c) = (Throw error, w') →
       restart m c =
         (Rejected (ThrownError
                      (MkError (BrowserError (js "close"))
                         (js "Failed to close browser: " ++ errorMessage error)
                         (errorCause error))),
          set_browser None m,
          after_call (EvClose b) w' c)).
Proof.
  split_and!.
  - intros Hb. unfold restart, bind. by rewrite close_no_browser.
  - intros b w' Hb Hclose. unfold restart, bind.
    rewrite (close_outcome m c b Hb), Hclose. done.
  - intros b error w' Hb Hclose. unfold restart, bind.
    rewrite (close_outcome m c b Hb), Hclose. done.
Qed.
End RestartProperties.

(** The three cases on the scripted engine: no handle, a close that
    succeeds, a close that throws. *)
Lemma restart_close_then_launch_witness :
  (browser (newBrowserManager (options stuck_manager)) = None
   ∧ restart (newBrowserManager (options stuck_manager)) (sim_ctx sim_world)
     = launch (newBrowserManager (options stuck_manager)) (sim_ctx sim_world))
  ∧ (browser stuck_manager = Some 0%nat
     ∧ browser_close 0%nat (world (sim_ctx sim_world))
       = (Return tt, sim_disconnect 0%nat sim_world)
     ∧ restart stuck_manager (sim_ctx sim_world)
       = launch (set_browser None stuck_manager)
           (after_call (EvClose 0%nat) (sim_disconnect 0%nat sim_world)
              (sim_ctx sim_world)))
  ∧ (browser stuck_manager = Some 0%nat
     ∧ browser_close 0%nat (world (sim_ctx stuck_world))
       = (Throw (sim_failure "Protocol error: Target closed"), stuck_world)
     ∧ restart stuck_manager (sim_ctx stuck_world)
       = (Rejected (ThrownError
                      (MkError (BrowserError (js "close"))
                         (js "Failed to close browser: "
                          ++ errorMessage (sim_failure "Protocol error: Target closed"))
                         (errorCause (sim_failure "Protocol error: Target closed")))),
          set_browser None stuck_manager,
          after_call (EvClose 0%nat) stuck_world (sim_ctx stuck_world))).
Proof.
  split_and!.
  - reflexivity.
  - exact (proj1 (restart_close_then_launch
                    (newBrowserManager (options stuck_manager))
                    (sim_ctx sim_world)) eq_refl).
  - reflexivity.
  - reflexivity.
  - exact (proj1 (proj2 (restart_close_then_launch stuck_manager (sim_ctx sim_world)))
             0%nat (sim_disconnect 0%nat sim_world) eq_refl eq_refl).
  - reflexivity.
  - reflexivity.
  - exact (proj2 (proj2 (restart_close_then_launch stuck_manager (sim_ctx stuck_world)))
             0%nat (sim_failure "Protocol error: Target closed") stuck_world
             eq_refl eq_refl).
Defined.

(** C6 as stated fails when the graceful close throws: [restart] throws a
    browser error, the log holds the close and no launch, and the manager is
    left without a handle. *)
Lemma restart_close_error_counterexample :
  ∃ error m' c',
    restart stuck_manager (sim_ctx stuck_world) = (Rejected (ThrownError error), m', c')
    ∧ err_class error = BrowserError (js "close")
    ∧ trace c' = [EvClose 0%nat]
    ∧ (EvLaunch ∉ trace c')
    ∧ browser m' = None.
Proof.
  eexists _, _, _. split; [vm_compute; reflexivity|].
  split_and!; try reflexivity.
  vm_compute. intros Hin. apply list_elem_of_In in Hin.
  destruct Hin as [Hin|[]]. discriminate.
Qed.

(** ** C3: release of a handle *)

Section ReleaseProperties.
Context {W : Type} `{Engine W}.

Lemma release_not_initialized (b : Browser) (p : BrowserPool) (c : Ctx W) :
  initialized p = false → release b p c = (Rejected release_uninitialized, p, c).
Proof. intros Hi. unfold release. unfold_async. by rewrite Hi. Qed.

Lemma release_not_busy (b : Browser) (p : BrowserPool) (c : Ctx W) :
  initialized p = true → b ∉ busyBrowsers p →
  release b p c = (Rejected release_untracked, p, c).
Proof.
  intros Hi Hb. unfold release. unfold_async. rewrite Hi. simpl.
  by rewrite decide_True.
Qed.

Lemma release_no_waiter (b : Browser) (p : BrowserPool) (c : Ctx W) :
  initialized p = true → b ∈ busyBrowsers p → waitQueue p = [] →
  release b p c =
    (Resolved tt,
     set_available (availableBrowsers p ++ [b])
       (set_busy (busyBrowsers p ∖ {[b]}) p),
     {| world := world c; trace := trace c ++ [EvReleased b];
        resolvers := resolvers c |}).
Proof.
  intros Hi Hb Hq. unfold release. unfold_async. rewrite Hi. simpl.
  rewrite decide_False by (intros Hn; by apply Hn). simpl.
  by rewrite Hq.
Qed.

Lemma release_hand_off (b : Browser) (p : BrowserPool) (c : Ctx W) w q :
  initialized p = true → b ∈ busyBrowsers p → waitQueue p = w :: q →
  browser_isConnected b (world c) = true →
  release b p c =
    (Resolved tt,
     set_busy ({[b]} ∪ busyBrowsers p ∖ {[b]})
       (set_waitQueue q (set_busy (busyBrowsers p ∖ {[b]}) p)),
     {| world := world c; trace := trace c ++ [EvReleased b; EvHandOff w b];
        resolvers := resolvers c |}).
Proof.
  intros Hi Hb Hq Hconn. unfold release. unfold_async. rewrite Hi. simpl.
  rewrite decide_False by (intros Hn; by apply Hn). simpl.
  rewrite Hq. simpl. rewrite Hconn. simpl. by rewrite <- app_assoc.
Qed.

(** C3 (as amended). [release] throws a browser error for operation
    [release] and leaves the pool and the context as they were when the
    pool is not initialized, and when the handle is not in the in-use set.
    When nobody waits for a handle, a successful release takes the handle
    out of the in-use set, so that releasing it again throws.  When a
    caller waits and the handle is connected, the release gives the handle
    to the first waiter and the handle is in the in-use set again. *)
Theorem release_rejects_untracked (b : Browser) (p : BrowserPool) (c : Ctx W) :
  (initialized p = false →
     release b p c = (Rejected release_uninitialized, p, c))
  ∧ (initialized p = true → b ∉ busyBrowsers p →
       release b p c = (Rejected release_untracked, p, c))
  ∧ (initialized p = true → b ∈ busyBrowsers p → waitQueue p = [] →
       ∃ p' c',
         release b p c = (Resolved tt, p', c')
         ∧ (b ∉ busyBrowsers p')
         ∧ availableBrowsers p' = availableBrowsers p ++ [b]
         ∧ release b p' c' = (Rejected release_untracked, p', c'))
  ∧ (∀ w q,
       initialized p = true → b ∈ busyBrowsers p → waitQueue p = w :: q →
       browser_isConnected b (world c) = true →
       ∃ p' c',
         release b p c = (Resolved tt, p', c')
         ∧ b ∈ busyBrowsers p'
         ∧ waitQueue p' = q
         ∧ trace c' = trace c ++ [EvReleased b; EvHandOff w b]).
Proof.
  split_and!.
  - apply release_not_initialized.
  - apply release_not_busy.
  - intros Hi Hb Hq. eexists _, _. split; [by apply release_no_waiter|].
    assert (Hout : b ∉ busyBrowsers p ∖ {[b]}).
    { rewrite elem_of_difference, elem_of_singleton. tauto. }
    split_and!; [done|done|]. by apply release_not_busy.
  - intros w q Hi Hb Hq Hconn. eexists _, _.
    split; [by apply release_hand_off|].
    split_and!; [|done|done]. simpl.
    apply elem_of_union. left. by apply elem_of_singleton.
Qed.
End ReleaseProperties.

Lemma release_rejects_untracked_witness :
  (initialized (sim_pool 1) = false
   ∧ release 0%nat (sim_pool 1) (sim_ctx sim_world)
     = (Rejected release_uninitialized, sim_pool 1, sim_ctx sim_world))
  ∧ (initialized ready_pool.1 = true ∧ (0%nat ∉ busyBrowsers ready_pool.1)
     ∧ release 0%nat ready_pool.1 ready_pool.2
       = (Rejected release_untracked, ready_pool.1, ready_pool.2))
  ∧ (initialized busy_pool.1 = true ∧ 0%nat ∈ busyBrowsers busy_pool.1
     ∧ waitQueue busy_pool.1 = []
     ∧ ∃ p' c',
         release 0%nat busy_pool.1 busy_pool.2 = (Resolved tt, p', c')
         ∧ (0%nat ∉ busyBrowsers p')
         ∧ availableBrowsers p' = availableBrowsers busy_pool.1 ++ [0%nat]
         ∧ release 0%nat p' c' = (Rejected release_untracked, p', c')).
Proof.
  assert (Hready : 0%nat ∉ busyBrowsers ready_pool.1).
  { replace (busyBrowsers ready_pool.1) with (∅ : gset Browser)
      by (vm_compute; reflexivity).
    apply not_elem_of_empty. }
  assert (Hbusy : 0%nat ∈ busyBrowsers busy_pool.1).
  { replace (busyBrowsers busy_pool.1) with ({[0%nat]} : gset Browser)
      by (vm_compute; reflexivity).
    by apply elem_of_singleton. }
  split_and!.
  - reflexivity.
  - exact (proj1 (release_rejects_untracked 0%nat (sim_pool 1) (sim_ctx sim_world))
             eq_refl).
  - reflexivity.
  - exact Hready.
  - exact (proj1 (proj2 (release_rejects_untracked 0%nat ready_pool.1 ready_pool.2))
             eq_refl Hready).
  - reflexivity.
  - exact Hbusy.
  - reflexivity.
  - exact (proj1 (proj2 (proj2 (release_rejects_untracked 0%nat busy_pool.1
                                  busy_pool.2)))
             eq_refl Hbusy eq_refl).
Defined.

(** C3 as stated fails when a caller waits for a handle: the first release
    hands the handle to the waiter and records it as in use again, and the
    second release of the same handle succeeds. *)
Lemma release_twice_counterexample :
  initialized exhausted_pool.1 = true
  ∧ waitQueue exhausted_pool.1 = [0%nat]
  ∧ ∃ p1 c1 p2 c2,
      release 0%nat exhausted_pool.1 exhausted_pool.2 = (Resolved tt, p1, c1)
      ∧ trace c1 = trace exhausted_pool.2 ++ [EvReleased 0%nat; EvHandOff 0%nat 0%nat]
      ∧ release 0%nat p1 c1 = (Resolved tt, p2, c2)
      ∧ availableBrowsers p2 = [0%nat].
Proof.
  split_and!; [reflexivity|reflexivity|].
  eexists _, _, _, _. split_and!; vm_compute; reflexivity.
Qed.

(** ** The recursion of [acquire] *)

Section AcquireFuel.
Context {W : Type} `{Engine W}.

(** The fuel given by [acquire_with] is enough: more of it changes
    nothing. *)
Lemma acquire_rec_fuel (fuel : nat) :
  ∀ fuel' maxRetries attempt (p : BrowserPool) (c : Ctx W),
    (Z.to_nat (maxRetries - attempt) ≤ fuel)%nat →
    (Z.to_nat (maxRetries - attempt) ≤ fuel')%nat →
    acquire_rec fuel maxRetries attempt p c
    = acquire_rec fuel' maxRetries attempt p c.
Proof.
  induction fuel as [|fuel IH]; intros fuel' maxRetries attempt p c Hf Hf';
    destruct fuel' as [|fuel']; [reflexivity| | |].
  all: cbn [acquire_rec]; unfold bind, get, modify, isConnected; cbn beta iota.
  all: destruct (initialized p); cbn [negb]; [|reflexivity].
  all: destruct (maxRetries <=? attempt) eqn:Hmax; [reflexivity|].
  all: apply Z.leb_gt in Hmax; try lia.
  destruct (pop (availableBrowsers p)) as [[b rest]|]; [|reflexivity].
  destruct (browser_isConnected b _); [reflexivity|].
  destruct (recoverBrowser b _ c) as [[[[]| |] p1] c1]; try reflexivity.
  apply IH; lia.
Qed.
End AcquireFuel.

(** ** C4: initialisation of the pool *)

Section InitializeProperties.
Context {W : Type} `{Engine W}.

Lemma run_each_length {A} (f : M W BrowserManager A) ms (c : Ctx W) :
  length (run_each f ms c).1.1 = length ms.
Proof.
  revert c. induction ms as [|m ms IH]; intros c; [done|].
  simpl. destruct (f m c) as [[r m'] c'].
  specialize (IH c'). destruct (run_each f ms c') as [[rs ms'] c''].
  simpl in *. by rewrite IH.
Qed.

Lemma all_resolved_length {A} (rs : list (Outcome A)) l :
  all_resolved rs = Some l → length l = length rs.
Proof.
  revert l. induction rs as [|[a| |] rs IH]; intros l; simpl; try done.
  - by intros [= <-].
  - destruct (all_resolved rs) as [l'|]; [|done].
    intros [= <-]. simpl. by rewrite (IH l').
Qed.

Lemma promise_all_length {A} (rs : list (Outcome A)) l :
  promise_all rs = Resolved l → length l = length rs.
Proof.
  unfold promise_all. destruct (first_rejection rs); [done|].
  destruct (all_resolved rs) as [l'|] eqn:Hall; [|done].
  intros [= <-]. by apply all_resolved_length.
Qed.

Lemma launch_fresh (o : BrowserLaunchOptions) (c : Ctx W) :
  (∀ a w, ∃ b w', puppeteer_launch a w = (Return b, w')) →
  ∃ b m' c', launch (newBrowserManager o) c = (Resolved b, m', c').
Proof.
  intros Hok. unfold launch, launch_new, browser_connected. unfold_async. simpl.
  match goal with
  | |- context [puppeteer_launch ?a ?w] =>
      destruct (Hok a w) as (b & w' & Hlaunch); rewrite Hlaunch
  end.
  simpl. by eexists _, _, _.
Qed.

Lemma run_each_all_resolved {A} (f : M W BrowserManager A) ms :
  Forall (λ m, ∀ c, ∃ a m' c', f m c = (Resolved a, m', c')) ms →
  ∀ c, ∃ l, promise_all (run_each f ms c).1.1 = Resolved l.
Proof.
  induction 1 as [|m ms Hm _ IH]; intros c.
  - by exists [].
  - simpl. destruct (Hm c) as (a & m' & c' & ->).
    destruct (IH c') as [l Hl].
    destruct (run_each f ms c') as [[rs ms'] c'']. simpl in *.
    unfold promise_all in *. simpl.
    destruct (first_rejection rs); [done|].
    destruct (all_resolved rs) as [l'|]; [|done]. simpl. by eexists.
Qed.

(** The [catch] block of [initialize] ends in a [throw]. *)
Lemma initialize_catch_throws error (p : BrowserPool) (c : Ctx W) p' c' :
  bind cleanup
    (λ _, rejectWith (BrowserError (js "initialize"))
            (js "Failed to initialize browser pool: " ++ errorMessage error)
            (errorCause error)) p c ≠ (Resolved tt, p', c').
Proof.
  unfold bind at 1. destruct (cleanup p c) as [[[[]| |] p1] c1]; done.
Qed.

(** C4. On a pool that is not yet initialized and whose size [P] is at
    least 1, an [initialize] that succeeds leaves the pool initialized
    with statistics total [P], available [P], in use 0; and it does
    succeed when the engine's launches do.  On a pool that is
    already initialized, [initialize] returns at once and changes neither
    the pool nor the context.  The constructor accepts exactly the sizes
    that are at least 1 (2 when none is given) and builds a pool that is
    not initialized. *)
Theorem initialize_stats (p : BrowserPool) (c : Ctx W) :
  (∀ p' c',
     initialized p = false → 1 ≤ poolSize p →
     initialize p c = (Resolved tt, p', c') →
     getStats p' = {| total := poolSize p; available := poolSize p; inUse := 0 |}
     ∧ initialized p' = true)
  ∧ (initialized p = false →
     (∀ a w, ∃ b w', puppeteer_launch a w = (Return b, w')) →
     ∃ p' c', initialize p c = (Resolved tt, p', c'))
  ∧ (initialized p = true → initialize p c = (Resolved tt, p, c))
  ∧ (∀ o pool,
       newBrowserPool o = Return pool →
       initialized pool = false
       ∧ 1 ≤ poolSize pool
       ∧ poolSize pool = default 2 (opt_poolSize o)).
Proof.
  split_and!.
  - intros p' c' Hi Hsize. unfold initialize.
    unfold bind at 1, get. rewrite Hi.
    unfold try_catch. unfold bind at 1, modify at 1.
    unfold bind at 1, all_managers.
    set (ms := replicate _ _).
    pose proof (run_each_length launch ms c) as Hlen.
    change (managers (set_managers ms p)) with ms.
    destruct (run_each launch ms c) as [[rs ms'] c1]. simpl in Hlen.
    destruct (promise_all rs) as [browsers|error|] eqn:Hall.
    + unfold modify. intros [= <- <-].
      apply promise_all_length in Hall.
      unfold getStats. simpl. split; [|done].
      rewrite Hall, Hlen. unfold ms. rewrite length_replicate.
      f_equal; lia.
    + intros Hcatch. by apply initialize_catch_throws in Hcatch.
    + done.
  - intros Hi Hok. unfold initialize.
    unfold bind at 1, get. rewrite Hi.
    unfold try_catch. unfold bind at 1, modify at 1.
    unfold bind at 1, all_managers.
    set (ms := replicate _ _).
    change (managers (set_managers ms p)) with ms.
    destruct (run_each_all_resolved launch ms) with (c := c) as [l Hl].
    { apply Forall_replicate. intros c0. by apply launch_fresh. }
    destruct (run_each launch ms c) as [[rs ms'] c1]. simpl in Hl.
    rewrite Hl. unfold modify. by eexists _, _.
  - intros Hi. unfold initialize, bind, get. by rewrite Hi.
  - intros o pool. unfold newBrowserPool.
    destruct (default 2 (opt_poolSize o) <? 1) eqn:Hlt; [done|].
    intros [= <-]. simpl. apply Z.ltb_ge in Hlt. done.
Qed.
End InitializeProperties.

Example newBrowserPool_sample :
  newBrowserPool {| opt_poolSize := Some 3; opt_poolDisableSandbox := None |}
  = Return (sim_pool 3)
  ∧ (∃ error,
       newBrowserPool {| opt_poolSize := Some 0; opt_poolDisableSandbox := None |}
       = Throw error).
Proof. split; [reflexivity|by eexists]. Qed.

(** A pool of three handles on the scripted engine. *)
Lemma initialize_stats_witness :
  (initialized (sim_pool 3) = false ∧ 1 ≤ poolSize (sim_pool 3)
   ∧ (∃ p' c',
        initialize (sim_pool 3) (sim_ctx sim_world) = (Resolved tt, p', c')
        ∧ getStats p' = {| total := 3; available := 3; inUse := 0 |}
        ∧ initialized p' = true))
  ∧ (initialized ready_pool.1 = true
     ∧ initialize ready_pool.1 ready_pool.2 = (Resolved tt, ready_pool.1, ready_pool.2)).
Proof.
  split.
  - split; [reflexivity|]. split; [simpl; lia|].
    eexists _, _. split; [vm_compute; reflexivity|].
    refine (proj1 (initialize_stats (sim_pool 3) (sim_ctx sim_world)) _ _
              eq_refl _ _); [simpl; lia|vm_compute; reflexivity].
  - split; [reflexivity|].
    exact (proj1 (proj2 (proj2 (initialize_stats ready_pool.1 ready_pool.2))) eq_refl).
Defined.

(** ** C10: a reader whose pool is not initialized *)

Section CloseProperties.
Context {W : Type} `{Engine W}.

Lemma kill_resolves (m : BrowserManager) (c : Ctx W) :
  ∃ m' c', kill m c = (Resolved tt, m', c').
Proof.
  unfold kill. unfold_async. destruct (browser m) as [b|]; [|by eexists _, _].
  destruct (browser_kill b (world c)) as [[[]|error] w']; simpl; by eexists _, _.
Qed.

Lemma close_or_kill_resolves (m : BrowserManager) (c : Ctx W) :
  ∃ m' c', try_catch close (λ _, kill) m c = (Resolved tt, m', c').
Proof.
  unfold try_catch. destruct (browser m) as [b|] eqn:Hb.
  - rewrite (close_outcome m c b Hb).
    destruct (browser_close b (world c)).1 as [[]|error]; [by eexists _, _|].
    apply kill_resolves.
  - rewrite close_no_browser by done. by eexists _, _.
Qed.

Lemma run_each_resolved (f : M W BrowserManager unit) :
  (∀ m c, ∃ m' c', f m c = (Resolved tt, m', c')) →
  ∀ ms c, ∃ l, promise_all (run_each f ms c).1.1 = Resolved l.
Proof.
  intros Hf ms. apply run_each_all_resolved. apply Forall_forall.
  intros m _ c. destruct (Hf m c) as (m' & c' & ->). by eexists _, _, _.
Qed.

Lemma cleanup_resets (p : BrowserPool) (c : Ctx W) :
  ∃ p' c', cleanup p c = (Resolved tt, p', c') ∧ initialized p' = false.
Proof.
  unfold cleanup. unfold bind at 1, modify at 1.
  unfold bind at 1, all_managers.
  destruct (run_each_resolved _ close_or_kill_resolves
              (managers (set_waitQueue [] p)) c) as [l Hl].
  destruct (run_each _ _ c) as [[rs ms] c1]. simpl in Hl. rewrite Hl.
  unfold modify. by eexists _, _.
Qed.

Lemma pool_close_resets (p : BrowserPool) (c : Ctx W) :
  ∃ p' c', pool_close p c = (Resolved tt, p', c') ∧ initialized p' = false.
Proof.
  unfold pool_close, bind, get.
  destruct (initialized p) eqn:Hi; simpl.
  - apply cleanup_resets.
  - by exists p, c.
Qed.
End CloseProperties.

Section NotInitialized.
Context {W : Type} `{Engine W}.
Variable parseString : jsstring → Completion FeedData.
Variable parseItem : RawRssItem → jsstring → Completion RssItem.

(** C10. On a pool that is not initialized, [fetchAndParse] throws a
    browser error at once: the pool, the world and the log of calls are
    what they were, so no attempt, acquisition or navigation was made.  A
    pool is in that state when it comes from the constructor and after
    every [close()]. *)
Theorem fetchAndParse_requires_initialized (this : RssReader)
    (feedUrl : jsstring) (p : BrowserPool) (c : Ctx W) :
  (isInitialized p = false →
     fetchAndParse parseString parseItem this feedUrl p c
     = (Rejected reader_uninitialized, p, c))
  ∧ (∀ o pool, newBrowserPool o = Return pool → isInitialized pool = false)
  ∧ (∃ p' c', pool_close p c = (Resolved tt, p', c') ∧ isInitialized p' = false).
Proof.
  split_and!.
  - intros Hi. unfold fetchAndParse, bind, get. by rewrite Hi.
  - intros o pool. unfold newBrowserPool.
    destruct (_ <? _); [done|]. by intros [= <-].
  - apply pool_close_resets.
Qed.
End NotInitialized.

(** A reader fresh from the constructor. *)
Lemma fetchAndParse_requires_initialized_witness :
  isInitialized (sim_pool 2) = false
  ∧ fetchAndParse no_xml sample_parseItem sample_reader
      (js "https://example.com/feed") (sim_pool 2) (sim_ctx sim_world)
    = (Rejected reader_uninitialized, sim_pool 2, sim_ctx sim_world).
Proof.
  split; [reflexivity|].
  exact (proj1 (fetchAndParse_requires_initialized no_xml sample_parseItem
                  sample_reader (js "https://example.com/feed") (sim_pool 2)
                  (sim_ctx sim_world)) eq_refl).
Defined.

(** ** C1: a feed URL that is not http or https *)

Lemma pop_snoc {A} (l : list A) (x : A) : pop (l ++ [x]) = Some (x, l).
Proof. unfold pop. by rewrite last_snoc, removelast_last. Qed.

Section SchemeProperties.
Context {W : Type} `{Engine W}.
Variable parseString : jsstring → Completion FeedData.
Variable parseItem : RawRssItem → jsstring → Completion RssItem.

Lemma fetchFeed_rejects_scheme {St} feedUrl (b : Browser) timeout
    (s : St) (c : Ctx W) :
  is_http_url feedUrl = false →
  fetchFeed feedUrl b timeout s c = (Rejected (scheme_error feedUrl), s, c).
Proof.
  intros Hurl. unfold fetchFeed, scheme_error.
  case_bool_decide; [done|]. by rewrite Hurl.
Qed.

Lemma acquire_available (p : BrowserPool) (c : Ctx W) b rest :
  initialized p = true →
  availableBrowsers p = rest ++ [b] →
  browser_isConnected b (world c) = true →
  acquire p c =
    (Resolved b,
     set_busy ({[b]} ∪ busyBrowsers p) (set_available rest p),
     {| world := world c; trace := trace c ++ [EvAcquired b];
        resolvers := resolvers c |}).
Proof.
  intros Hi Hav Hconn. unfold acquire, acquire_with.
  change (Z.to_nat (3 - 0)) with 3%nat. cbn [acquire_rec].
  unfold_async. rewrite Hi, Hav, pop_snoc. simpl. by rewrite Hconn.
Qed.

Lemma fetch_attempt_scheme (this : RssReader) feedUrl (p : BrowserPool)
    (c : Ctx W) b rest :
  is_http_url feedUrl = false →
  initialized p = true →
  availableBrowsers p = rest ++ [b] →
  b ∉ busyBrowsers p →
  waitQueue p = [] →
  browser_isConnected b (world c) = true →
  fetch_attempt this feedUrl p c =
    (Rejected (scheme_error feedUrl), p,
     {| world := world c; trace := trace c ++ [EvAcquired b; EvReleased b];
        resolvers := resolvers c |}).
Proof.
  intros Hurl Hi Hav Hb Hq Hconn. unfold fetch_attempt.
  unfold bind at 1. rewrite (acquire_available p c b rest) by done.
  unfold try_finally. rewrite fetchFeed_rejects_scheme by done.
  rewrite release_no_waiter; [|done|set_solver|done].
  simpl. rewrite <- app_assoc. simpl.
  f_equal. f_equal. destruct p; simpl in *. subst.
  unfold set_available, set_busy. simpl. f_equal.
  apply set_eq. intros x.
  rewrite elem_of_difference, elem_of_union, elem_of_singleton.
  split; [tauto|]. intros Hx. split; [tauto|]. by intros ->.
Qed.

Lemma scheme_retry_loop (this : RssReader) feedUrl (p : BrowserPool) b rest
    (iterations : nat) :
  is_http_url feedUrl = false →
  initialized p = true →
  availableBrowsers p = rest ++ [b] →
  b ∉ busyBrowsers p →
  waitQueue p = [] →
  (∀ ms w, browser_isConnected b w = true →
           browser_isConnected b (timer_sleep ms w) = true) →
  ∀ attempt d lastError (c : Ctx W),
    (0 < iterations)%nat →
    Z.of_nat iterations = retryAttempts (config this) - attempt + 1 →
    browser_isConnected b (world c) = true →
    ∃ c',
      retry_loop (retryHandler this) (fetch_attempt this feedUrl)
        (retryAttempts (config this)) iterations attempt d lastError p c
      = (Rejected (scheme_error feedUrl), p, c')
      ∧ trace c' =
          trace c ++ scheme_failure_events (retryHandler this) b iterations d.
Proof.
  intros Hurl Hi Hav Hb Hq Hstay.
  induction iterations as [|n IH]; intros attempt d lastError c Hpos Hit Hconn;
    [lia|].
  cbn [retry_loop]. rewrite (proj2 (Z.leb_le _ _)) by lia.
  unfold try_catch. rewrite (fetch_attempt_scheme this feedUrl p c b rest) by done.
  destruct (attempt =? retryAttempts (config this)) eqn:Hlast.
  - apply Z.eqb_eq in Hlast. assert (n = 0%nat) as -> by lia.
    eexists. split; [reflexivity|]. done.
  - apply Z.eqb_neq in Hlast. destruct n as [|n]; [lia|].
    unfold bind, delay.
    edestruct (IH (attempt + 1)
                 (Z.min (d * backoffMultiplier (retryHandler this))
                    (maxDelay (retryHandler this)))
                 (Some (asError (scheme_error feedUrl))))
      as (c' & Hrun & Htrace); [lia|lia| |].
    2: { eexists. split; [exact Hrun|]. rewrite Htrace. simpl.
         rewrite <- !app_assoc. done. }
    simpl. by apply Hstay.
Qed.

(** C1 (as amended). For a feed URL that is not http or https, [fetchFeed]
    throws a fetch error before it opens a page, whatever handle it is
    given, and changes nothing.  [fetchAndParse] reaches that test only
    after it has acquired a handle, and does so on every one of its
    attempts: on a pool with a connected handle available and nobody
    waiting, the call throws the fetch error, its log is one acquisition
    and one release of that handle per attempt with the backoff sleeps in
    between (no page, no navigation), and the pool is the same after the
    call as before it. *)
Theorem fetchAndParse_rejects_scheme (this : RssReader) (feedUrl : jsstring)
    (p : BrowserPool) (c : Ctx W) (b : Browser) (rest : list Browser) :
  is_http_url feedUrl = false →
  (∀ (St : Type) (handle : Browser) (timeout : option Z) (s : St) (c0 : Ctx W),
     fetchFeed feedUrl handle timeout s c0 = (Rejected (scheme_error feedUrl), s, c0))
  ∧ (initialized p = true →
     availableBrowsers p = rest ++ [b] →
     b ∉ busyBrowsers p →
     waitQueue p = [] →
     browser_isConnected b (world c) = true →
     (∀ ms w, browser_isConnected b w = true →
              browser_isConnected b (timer_sleep ms w) = true) →
     1 ≤ retryAttempts (config this) →
     ∃ c',
       fetchAndParse parseString parseItem this feedUrl p c
       = (Rejected (scheme_error feedUrl), p, c')
       ∧ trace c' =
           trace c ++
           scheme_failure_events (retryHandler this) b
             (Z.to_nat (retryAttempts (config this)))
             (initialDelay (retryHandler this))).
Proof.
  intros Hurl. split.
  - intros St handle timeout s c0. by apply fetchFeed_rejects_scheme.
  - intros Hi Hav Hb Hq Hconn Hstay Hattempts.
    destruct (scheme_retry_loop this feedUrl p b rest
                (Z.to_nat (retryAttempts (config this)))
                Hurl Hi Hav Hb Hq Hstay 1 (initialDelay (retryHandler this))
                None c) as (c' & Hrun & Htrace); [lia|lia|done|].
    exists c'. split; [|done].
    unfold fetchAndParse. unfold bind at 1, get. unfold isInitialized.
    rewrite Hi. simpl. unfold bind at 1. unfold executeWithRetry.
    rewrite (proj2 (Z.ltb_ge _ _)) by lia. by rewrite Hrun.
Qed.
End SchemeProperties.

Lemma fetchAndParse_rejects_scheme_witness :
  is_http_url ftp_url = false
  ∧ initialized ready_reader_pool.1 = true
  ∧ availableBrowsers ready_reader_pool.1 = [0%nat] ++ [1%nat]
  ∧ (1%nat ∉ busyBrowsers ready_reader_pool.1)
  ∧ waitQueue ready_reader_pool.1 = []
  ∧ browser_isConnected 1%nat (world ready_reader_pool.2) = true
  ∧ (∀ ms w, browser_isConnected 1%nat w = true →
             browser_isConnected 1%nat (timer_sleep ms w) = true)
  ∧ 1 ≤ retryAttempts (config sample_reader)
  ∧ ∃ c',
      fetchAndParse no_xml sample_parseItem sample_reader ftp_url
        ready_reader_pool.1 ready_reader_pool.2
      = (Rejected (scheme_error ftp_url), ready_reader_pool.1, c')
      ∧ trace c' =
          trace ready_reader_pool.2 ++
          scheme_failure_events (retryHandler sample_reader) 1%nat
            (Z.to_nat (retryAttempts (config sample_reader)))
            (initialDelay (retryHandler sample_reader)).
Proof.
  assert (Hurl : is_http_url ftp_url = false) by reflexivity.
  assert (Hfree : 1%nat ∉ busyBrowsers ready_reader_pool.1).
  { replace (busyBrowsers ready_reader_pool.1) with (∅ : gset Browser)
      by (vm_compute; reflexivity).
    apply not_elem_of_empty. }
  assert (Hstay : ∀ ms w, browser_isConnected 1%nat w = true →
                          browser_isConnected 1%nat (timer_sleep ms w) = true)
    by (intros ms w Hw; exact Hw).
  assert (Hattempts : 1 ≤ retryAttempts (config sample_reader)) by (simpl; lia).
  split_and!; try done.
  exact (proj2 (fetchAndParse_rejects_scheme no_xml sample_parseItem sample_reader
                  ftp_url ready_reader_pool.1 ready_reader_pool.2 1%nat [0%nat] Hurl)
           eq_refl eq_refl Hfree eq_refl eq_refl Hstay Hattempts).
Defined.

(** C1 as stated fails: on a ready pool, the call for an ftp URL throws the
    fetch error after three attempts, and each attempt acquired handle 1 from
    the pool and released it. *)
Lemma fetchAndParse_acquires_counterexample :
  is_http_url ftp_url = false
  ∧ ∃ p' c',
      fetchAndParse no_xml sample_parseItem sample_reader ftp_url
        ready_reader_pool.1 ready_reader_pool.2
      = (Rejected (scheme_error ftp_url), p', c')
      ∧ trace c' =
          trace ready_reader_pool.2 ++
          [EvAcquired 1%nat; EvReleased 1%nat; EvSleep 1000;
           EvAcquired 1%nat; EvReleased 1%nat; EvSleep 2000;
           EvAcquired 1%nat; EvReleased 1%nat]
      ∧ EvAcquired 1%nat ∈ trace c'.
Proof.
  split; [reflexivity|].
  eexists _, _. split; [vm_compute; reflexivity|].
  split; [vm_compute; reflexivity|].
  vm_compute. apply list_elem_of_In. simpl. tauto.
Qed.

(** * Further properties *)

(** ** Titles as words *)

Lemma split_ws_cons (s : jsstring) : ∃ w rest, split_ws s = w :: rest.
Proof.
  induction s as [|c r (w & rest & IH)]; simpl; [by eexists _, _|].
  destruct (is_ws c); [by eexists _, _|]. rewrite IH. by eexists _, _.
Qed.

Lemma trimEnd_nil_all_ws (s : jsstring) :
  trimEnd s = [] ↔ forallb is_ws s = true.
Proof.
  induction s as [|c r IH]; [done|]. simpl.
  destruct (trimEnd r) as [|c' r'] eqn:Hr.
  - destruct (is_ws c); simpl; [|done]. by rewrite <- IH.
  - split; [done|]. intros [_ Hall]%andb_prop. by apply IH in Hall.
Qed.

Lemma words_nil_all_ws (s : jsstring) :
  words s = [] ↔ forallb is_ws s = true.
Proof.
  unfold words. induction s as [|c r IH]; [done|]. simpl.
  destruct (is_ws c); simpl.
  - rewrite filter_cons, decide_False by (by intros []). done.
  - destruct (split_ws_cons r) as (w & rest & ->).
    rewrite filter_cons, decide_True by done. done.
Qed.

Lemma replace_ws_runs_in_run (s : jsstring) :
  replace_ws_runs true s = replace_ws_runs false (trimStart s).
Proof.
  induction s as [|c r IH]; [done|]. simpl.
  destruct (is_ws c) eqn:Hc; [done|]. simpl. by rewrite Hc.
Qed.

Lemma trimEnd_cons_ws c (s : jsstring) :
  is_ws c = true →
  trimEnd (c :: s) = if decide (trimEnd s = []) then [] else c :: trimEnd s.
Proof.
  intros Hc. simpl. rewrite Hc. destruct (trimEnd s); [done|].
  by rewrite decide_False.
Qed.

Lemma replace_ws_runs_ws c (s : jsstring) :
  is_ws c = true →
  replace_ws_runs false (c :: s) = 32%N :: replace_ws_runs true s.
Proof. intros Hc. simpl. by rewrite Hc. Qed.

Lemma join_words_cons w rest : join_words (w :: rest) = w ++ tail_words rest.
Proof. destruct rest; simpl; [by rewrite app_nil_r|done]. Qed.

Lemma collapse_trim_words (s : jsstring) :
  collapse_ws (trim s) = join_words (words s)
  ∧ ∀ w rest, split_ws s = w :: rest →
      collapse_ws (trimEnd s) = w ++ tail_words (filter (λ w, w ≠ []) rest).
Proof.
  induction s as [|c r [IHn IHt]]; [split; [done|by intros w rest [= <- <-]]|].
  destruct (split_ws_cons r) as (w' & rest' & Hsplit).
  destruct (is_ws c) eqn:Hc.
  - assert (Htail : collapse_ws (trimEnd (c :: r)) = tail_words (words r)).
    { rewrite trimEnd_cons_ws by done. case_decide as Hr.
      - assert (words r = []) as ->; [|done].
        apply words_nil_all_ws, trimEnd_nil_all_ws, Hr.
      - unfold collapse_ws. rewrite replace_ws_runs_ws by done.
        rewrite <- trimEnd_collapse, replace_ws_runs_in_run, trimEnd_collapse.
        change (replace_ws_runs false (trimEnd (trimStart r)))
          with (collapse_ws (trim r)).
        rewrite IHn. destruct (words r) eqn:Hw; [|done].
        apply words_nil_all_ws, trimEnd_nil_all_ws in Hw. congruence. }
    split.
    + unfold trim. cbn [trimStart]. rewrite Hc.
      unfold words. cbn [split_ws]. rewrite Hc.
      rewrite filter_cons, decide_False by (by intros []). apply IHn.
    + intros w rest. cbn [split_ws]. rewrite Hc. intros [= <- <-].
      exact Htail.
  - assert (Htail : collapse_ws (trimEnd (c :: r))
                    = (c :: w') ++ tail_words (filter (λ w, w ≠ []) rest')).
    { rewrite trimEnd_cons_keep by done. unfold collapse_ws.
      cbn [replace_ws_runs]. rewrite Hc. simpl. f_equal.
      by apply IHt. }
    split.
    + unfold trim. cbn [trimStart]. rewrite Hc, Htail.
      unfold words. cbn [split_ws]. rewrite Hc, Hsplit.
      rewrite filter_cons, decide_True by done. by rewrite join_words_cons.
    + intros w rest. cbn [split_ws]. rewrite Hc, Hsplit. intros [= <- <-].
      exact Htail.
Qed.

Lemma split_ws_no_ws (s : jsstring) :
  Forall (λ w, forallb is_ws w = false ∨ w = []) (split_ws s)
  ∧ Forall (λ w, Forall (λ c, is_ws c = false) w) (split_ws s).
Proof.
  induction s as [|c r [IH1 IH2]]; [split; by repeat constructor|].
  simpl. destruct (is_ws c) eqn:Hc.
  - split; constructor; auto.
  - destruct (split_ws r) as [|w ws]; [split; repeat constructor; simpl; by rewrite ?Hc|].
    inversion IH1; inversion IH2; subst.
    split; constructor; try done.
    + left. simpl. by rewrite Hc.
    + by constructor.
Qed.

Lemma cleanTitle_fixed (title : JsValue) (options : option TitleCleanOptions) :
  cleanTitle (JsString (cleanTitle title options)) None = cleanTitle title options.
Proof.
  assert (Hfix : ∀ s : jsstring, collapse_ws (trim (collapse_ws (trim s)))
                                 = collapse_ws (trim s)).
  { intros s. rewrite (trim_collapse_ws (trim s)), trim_idemp.
    unfold collapse_ws. by rewrite replace_ws_runs_idemp. }
  destruct title as [[|c t]|]; try done.
  unfold cleanTitle at 2 3.
  destruct (collapse_ws _) as [|d u] eqn:Hd; [done|].
  unfold cleanTitle. simpl removePattern. rewrite <- Hd. apply Hfix.
Qed.

(** X1. A cleaned title is the words of the title after the two pattern
    removals, joined by single spaces: each word is a non-empty run of code
    units none of which is whitespace.  So cleaning a string of whitespace
    only gives the empty string, and cleaning a cleaned title again (without
    patterns) changes nothing. *)
Theorem cleanTitle_joins_words (title : JsValue) (options : option TitleCleanOptions) :
  cleanTitle title options =
    match title with
    | JsString (c :: t) =>
        join_words
          (words (removePattern (options ≫= suffixPattern)
                    (removePattern (options ≫= prefixPattern) (c :: t))))
    | _ => []
    end
  ∧ (∀ s : jsstring,
       Forall (λ w, w ≠ [] ∧ Forall (λ c, is_ws c = false) w) (words s))
  ∧ (∀ s : jsstring, forallb is_ws s = true → cleanTitle (JsString s) None = [])
  ∧ cleanTitle (JsString (cleanTitle title options)) None = cleanTitle title options.
Proof.
  split_and!.
  - destruct title as [[|c t]|]; try done. unfold cleanTitle.
    apply collapse_trim_words.
  - intros s. unfold words. apply Forall_forall. intros w [Hw Hin]%list_elem_of_filter.
    split; [done|].
    destruct (split_ws_no_ws s) as [_ Hall].
    by eapply Forall_forall in Hall.
  - intros s Hs. destruct s as [|c t]; [done|]. unfold cleanTitle. simpl removePattern.
    rewrite (proj1 (collapse_trim_words _)).
    by apply words_nil_all_ws in Hs as ->.
  - apply cleanTitle_fixed.
Qed.

(** ** Link validation *)

Lemma trimStart_all_ws (s : jsstring) : forallb is_ws s = true → trimStart s = [].
Proof.
  induction s as [|c r IH]; [done|]. simpl.
  destruct (is_ws c); [|done]. apply IH.
Qed.

Lemma trim_all_ws (s : jsstring) : forallb is_ws s = true → trim s = [].
Proof. intros Hs. unfold trim. by rewrite trimStart_all_ws. Qed.

Lemma length_zero_nil {A} (l : list A) : (Z.of_nat (length l) =? 0) = bool_decide (l = []).
Proof. by destruct l. Qed.

Lemma validateLink_trimmed (link : jsstring) (pattern : option TestPattern) :
  validateLink (JsString link) pattern =
    if decide (trim link = []) then false
    else match default LinkValidator_DEFAULT_PATTERN pattern (trim link) with
         | Return b => b
         | Throw _ => false
         end.
Proof.
  destruct link as [|c l]; [done|]. unfold validateLink.
  rewrite length_zero_nil. by destruct (trim (c :: l)).
Qed.

(** X2. With the default pattern a link is valid exactly when, once
    trimmed, it starts with [http://], [https://] or [magnet:] in any letter
    case.  With any pattern, whitespace around the link does not matter, a
    link of whitespace only and a value that is not a string are invalid,
    and a pattern that throws makes the link invalid instead of
    throwing.  [filterValidLinks] keeps the valid links in their order. *)
Theorem validateLink_default_schemes (link : jsstring) (pattern : option TestPattern) :
  validateLink (JsString link) None = isHttpLink (trim link) || isMagnetLink (trim link)
  ∧ validateLink (JsString link) pattern = validateLink (JsString (trim link)) pattern
  ∧ (∀ p error, p (trim link) = Throw error →
       validateLink (JsString link) (Some p) = false)
  ∧ (forallb is_ws link = true → validateLink (JsString link) pattern = false)
  ∧ validateLink JsNonString pattern = false
  ∧ (∀ links : list jsstring,
       filterValidLinks links None
       = filter (λ l, isHttpLink (trim l) || isMagnetLink (trim l)) links).
Proof.
  split_and!; try done.
  - rewrite validateLink_trimmed. by destruct (trim link).
  - by rewrite !validateLink_trimmed, trim_idemp.
  - intros p error Hp. rewrite validateLink_trimmed. simpl.
    rewrite Hp. by case_decide.
  - intros Hws. by rewrite validateLink_trimmed, trim_all_ws.
  - intros links. unfold filterValidLinks. apply list_filter_iff. intros l.
    rewrite validateLink_trimmed. by destruct (trim l).
Qed.

(** ** Links by type *)

Lemma extractLinks_returns
    (cheerio : jsstring → Completion (list (option jsstring))) (html : JsValue) :
  ∃ allLinks, extractLinks cheerio html = Return allLinks.
Proof.
  destruct html as [[|c h]|]; simpl; try by eexists.
  destruct (cheerio (c :: h)); simpl; by eexists.
Qed.

Lemma http_not_magnet (link : jsstring) :
  is_http_url link = true → isMagnetLink link = false.
Proof.
  unfold is_http_url, isMagnetLink. destruct link as [|c l]; [done|].
  change (js "http://") with (104%N :: js "ttp://").
  change (js "https://") with (104%N :: js "ttps://").
  change (js "magnet:") with (109%N :: js "agnet:").
  cbn [starts_with_ci].
  destruct (ascii_lower c =? 104)%N eqn:Hh; [|done].
  apply N.eqb_eq in Hh. rewrite Hh. done.
Qed.

Lemma filter_three_cons (l : jsstring) (r : list jsstring) :
  filter (λ l, is_http_url l) (l :: r)
  = (if is_http_url l then [l] else []) ++ filter (λ l, is_http_url l) r
  ∧ filter (λ l, isMagnetLink l) (l :: r)
    = (if is_http_url l then [] else if isMagnetLink l then [l] else [])
      ++ filter (λ l, isMagnetLink l) r
  ∧ filter (λ l, ¬ is_http_url l ∧ ¬ isMagnetLink l) (l :: r)
    = (if is_http_url l then [] else if isMagnetLink l then [] else [l])
      ++ filter (λ l, ¬ is_http_url l ∧ ¬ isMagnetLink l) r.
Proof.
  rewrite !filter_cons.
  destruct (is_http_url l) eqn:Hh;
    [rewrite (http_not_magnet l Hh)|destruct (isMagnetLink l)];
    split_and!; reflexivity.
Qed.

Lemma categorize_loop (acc : LinksByType) (allLinks : list jsstring) :
  foldl categorize acc allLinks =
    {| http := http acc ++ filter (λ l, is_http_url l) allLinks;
       magnet := magnet acc ++ filter (λ l, isMagnetLink l) allLinks;
       other := other acc
                ++ filter (λ l, ¬ is_http_url l ∧ ¬ isMagnetLink l) allLinks |}.
Proof.
  revert acc. induction allLinks as [|l r IH]; intros acc.
  - simpl. rewrite !app_nil_r. by destruct acc.
  - cbn [foldl]. rewrite IH. unfold categorize.
    destruct (filter_three_cons l r) as (-> & -> & ->).
    destruct (is_http_url l); [|destruct (isMagnetLink l)]; simpl;
      by rewrite <- ?app_assoc, ?app_nil_r.
Qed.

Lemma partition_three_perm (allLinks : list jsstring) :
  filter (λ l, is_http_url l) allLinks
  ++ filter (λ l, isMagnetLink l) allLinks
  ++ filter (λ l, ¬ is_http_url l ∧ ¬ isMagnetLink l) allLinks
  ≡ₚ allLinks.
Proof.
  induction allLinks as [|l r IH]; [done|].
  destruct (filter_three_cons l r) as (-> & -> & ->).
  destruct (is_http_url l); [|destruct (isMagnetLink l)]; simpl.
  - by rewrite IH.
  - rewrite <- Permutation_middle. by rewrite IH.
  - rewrite app_assoc, <- Permutation_middle, <- app_assoc. by rewrite IH.
Qed.

(** X3. [extractLinksByType] never throws and sorts the extracted links into
    three lists that keep their order: the links that start with [http://]
    or [https://], those that start with [magnet:], and the rest.  Every
    extracted link is in exactly one of the three (together they are a
    rearrangement of the extracted links), and [extractHttpLinks] and
    [extractMagnetLinks] return the first and the second list. *)
Theorem extractLinksByType_partitions
    (cheerio : jsstring → Completion (list (option jsstring))) (html : JsValue) :
  ∃ allLinks byType,
    extractLinks cheerio html = Return allLinks
    ∧ extractLinksByType cheerio html = Return byType
    ∧ http byType = filter (λ l, is_http_url l) allLinks
    ∧ magnet byType = filter (λ l, isMagnetLink l) allLinks
    ∧ other byType = filter (λ l, ¬ is_http_url l ∧ ¬ isMagnetLink l) allLinks
    ∧ http byType ++ magnet byType ++ other byType ≡ₚ allLinks
    ∧ (∀ l, l ∈ http byType → l ∉ magnet byType)
    ∧ extractHttpLinks cheerio html = Return (http byType)
    ∧ extractMagnetLinks cheerio html = Return (magnet byType).
Proof.
  destruct (extractLinks_returns cheerio html) as [allLinks Hall].
  exists allLinks. eexists. split; [done|].
  unfold extractLinksByType, extractHttpLinks, extractMagnetLinks.
  rewrite Hall. simpl. split; [reflexivity|].
  rewrite categorize_loop. simpl. split_and!; try done.
  - apply partition_three_perm.
  - intros l [Hh _]%list_elem_of_filter [Hm _]%list_elem_of_filter.
    apply Is_true_true in Hh. apply http_not_magnet in Hh.
    rewrite Hh in Hm. done.
Qed.

(** ** Dates *)

(** X4. [parseDate] returns a valid date or nothing, never an invalid
    [Date]; whitespace around the text does not matter; text that is empty,
    only whitespace or not a string gives nothing, and so does text on which
    the [Date] constructor throws.  [parseDateWithFallback] always returns a
    valid date, and [isValidDate] tells whether [parseDate] returns one. *)
Theorem parseDate_valid_or_nothing (Date_new : jsstring → Completion JsDate)
    (dateString : JsValue) (now : Z) :
  parseDate Date_new dateString ≠ Some None
  ∧ (∀ s : jsstring,
       parseDate Date_new (JsString s) = parseDate Date_new (JsString (trim s)))
  ∧ (∀ s : jsstring, forallb is_ws s = true → parseDate Date_new (JsString s) = None)
  ∧ (∀ s error, Date_new (trim s) = Throw error →
       parseDate Date_new (JsString s) = None)
  ∧ parseDate Date_new JsNonString = None
  ∧ parseDateWithFallback Date_new now dateString ≠ None
  ∧ (isValidDate Date_new dateString = true
     ↔ ∃ time, parseDate Date_new dateString = Some (Some time)).
Proof.
  assert (Htrimmed : ∀ s : jsstring,
            parseDate Date_new (JsString s) =
              if decide (trim s = []) then None
              else match Date_new (trim s) with
                   | Return (Some time) => Some (Some time)
                   | _ => None
                   end).
  { intros [|c s]; [done|]. unfold parseDate. rewrite length_zero_nil.
    destruct (trim (c :: s)); [done|]. simpl.
    by destruct (Date_new _) as [[?|]|]. }
  assert (Hvalid : parseDate Date_new dateString ≠ Some None).
  { destruct dateString as [s|]; [|done]. rewrite Htrimmed.
    case_decide; [done|]. by destruct (Date_new _) as [[?|]|]. }
  split_and!; try done.
  - intros s. by rewrite !Htrimmed, trim_idemp.
  - intros s Hs. by rewrite Htrimmed, trim_all_ws.
  - intros s error Herr. rewrite Htrimmed, Herr. by case_decide.
  - unfold parseDateWithFallback.
    destruct (parseDate Date_new dateString) as [[time|]|]; done.
  - unfold isValidDate. rewrite bool_decide_eq_true.
    destruct (parseDate Date_new dateString) as [[time|]|]; split;
      try done; try (by eauto); by intros [? ?].
Qed.

(** ** Validation *)

Lemma validate_outcome (item : RssItem) :
  validate item =
    if decide (trim (title item) = [])
    then throwError (ParseError None (Some (title item)))
           (js "Item validation failed: title is required and must be a non-empty string")
           None
    else if decide (trim (link item) = [])
    then throwError (ParseError None (Some (title item)))
           (js "Item validation failed: link is required and must be a non-empty string")
           None
    else match publishedAt item with
         | None =>
             throwError (ParseError None (Some (title item)))
               (js "Item validation failed: publishedAt must be a valid Date") None
         | Some _ => Return tt
         end.
Proof.
  unfold validate. rewrite !length_zero_nil.
  destruct (decide (trim (title item) = [])) as [Ht|Ht].
  - rewrite (bool_decide_eq_true_2 _ Ht). by rewrite orb_true_r.
  - rewrite (bool_decide_eq_false_2 _ Ht).
    rewrite bool_decide_eq_false_2 by (intros E; by rewrite E in Ht).
    simpl. destruct (decide (trim (link item) = [])) as [Hl|Hl].
    + rewrite (bool_decide_eq_true_2 _ Hl). by rewrite orb_true_r.
    + rewrite (bool_decide_eq_false_2 _ Hl).
      rewrite bool_decide_eq_false_2 by (intros E; by rewrite E in Hl).
      done.
Qed.

Lemma validate_accepts_iff (item : RssItem) :
  validate item = Return tt
  ↔ trim (title item) ≠ [] ∧ trim (link item) ≠ [] ∧ publishedAt item ≠ None.
Proof.
  rewrite validate_outcome.
  destruct (decide (trim (title item) = [])); [split; [done|tauto]|].
  destruct (decide (trim (link item) = [])); [split; [done|tauto]|].
  destruct (publishedAt item); split; try done; tauto.
Qed.

(** X5. An item passes [validate] exactly when its title and its link are
    not empty once trimmed and its date is valid; otherwise [validate]
    throws a parse error that carries the item's title (and no feed URL).
    [isValid] tells which; [validateItems] returns exactly when every item
    passes, and otherwise throws what [validate] throws for the first item
    that does not. *)
Theorem validate_accepts (item : RssItem) :
  (validate item = Return tt
   ↔ trim (title item) ≠ [] ∧ trim (link item) ≠ [] ∧ publishedAt item ≠ None)
  ∧ (∀ t, validate item = Throw t →
       ∃ e, t = ThrownError e ∧ err_class e = ParseError None (Some (title item)))
  ∧ (isValid item = true ↔ validate item = Return tt)
  ∧ (∀ items, validateItems items = Return tt
              ↔ Forall (λ i, validate i = Return tt) items)
  ∧ (∀ items t, validateItems items = Throw t →
       ∃ passed failed rest,
         items = passed ++ failed :: rest
         ∧ Forall (λ i, validate i = Return tt) passed
         ∧ validate failed = Throw t).
Proof.
  split_and!.
  - apply validate_accepts_iff.
  - intros t. rewrite validate_outcome.
    repeat case_decide; try (intros [= <-]; by eexists).
    destruct (publishedAt item); [done|]. intros [= <-]. by eexists.
  - unfold isValid. destruct (validate item) as [[]|]; done.
  - intros items. induction items as [|i items IH]; [done|]. simpl.
    destruct (validate i) as [[]|t] eqn:Hi; simpl.
    + rewrite IH. split; [by constructor|]. by inversion 1.
    + split; [done|]. inversion 1; congruence.
  - intros items. induction items as [|i items IH]; intros t; [done|]. simpl.
    destruct (validate i) as [[]|t'] eqn:Hi; simpl.
    + intros (passed & failed & rest & -> & Hp & Hf)%IH.
      exists (i :: passed), failed, rest. split_and!; [done| |done].
      by constructor.
    + intros [= <-]. by exists [], i, items.
Qed.

(** ** Item identifiers *)

Lemma take_digits_split (d : jsstring) :
  ∃ post, d = take_digits d ++ post
          ∧ forallb is_digit (take_digits d) = true
          ∧ (∀ c, head post = Some c → is_digit c = false).
Proof.
  induction d as [|c r (post & Hr & Hd & Hp)]; [by exists []|]. simpl.
  destruct (is_digit c) eqn:Hc.
  - exists post. simpl. rewrite Hc. split_and!; [by f_equal|done|done].
  - exists (c :: r). split_and!; [done|done|]. by intros ? [= <-].
Qed.

Lemma take_digits_app (id post : jsstring) :
  forallb is_digit id = true → (∀ c, head post = Some c → is_digit c = false) →
  take_digits (id ++ post) = id.
Proof.
  intros Hid Hpost. induction id as [|c r IH]; simpl.
  - destruct post as [|c p]; [done|]. simpl. by rewrite (Hpost c).
  - simpl in Hid. apply andb_true_iff in Hid as [Hc Hr]. rewrite Hc.
    f_equal. by apply IH.
Qed.

Lemma item_id_here_Some (s id : jsstring) :
  item_id_here s = Some id
  ↔ ∃ sep post,
      s = sep :: 112%N :: 61%N :: id ++ post
      ∧ (sep = 63%N ∨ sep = 38%N)
      ∧ id ≠ [] ∧ forallb is_digit id = true
      ∧ (∀ c, head post = Some c → is_digit c = false).
Proof.
  split.
  - destruct s as [|sep [|p [|e d]]]; try done. cbn [item_id_here].
    destruct ((sep =? 63) || (sep =? 38))%N eqn:Hsep; [|done].
    destruct (p =? 112)%N eqn:Hp; [|done].
    destruct (e =? 61)%N eqn:He; [|done]. simpl.
    apply N.eqb_eq in Hp as ->. apply N.eqb_eq in He as ->.
    destruct (take_digits_split d) as (post & Hd & Hall & Hpost).
    destruct (take_digits d) as [|c digits] eqn:Htake; [done|].
    intros [= <-]. exists sep, post. split_and!; try done.
    + by rewrite Hd at 1.
    + apply orb_true_iff in Hsep as [H%N.eqb_eq|H%N.eqb_eq]; auto.
  - intros (sep & post & -> & Hsep & Hne & Hall & Hpost).
    cbn [item_id_here].
    replace ((sep =? 63) || (sep =? 38))%N with true
      by (destruct Hsep as [-> | ->]; done).
    simpl. rewrite take_digits_app by done. by destruct id.
Qed.

Lemma exec_item_id_leftmost (s : jsstring) (id : jsstring) :
  (∃ whole, exec_item_id s = Some [Some whole; Some id])
  ↔ ∃ pre rest,
      s = pre ++ rest ∧ item_id_here rest = Some id
      ∧ ∀ pre' rest', s = pre' ++ rest' → (length pre' < length pre)%nat →
                      item_id_here rest' = None.
Proof.
  revert id. induction s as [|c r IH]; intros id.
  - split; [by intros [? ?]|].
    intros (pre & rest & Hs & Hid & _). symmetry in Hs.
    apply app_eq_nil in Hs as [-> ->]. done.
  - cbn [exec_item_id]. destruct (item_id_here (c :: r)) as [digits|] eqn:Hhere.
    + split.
      * intros [whole [= <- <-]]. exists [], (c :: r). split_and!; [done|done|].
        simpl. intros; lia.
      * intros (pre & rest & Hs & Hid & Hleft).
        destruct pre as [|c' pre].
        -- simpl in Hs. subst rest. rewrite Hhere in Hid. injection Hid as <-.
           by eexists.
        -- assert (item_id_here (c :: r) = None) as Hnone
             by (apply (Hleft [] (c :: r) eq_refl); simpl; lia).
           congruence.
    + rewrite IH. split.
      * intros (pre & rest & -> & Hid & Hleft). exists (c :: pre), rest.
        split_and!; [done|done|]. intros [|c' pre'] rest' Hs Hlen.
        -- simpl in Hs. by subst rest'.
        -- injection Hs as <- Hs. apply (Hleft pre' rest' Hs). simpl in Hlen. lia.
      * intros (pre & rest & Hs & Hid & Hleft). destruct pre as [|c' pre].
        -- simpl in Hs. subst rest. congruence.
        -- injection Hs as <- ->. exists pre, rest. split_and!; [done|done|].
           intros pre' rest' Hs Hlen. apply (Hleft (c :: pre') rest').
           ++ by rewrite Hs.
           ++ simpl. lia.
Qed.

Lemma exec_item_id_shape (s : jsstring) (matched : list (option jsstring)) :
  exec_item_id s = Some matched →
  ∃ whole id, matched = [Some whole; Some id] ∧ id ≠ [].
Proof.
  induction s as [|c r IH]; [done|]. cbn [exec_item_id].
  destruct (item_id_here (c :: r)) as [digits|] eqn:Hhere; [|done].
  intros [= <-]. apply item_id_here_Some in Hhere as (? & ? & _ & _ & Hne & _).
  by eexists _, _.
Qed.

(** X6. With the default pattern [extractItemId] returns [id] exactly when
    the URL reads [?p=] or [&p=], then [id], a run of one or more decimal
    digits that is not followed by another digit, and no earlier place of
    the URL has [?p=] or [&p=] before a digit.  With a pattern of the
    caller's, a pattern that throws or does not match gives nothing. *)
Theorem extractItemId_default_digits (url : jsstring) :
  (∀ id : jsstring,
     extractItemId url None = Some id
     ↔ ∃ pre sep post,
         url = pre ++ sep :: js "p=" ++ id ++ post
         ∧ (sep = 63%N ∨ sep = 38%N)
         ∧ id ≠ [] ∧ forallb is_digit id = true
         ∧ (∀ c, head post = Some c → is_digit c = false)
         ∧ (∀ pre' rest', url = pre' ++ rest' → (length pre' < length pre)%nat →
                          item_id_here rest' = None))
  ∧ (∀ pattern error, pattern url = Throw error →
       extractItemId url (Some pattern) = None)
  ∧ (∀ pattern, pattern url = Return None → extractItemId url (Some pattern) = None).
Proof.
  split_and!.
  - intros id. change (js "p=") with [112%N; 61%N].
    assert (Hexec : extractItemId url None = Some id
                    ↔ ∃ whole, exec_item_id url = Some [Some whole; Some id]).
    { unfold extractItemId. simpl.
      destruct (exec_item_id url) as [matched|] eqn:Hm.
      - apply exec_item_id_shape in Hm as (whole & id' & -> & Hne). simpl.
        destruct id' as [|c g]; [done|]. split.
        + intros [= <-]. by eexists.
        + by intros [? [= <- <-]].
      - split; [done|]. by intros [? ?]. }
    rewrite Hexec, exec_item_id_leftmost. split.
    + intros (pre & rest & -> & Hid & Hleft).
      apply item_id_here_Some in Hid as (sep & post & -> & Hsep & Hne & Hall & Hpost).
      by exists pre, sep, post.
    + intros (pre & sep & post & -> & Hsep & Hne & Hall & Hpost & Hleft).
      exists pre, (sep :: 112%N :: 61%N :: id ++ post). split_and!; [done| |done].
      apply item_id_here_Some. by exists sep, post.
  - intros pattern error Hp. unfold extractItemId. simpl. by rewrite Hp.
  - intros pattern Hp. unfold extractItemId. simpl. by rewrite Hp.
Qed.

(** ** Assembling an item *)



(** ** The default assembler *)

Lemma extractFirstValue_first (value : option (list jsstring)) :
  extractFirstValue value = trim <$> first value.
Proof. by destruct value as [[|x r]|]. Qed.

Lemma truthy_Some (s : option jsstring) (v : jsstring) :
  truthy s = Some v ↔ s = Some v ∧ v ≠ [].
Proof.
  destruct s as [[|c r]|]; simpl.
  - split; [done|]. by intros [[= <-] ?].
  - split; [by intros [= <-]|]. by intros [? _].
  - split; [done|]. by intros [? _].
Qed.

Lemma truthy_None (s : option jsstring) :
  truthy s = None ↔ default [] s = [].
Proof. by destruct s as [[|c r]|]. Qed.

Lemma cleanTitle_trimmed (title : JsValue) (options : option TitleCleanOptions) :
  trim (cleanTitle title options) = cleanTitle title options.
Proof.
  destruct title as [[|c t]|]; try done. unfold cleanTitle.
  by rewrite trim_collapse_ws, trim_idemp.
Qed.

Lemma extractLinks_shape
    (cheerio : jsstring → Completion (list (option jsstring))) (html : JsValue) :
  ∃ links, extractLinks cheerio html = Return links
           ∧ NoDup links ∧ Forall (λ l, l ≠ [] ∧ trim l = l) links.
Proof.
  assert (Hnil : ∃ links : list jsstring,
            Return [] = Return links
            ∧ NoDup links ∧ Forall (λ l, l ≠ [] ∧ trim l = l) links).
  { exists []. split_and!; [done|constructor|constructor]. }
  destruct html as [[|c h]|]; simpl; try done.
  destruct (cheerio (c :: h)) as [hrefs|]; simpl; [|done].
  eexists. split; [done|]. rewrite filter_unseen_keep_unseen. split.
  - rewrite <- (list_fmap_id (keep_unseen id ∅ _)). apply keep_unseen_NoDup.
  - apply Forall_forall. intros l Hl.
    eapply elem_of_sublist in Hl; [|apply keep_unseen_sublist].
    rewrite keep_href_trimmed in Hl.
    apply list_elem_of_filter in Hl as [Hne (href & -> & _)%list_elem_of_fmap].
    split; [done|apply trim_idemp].
Qed.

(** X8. The assembler as [createDefault] builds it.  An entry gives an item
    exactly when the first value of its title, of its link and of its date
    are present and not blank and the [Date] constructor reads a valid date
    in the trimmed date text.  The item then has the trimmed link, which is
    not empty; a valid date; as identifier what [extractItemId] reads in the
    link; links without repetition, none empty, each trimmed; raw content
    that is never the empty string; and a title in the normal form of
    [cleanTitle], which may be empty when the patterns remove all of it:
    the item passes [validate] exactly when its title is not empty. *)
Theorem createDefault_item
    (cheerio : jsstring → Completion (list (option jsstring)))
    (Date_new : jsstring → Completion JsDate)
    (config : option ItemParserConfig)
    (extractMetadata : RawRssItem → list (jsstring * list jsstring))
    (rawItem : RawRssItem) (feedUrl : jsstring) :
  ((∃ item, createDefault cheerio Date_new config extractMetadata rawItem feedUrl
            = Return item)
   ↔ (∃ t, first (raw_title rawItem) = Some t ∧ trim t ≠ [])
     ∧ (∃ l, first (raw_link rawItem) = Some l ∧ trim l ≠ [])
     ∧ (∃ d time, first (raw_pubDate rawItem) = Some d ∧ trim d ≠ []
                  ∧ Date_new (trim d) = Return (Some time)))
  ∧ (∀ item, createDefault cheerio Date_new config extractMetadata rawItem feedUrl
             = Return item →
       Some (link item) = trim <$> first (raw_link rawItem)
       ∧ link item ≠ []
       ∧ publishedAt item ≠ None
       ∧ itemId item = extractItemId (link item) (config ≫= itemIdPattern)
       ∧ NoDup (links item)
       ∧ Forall (λ l, l ≠ [] ∧ trim l = l) (links item)
       ∧ rawContent item ≠ Some []
       ∧ cleanTitle (JsString (title item)) None = title item
       ∧ (validate item = Return tt ↔ title item ≠ [])).
Proof.
  unfold createDefault, parseItem, parseItem_try.
  rewrite !extractFirstValue_first.
  destruct (truthy (trim <$> first (raw_title rawItem))) as [rawTitle|] eqn:Ht.
  2:{ split; [|done]. split; [by intros [? ?]|].
      intros [(t & Ht' & Hne) _]. rewrite Ht' in Ht. simpl in Ht.
      by destruct (trim t). }
  apply truthy_Some in Ht as [Ht Htne].
  cbn [cbind].
  destruct (truthy (trim <$> first (raw_link rawItem))) as [link0|] eqn:Hl.
  2:{ split; [|done]. split; [by intros [? ?]|].
      intros (_ & (l & Hl' & Hne) & _). rewrite Hl' in Hl. simpl in Hl.
      by destruct (trim l). }
  apply truthy_Some in Hl as [Hl Hlne].
  destruct (truthy (trim <$> first (raw_pubDate rawItem))) as [pubDate|] eqn:Hd.
  2:{ split; [|done]. split; [by intros [? ?]|].
      intros (_ & _ & (d & time & Hd' & Hne & _)). rewrite Hd' in Hd. simpl in Hd.
      by destruct (trim d). }
  apply truthy_Some in Hd as [Hd Hdne].
  cbn [cbind].
  destruct (first (raw_title rawItem)) as [t|] eqn:Eqt; [|done].
  destruct (first (raw_link rawItem)) as [l|] eqn:Eql; [|done].
  destruct (first (raw_pubDate rawItem)) as [d|] eqn:Eqd; [|done].
  simpl in Ht, Hl, Hd. injection Ht as <-. injection Hl as <-. injection Hd as <-.
  assert (Hdate : parseDate Date_new (JsString (trim d))
                  = match Date_new (trim d) with
                    | Return (Some time) => Some (Some time)
                    | _ => None
                    end).
  { unfold parseDate. rewrite trim_idemp, length_zero_nil.
    rewrite bool_decide_eq_false_2 by done.
    destruct (trim d); [done|]. by destruct (Date_new _) as [[?|]|]. }
  rewrite Hdate. clear Hdate.
  destruct (Date_new (trim d)) as [[time|]|error] eqn:Hnew.
  2,3: split; [|done]; split; [by intros [? ?]|];
       intros (_ & _ & (? & ? & [= <-] & _ & ?)); congruence.
  set (rawContent0 := default [] _).
  destruct (extractLinks_shape cheerio (JsString rawContent0))
    as (links0 & -> & Hnodup & Hlinks).
  cbn [cbind]. split.
  - split; [|by eexists]. intros _. split_and!; by eauto.
  - intros item [= <-]. cbn [link publishedAt itemId links rawContent title].
    split_and!; try done.
    + destruct rawContent0; done.
    + exact (cleanTitle_fixed (JsString (trim t))
               (Some {| suffixPattern := config ≫= titleSuffixPattern;
                        prefixPattern := config ≫= titlePrefixPattern |})).
    + rewrite validate_accepts_iff. cbn [link publishedAt title].
      change (trim ?x ≠ [] ∧ ?r ↔ ?x ≠ [])
        with (trim (cleanTitle (JsString (trim t))
                      (Some {| suffixPattern := config ≫= titleSuffixPattern;
                               prefixPattern := config ≫= titlePrefixPattern |}))
                ≠ [] ∧ r
              ↔ cleanTitle (JsString (trim t))
                  (Some {| suffixPattern := config ≫= titleSuffixPattern;
                           prefixPattern := config ≫= titlePrefixPattern |}) ≠ []).
      rewrite cleanTitle_trimmed, trim_idemp. split; [tauto|]. by intros ?.
Qed.

(** ** The items of a feed *)

Lemma collected_error_ParseError (rawItem : RawRssItem) (feedUrl : jsstring)
    (error : JsThrown) :
  is_ParseError (collected_error rawItem feedUrl error) = true.
Proof.
  unfold collected_error. destruct error as [e|shown]; [|done].
  by destruct (is_ParseError e) eqn:He.
Qed.

Lemma successes_validated (parseItem : RawRssItem → jsstring → Completion RssItem)
    (rawItems : list RawRssItem) (feedUrl : jsstring) :
  Forall (λ item, validate item = Return tt
                  ∧ ∃ rawItem, rawItem ∈ rawItems
                               ∧ parseItem rawItem feedUrl = Return item)
    (successes parseItem rawItems feedUrl).
Proof.
  apply Forall_forall. intros item. unfold successes.
  rewrite list_elem_of_omap. intros (rawItem & Hin & Hok).
  unfold parse_and_validate in Hok.
  destruct (parseItem rawItem feedUrl) as [item'|] eqn:Hp; [|done]. simpl in Hok.
  destruct (validate item') as [[]|] eqn:Hv; [|done]. simpl in Hok.
  injection Hok as <-. split; [done|]. by exists rawItem.
Qed.

Lemma failures_ParseError (parseItem : RawRssItem → jsstring → Completion RssItem)
    (rawItems : list RawRssItem) (feedUrl : jsstring) :
  Forall (λ e, is_ParseError e = true) (failures parseItem rawItems feedUrl).
Proof.
  apply Forall_forall. intros e. unfold failures.
  rewrite list_elem_of_omap. intros (rawItem & Hin & Hok).
  destruct (parse_and_validate parseItem rawItem feedUrl); [done|].
  injection Hok as <-. apply collected_error_ParseError.
Qed.

Lemma parseItems_throws_ParseError
    (parseItem : RawRssItem → jsstring → Completion RssItem)
    (rawItems : list RawRssItem) (feedUrl : jsstring) :
  (∀ items, parseItems parseItem rawItems feedUrl = Return items →
     items = successes parseItem rawItems feedUrl)
  ∧ (∀ t, parseItems parseItem rawItems feedUrl = Throw t →
       ∃ e, t = ThrownError e ∧ is_ParseError e = true).
Proof.
  unfold parseItems. rewrite parseItems_loop. simpl.
  pose proof (failures_ParseError parseItem rawItems feedUrl) as Hf.
  split.
  - intros items Hitems.
    destruct (successes parseItem rawItems feedUrl) as [|i r]; simpl in Hitems.
    + destruct (failures parseItem rawItems feedUrl); simpl in Hitems; congruence.
    + congruence.
  - intros t Ht.
    destruct (successes parseItem rawItems feedUrl) as [|i r]; simpl in Ht; [|done].
    destruct (failures parseItem rawItems feedUrl) as [|e errors];
      simpl in Ht; [done|].
    injection Ht as <-. exists e. split; [done|]. by inversion Hf.
Qed.

(** X9. Whatever assembler is injected, every item [parseItems] returns was
    assembled from one of the entries and passes [validate] (its title and
    link are not blank and its date is valid), there are at most as many
    items as entries, and what [parseItems] throws is always a parse
    error. *)
Theorem parseItems_returns_validated
    (parseItem : RawRssItem → jsstring → Completion RssItem)
    (rawItems : list RawRssItem) (feedUrl : jsstring) :
  (∀ items, parseItems parseItem rawItems feedUrl = Return items →
     Forall (λ item, trim (title item) ≠ [] ∧ trim (link item) ≠ []
                     ∧ publishedAt item ≠ None
                     ∧ ∃ rawItem, rawItem ∈ rawItems
                                  ∧ parseItem rawItem feedUrl = Return item) items
     ∧ (length items ≤ length rawItems)%nat)
  ∧ (∀ t, parseItems parseItem rawItems feedUrl = Throw t →
       ∃ e, t = ThrownError e ∧ is_ParseError e = true).
Proof.
  destruct (parseItems_throws_ParseError parseItem rawItems feedUrl)
    as [Hreturns Hthrows].
  split; [|exact Hthrows].
  intros items ->%Hreturns.
  pose proof (successes_validated parseItem rawItems feedUrl) as Hs.
  pose proof (successes_failures_length parseItem rawItems feedUrl) as Hlen.
  split; [|lia]. eapply Forall_impl; [exact Hs|]. simpl.
  intros item [Hv Hraw]. apply validate_accepts_iff in Hv. tauto.
Qed.

(** ** The backoff schedule *)


Section RetrySchedule.
Context {W : Type} `{Engine W}.
Context {St T : Type}.

Variable this : RetryOptions.
Variable operation : M W St T.
Variable maxAttempts : Z.
Hypothesis operation_fails : ∀ s c, ∃ t s', operation s c = (Rejected t, s', c).

End RetrySchedule.



(** ** The handle manager *)

Section ManagerMore.
Context {W : Type} `{Engine W}.

Lemma launch_connected (m : BrowserManager) (c : Ctx W) (b : Browser) :
  launching m = false → browser m = Some b →
  browser_isConnected b (world c) = true →
  launch m c = (Resolved b, m, c).
Proof.
  intros Hl Hb Hconn. unfold launch, browser_connected.
  unfold_async. cbn beta iota. by rewrite Hl, Hb, Hconn.
Qed.

Lemma launch_disconnected (m : BrowserManager) (c : Ctx W) :
  launching m = false → manager_isConnected m (world c) = false →
  ∃ a,
    launch_headless a = negb (bool_decide (opt_headless (options m) = Some false))
    ∧ launch_args a
      = [js "--disable-dev-shm-usage"; js "--disable-gpu"]
        ++ (if bool_decide (opt_disableSandbox (options m) = Some true)
            then [js "--no-sandbox"; js "--disable-setuid-sandbox"] else [])
        ++ default [] (opt_args (options m))
    ∧ launch m c =
        (match (puppeteer_launch a (world c)).1 with
         | Return b => Resolved b
         | Throw error =>
             Rejected (ThrownError
                         (MkError (BrowserError (js "launch"))
                            (js "Failed to launch browser: " ++ errorMessage error)
                            (errorCause error)))
         end,
         {| browser := match (puppeteer_launch a (world c)).1 with
                       | Return b => Some b
                       | Throw _ => None
                       end;
            launching := false; options := options m |},
         after_call EvLaunch (puppeteer_launch a (world c)).2 c).
Proof.
  intros Hl Hconn.
  exists {| launch_headless :=
              negb (bool_decide (opt_headless (options m) = Some false));
            launch_args :=
              ([js "--disable-dev-shm-usage"; js "--disable-gpu"]
               ++ (if bool_decide (opt_disableSandbox (options m) = Some true)
                   then [js "--no-sandbox"; js "--disable-setuid-sandbox"] else []))
              ++ default [] (opt_args (options m)) |}.
  split; [done|]. split; [by rewrite <- app_assoc|].
  unfold launch, browser_connected, launch_new, manager_isConnected in *.
  unfold_async. unfold rejectWith, reject. cbn beta iota. rewrite Hl.
  destruct (browser m) as [b|]; [rewrite Hconn|]; cbn beta iota;
    destruct (puppeteer_launch _ (world c)) as [[b'|error] w'];
    reflexivity.
Qed.

Lemma kill_clears (m : BrowserManager) (c : Ctx W) :
  ∃ c', kill m c = (Resolved tt, set_browser None m, c')
        ∧ (browser m = None → c' = c).
Proof.
  unfold kill. unfold_async. cbn beta iota.
  destruct (browser m) as [b|] eqn:Hb.
  - destruct (browser_kill b (world c)) as [[[]|error] w']; simpl;
      eexists; split; done.
  - exists c. split; [|done]. destruct m; simpl in *. by subst.
Qed.

Lemma close_or_kill_trace (m : BrowserManager) (c : Ctx W) :
  ∃ c', try_catch close (λ _, kill) m c = (Resolved tt, set_browser None m, c')
        ∧ trace c' = trace c ++ match browser m with
                                | Some b => [EvClose b]
                                | None => []
                                end.
Proof.
  unfold try_catch. destruct (browser m) as [b|] eqn:Hb.
  - rewrite (close_outcome m c b Hb).
    destruct (browser_close b (world c)) as [[[]|error] w']; simpl.
    + eexists. split; done.
    + destruct (kill_clears (set_browser None m)
                  (after_call (EvClose b) w' c)) as (c' & -> & Hc').
      rewrite Hc' by done. eexists. split; done.
  - rewrite (close_no_browser m c Hb). exists c.
    rewrite app_nil_r. split; [|done]. destruct m; simpl in *. by subst.
Qed.
End ManagerMore.

(** X11. A manager that is not in the middle of a launch either returns the
    connected browser it holds, without a call to the engine, or launches
    exactly one: headless unless the options say [headless: false], with the
    two default arguments, the two sandbox arguments only when
    [disableSandbox] is true, and the caller's arguments last.  A launch
    that succeeds stores the browser; one that fails stores none and rejects
    with a browser error of operation [launch] that carries the cause.  In
    all cases the [launching] flag is off again at the end. *)
Theorem launch_outcomes {W : Type} `{Engine W} (m : BrowserManager) (c : Ctx W) :
  launching m = false →
  (∀ b, browser m = Some b → browser_isConnected b (world c) = true →
        launch m c = (Resolved b, m, c))
  ∧ (manager_isConnected m (world c) = false →
     ∃ a r m' w',
       launch m c = (r, m', after_call EvLaunch w' c)
       ∧ launching m' = false ∧ options m' = options m
       ∧ launch_headless a
         = negb (bool_decide (opt_headless (options m) = Some false))
       ∧ launch_args a
         = [js "--disable-dev-shm-usage"; js "--disable-gpu"]
           ++ (if bool_decide (opt_disableSandbox (options m) = Some true)
               then [js "--no-sandbox"; js "--disable-setuid-sandbox"] else [])
           ++ default [] (opt_args (options m))
       ∧ ((∃ b, puppeteer_launch a (world c) = (Return b, w')
                ∧ r = Resolved b ∧ browser m' = Some b)
          ∨ (∃ error, puppeteer_launch a (world c) = (Throw error, w')
                ∧ r = Rejected
                        (ThrownError
                           (MkError (BrowserError (js "launch"))
                              (js "Failed to launch browser: " ++ errorMessage error)
                              (errorCause error)))
                ∧ browser m' = None))).
Proof.
  intros Hl. split.
  - intros b Hb Hconn. by apply launch_connected.
  - intros Hconn.
    destruct (launch_disconnected m c Hl Hconn) as (a & Hh & Ha & ->).
    exists a. destruct (puppeteer_launch a (world c)) as [[b|error] w'] eqn:Hp;
      simpl; eexists _, _, w'; split_and!; try done.
    + left. by exists b.
    + right. by exists error.
Qed.

(** A manager that holds nothing yet, on an engine whose launches
    succeed. *)
Lemma launch_outcomes_witness :
  launching (newBrowserManager (options stuck_manager)) = false
  ∧ manager_isConnected (newBrowserManager (options stuck_manager))
      (world (sim_ctx sim_world)) = false
  ∧ ∃ a r m' w',
      launch (newBrowserManager (options stuck_manager)) (sim_ctx sim_world)
      = (r, m', after_call EvLaunch w' (sim_ctx sim_world))
      ∧ launching m' = false
      ∧ options m' = options (newBrowserManager (options stuck_manager))
      ∧ launch_headless a = true
      ∧ launch_args a = [js "--disable-dev-shm-usage"; js "--disable-gpu"]
      ∧ r = Resolved 0%nat ∧ browser m' = Some 0%nat.
Proof.
  assert (Hl : launching (newBrowserManager (options stuck_manager)) = false)
    by reflexivity.
  assert (Hc : manager_isConnected (newBrowserManager (options stuck_manager))
                 (world (sim_ctx sim_world)) = false) by reflexivity.
  split; [exact Hl|]. split; [exact Hc|].
  destruct (proj2 (launch_outcomes (newBrowserManager (options stuck_manager))
                     (sim_ctx sim_world) Hl) Hc)
    as (a & r & m' & w' & Hlaunch & Hl' & Ho & Hh & Ha & Hcase).
  exists a, r, m', w'. split_and!; try done.
  - destruct Hcase as [(b & Hp & -> & Hb)|(error & Hp & _)].
    + simpl in Hp. by injection Hp as <- <-.
    + simpl in Hp. discriminate.
  - destruct Hcase as [(b & Hp & -> & Hb)|(error & Hp & _)].
    + simpl in Hp. by injection Hp as <- <-.
    + simpl in Hp. discriminate.
Defined.

(** X12. [close] and [kill] always leave the manager without a browser and
    never stay pending; [kill] never rejects, and [close] rejects only with
    a browser error of operation [close], after a graceful close that threw.
    So in [manager.close().catch(() => manager.kill())], as the pool's
    clean-up runs it, the [kill] that follows a failed [close] finds no
    browser any more: the only call that reaches the engine is the graceful
    close, and no process is ever killed. *)
Theorem close_and_kill_clear {W : Type} `{Engine W} (m : BrowserManager) (c : Ctx W) :
  (∃ r c',
     close m c = (r, set_browser None m, c')
     ∧ r ≠ Pending
     ∧ (∀ t, r = Rejected t →
          ∃ b error,
            browser m = Some b
            ∧ (browser_close b (world c)).1 = Throw error
            ∧ t = ThrownError
                    (MkError (BrowserError (js "close"))
                       (js "Failed to close browser: " ++ errorMessage error)
                       (errorCause error)))
     ∧ (browser m = None → r = Resolved tt ∧ c' = c))
  ∧ (∃ c', kill m c = (Resolved tt, set_browser None m, c')
           ∧ (browser m = None → c' = c))
  ∧ (∃ c', try_catch close (λ _, kill) m c = (Resolved tt, set_browser None m, c')
           ∧ trace c' = trace c ++ match browser m with
                                   | Some b => [EvClose b]
                                   | None => []
                                   end
           ∧ ∀ b, EvKill b ∈ trace c' → EvKill b ∈ trace c).
Proof.
  split_and!.
  - destruct (browser m) as [b|] eqn:Hb.
    + rewrite (close_outcome m c b Hb).
      destruct (browser_close b (world c)) as [[[]|error] w'] eqn:Hclose;
        cbn [fst snd]; eexists _, _; (split; [reflexivity|]);
        split_and!; try done.
      intros t [= <-]. exists b, error.
      split; [reflexivity|]. split; [|reflexivity]. by rewrite ?Hclose.
    + rewrite (close_no_browser m c Hb). exists (Resolved tt), c.
      split_and!; try done. destruct m; simpl in *. by subst.
  - apply kill_clears.
  - destruct (close_or_kill_trace m c) as (c' & Hrun & Htrace).
    exists c'. split_and!; [done|done|].
    intros b. rewrite Htrace, elem_of_app. intros [Hin|Hin]; [done|].
    destruct (browser m); [|by apply elem_of_nil in Hin].
    apply list_elem_of_singleton in Hin. discriminate.
Qed.

(** ** The pool: handing out handles *)

Section PoolMore.
Context {W : Type} `{Engine W}.


(** Recovery replaces the handle where the pool holds it, and nowhere
    else. *)
Lemma recoverBrowser_outcome (b : Browser) (p : BrowserPool) (c : Ctx W) r p' c' :
  recoverBrowser b p c = (r, p', c') →
  initialized p' = initialized p
  ∧ waitQueue p' = waitQueue p
  ∧ poolSize p' = poolSize p
  ∧ (∀ t, r = Rejected t →
       ∃ e, t = ThrownError e ∧ err_class e = BrowserError (js "recover"))
  ∧ (b ∉ availableBrowsers p → availableBrowsers p' = availableBrowsers p)
  ∧ (b ∉ busyBrowsers p → busyBrowsers p' = busyBrowsers p).
Proof.
  unfold recoverBrowser. unfold_async. unfold rejectWith, reject. cbn beta iota.
  destruct (list_find _ (managers p)) as [[i manager]|].
  2:{ intros [= <- <- <-]. split_and!; try done. intros t [= <-]. by eexists. }
  destruct (restart manager c) as [[r0 manager'] c0].
  destruct r0 as [newBrowser|error|]; cbn beta iota.
  - intros [= <- <- <-]. split_and!.
    + by repeat case_match.
    + by repeat case_match.
    + by repeat case_match.
    + done.
    + intros Hb. destruct (list_find (λ x, x = b) (availableBrowsers p))
        as [[availableIndex x]|] eqn:Hfind.
      * apply list_find_Some in Hfind as (Hx & -> & _).
        apply list_elem_of_lookup_2 in Hx. done.
      * simpl. by repeat case_match.
    + intros Hb. simpl. case_decide as Hin; [|by repeat case_match].
      exfalso. apply Hb. revert Hin. by repeat case_match.
  - intros [= <- <- <-]. split_and!; try done. intros t [= <-]. by eexists.
  - intros [= <- <- <-]. split_and!; done.
Qed.

Lemma acquire_rec_step (fuel : nat) (maxRetries attempt : Z)
    (p : BrowserPool) (c : Ctx W) :
  acquire_rec fuel maxRetries attempt p c =
    if negb (initialized p) then (Rejected acquire_uninitialized, p, c)
    else if maxRetries <=? attempt
    then (Rejected (acquire_exhausted maxRetries), p, c)
    else
      match pop (availableBrowsers p) with
      | Some (b, rest) =>
          if browser_isConnected b (world c)
          then (Resolved b,
                set_busy ({[b]} ∪ busyBrowsers p) (set_available rest p),
                {| world := world c; trace := trace c ++ [EvAcquired b];
                   resolvers := resolvers c |})
          else
            let '(r1, p1, c1) := recoverBrowser b (set_available rest p) c in
            match r1 with
            | Resolved _ =>
                match fuel with
                | O => (Pending, p1, c1)
                | S fuel' => acquire_rec fuel' maxRetries (attempt + 1) p1 c1
                end
            | Rejected t => (Rejected t, p1, c1)
            | Pending => (Pending, p1, c1)
            end
      | None => enqueue_waiter p c
      end.
Proof.
  destruct fuel; cbn [acquire_rec]; unfold_async; unfold rejectWith, reject;
    cbn beta iota.
  all: destruct (initialized p); cbn [negb]; [|reflexivity].
  all: destruct (maxRetries <=? attempt); [reflexivity|].
  all: destruct (pop (availableBrowsers p)) as [[b rest]|]; [|reflexivity].
  all: cbn beta iota; cbn [world].
  all: destruct (browser_isConnected b (world c)); [reflexivity|].
  all: destruct (recoverBrowser b (set_available rest p) c) as [[[[]|error|] p1] c1];
    reflexivity.
Qed.

End PoolMore.



(** X14. Taking the last free handle and giving it back.  On a ready pool
    with nobody waiting, [acquire] returns the free handle that was added
    last, if it is connected, and counts it as in use; [release] of that
    handle puts the pool back exactly as it was, and the engine has not been
    called in between. *)
Theorem acquire_release_round_trip {W : Type} `{Engine W}
    (p : BrowserPool) (c : Ctx W) (b : Browser) (rest : list Browser) :
  initialized p = true →
  availableBrowsers p = rest ++ [b] →
  b ∉ busyBrowsers p →
  waitQueue p = [] →
  browser_isConnected b (world c) = true →
  ∃ p1 c1 c2,
    acquire p c = (Resolved b, p1, c1)
    ∧ getStats p1 = {| total := total (getStats p);
                       available := available (getStats p) - 1;
                       inUse := inUse (getStats p) + 1 |}
    ∧ release b p1 c1 = (Resolved tt, p, c2)
    ∧ world c2 = world c
    ∧ trace c2 = trace c ++ [EvAcquired b; EvReleased b].
Proof.
  intros Hi Hav Hfree Hq Hconn.
  eexists _, _, _. split; [by apply (acquire_available p c b rest)|].
  split.
  { unfold getStats. cbn. rewrite Hav, length_app. cbn [length].
    rewrite size_union, size_singleton by (by apply disjoint_singleton_l).
    f_equal; lia. }
  rewrite release_no_waiter; [| done | cbn; set_solver | done ].
  assert (Hback : set_available
                    (availableBrowsers
                       (set_busy ({[b]} ∪ busyBrowsers p) (set_available rest p))
                     ++ [b])
                    (set_busy
                       (busyBrowsers
                          (set_busy ({[b]} ∪ busyBrowsers p) (set_available rest p))
                        ∖ {[b]})
                       (set_busy ({[b]} ∪ busyBrowsers p) (set_available rest p)))
                  = p).
  { destruct p; simpl in *. subst.
    unfold set_available, set_busy. simpl. f_equal.
    apply set_eq. intros x.
    rewrite elem_of_difference, elem_of_union, elem_of_singleton.
    split; [tauto|]. intros Hx. split; [tauto|]. by intros ->. }
  rewrite Hback. split; [reflexivity|]. split; [reflexivity|].
  cbn. by rewrite <- app_assoc.
Qed.

(** The pool of two handles after [initialize]: handle 1 goes out and comes
    back. *)
Lemma acquire_release_round_trip_witness :
  initialized ready_reader_pool.1 = true
  ∧ availableBrowsers ready_reader_pool.1 = [0%nat] ++ [1%nat]
  ∧ (1%nat ∉ busyBrowsers ready_reader_pool.1)
  ∧ waitQueue ready_reader_pool.1 = []
  ∧ browser_isConnected 1%nat (world ready_reader_pool.2) = true
  ∧ ∃ p1 c1 c2,
      acquire ready_reader_pool.1 ready_reader_pool.2 = (Resolved 1%nat, p1, c1)
      ∧ getStats p1 = {| total := total (getStats ready_reader_pool.1);
                         available := available (getStats ready_reader_pool.1) - 1;
                         inUse := inUse (getStats ready_reader_pool.1) + 1 |}
      ∧ release 1%nat p1 c1 = (Resolved tt, ready_reader_pool.1, c2)
      ∧ world c2 = world ready_reader_pool.2
      ∧ trace c2 = trace ready_reader_pool.2 ++ [EvAcquired 1%nat; EvReleased 1%nat].
Proof.
  assert (Hfree : 1%nat ∉ busyBrowsers ready_reader_pool.1).
  { replace (busyBrowsers ready_reader_pool.1) with (∅ : gset Browser)
      by (vm_compute; reflexivity).
    apply not_elem_of_empty. }
  split; [reflexivity|]. split; [reflexivity|]. split; [exact Hfree|].
  split; [reflexivity|]. split; [reflexivity|].
  exact (acquire_release_round_trip ready_reader_pool.1 ready_reader_pool.2
           1%nat [0%nat] eq_refl eq_refl Hfree eq_refl eq_refl).
Defined.

(** ** The pool: taking a dead handle back *)

Section ReleaseDead.
Context {W : Type} `{Engine W}.



End ReleaseDead.



(** ** The pool: start and end *)

Section PoolLifeCycle.
Context {W : Type} `{Engine W}.

Lemma run_each_close_or_kill (ms : list BrowserManager) (c : Ctx W) :
  ∃ c',
    run_each (try_catch close (λ _, kill)) ms c
    = (replicate (length ms) (Resolved tt), set_browser None <$> ms, c')
    ∧ trace c' = trace c ++ (EvClose <$> omap browser ms).
Proof.
  revert c. induction ms as [|m ms IH]; intros c.
  - exists c. by rewrite app_nil_r.
  - cbn [run_each].
    destruct (close_or_kill_trace m c) as (c1 & -> & Htrace1).
    destruct (IH c1) as (c' & -> & Htrace).
    exists c'. split; [done|]. rewrite Htrace, Htrace1, <- app_assoc.
    f_equal. cbn [omap list_omap]. by destruct (browser m).
Qed.

Lemma promise_all_replicate (n : nat) :
  promise_all (replicate n (Resolved tt)) = Resolved (replicate n tt).
Proof.
  unfold promise_all.
  assert (first_rejection (replicate n (Resolved tt)) = None) as ->
    by (induction n; done).
  assert (all_resolved (replicate n (Resolved tt)) = Some (replicate n tt)) as ->;
    [|done].
  induction n as [|n IH]; [done|]. simpl. by rewrite IH.
Qed.

Lemma cleanup_outcome (p : BrowserPool) (c : Ctx W) :
  ∃ c', cleanup p c = (Resolved tt, emptied p, c')
        ∧ trace c' = trace c ++ (EvClose <$> omap browser (managers p)).
Proof.
  unfold cleanup. unfold bind at 1, modify at 1.
  unfold bind at 1, all_managers.
  destruct (run_each_close_or_kill (managers (set_waitQueue [] p)) c)
    as (c' & -> & Htrace).
  rewrite promise_all_replicate. unfold modify. by exists c'.
Qed.


End PoolLifeCycle.

(** X15. [close] of the pool does nothing on a pool that is not
    initialized.  On an initialized one it always succeeds and leaves the
    pool empty: no managers, no free handles, none in use, nobody in the
    wait queue, not initialized.  It asks every browser still held by a
    manager to close, once and in manager order, and makes no other call: a
    waiting caller is dropped from the queue without ever being given a
    handle, and a browser whose close throws is not killed. *)
Theorem pool_close_empties {W : Type} `{Engine W} (p : BrowserPool) (c : Ctx W) :
  (initialized p = false → pool_close p c = (Resolved tt, p, c))
  ∧ (initialized p = true →
     ∃ c', pool_close p c = (Resolved tt, emptied p, c')
           ∧ trace c' = trace c ++ (EvClose <$> omap browser (managers p))
           ∧ getStats (emptied p)
             = {| total := poolSize p; available := 0; inUse := 0 |}
           ∧ ∀ b, acquire (emptied p) c' = (Rejected acquire_uninitialized, emptied p, c')
                  ∧ release b (emptied p) c'
                    = (Rejected release_uninitialized, emptied p, c')).
Proof.
  unfold pool_close, bind, get. split; intros Hi; rewrite Hi; cbn [negb]; [done|].
  destruct (cleanup_outcome p c) as (c' & -> & Htrace).
  exists c'. split_and!; done.
Qed.



(** ** Fetching a feed *)

Section FetchMore.
Context {W : Type} `{Engine W}.

Lemma fetch_catch_outcome {St} (feedUrl : jsstring) (error : JsThrown)
    (s : St) (c : Ctx W) :
  ∃ e, fetch_catch feedUrl error s c = (Rejected (ThrownError e), s, c)
       ∧ is_FeedFetchError e = true.
Proof.
  unfold fetch_catch, rejectWith, reject.
  destruct error as [e|shown]; [destruct (is_FeedFetchError e) eqn:He|];
    by eexists.
Qed.

Lemma fetch_page_outcome {St} (feedUrl : jsstring) (page : Page) (fetchTimeout : Z)
    (s : St) (c : Ctx W) :
  ∃ r c' events,
    fetch_page feedUrl page fetchTimeout s c = (r, s, c')
    ∧ trace c' = trace c ++ EvPageTimeouts page fetchTimeout :: events
    ∧ r ≠ Pending
    ∧ (∀ content, r = Resolved content →
         trim content ≠ []
         ∧ events = [EvGoto page feedUrl]
         ∧ ∃ response w1 w2,
             page_goto page feedUrl fetchTimeout w1 = (Return (Some response), w2)
             ∧ 200 ≤ status response < 400
             ∧ text response = Return content).
Proof.
  unfold fetch_page. unfold_async. unfold rejectWith, reject. cbn beta iota.
  destruct (page_setDefaultTimeouts page fetchTimeout (world c))
    as [[[]|error] w1] eqn:Hset; cbn.
  2:{ eexists _, _, []. split_and!; done. }
  destruct (page_goto page feedUrl fetchTimeout w1)
    as [[[response|]|error] w2] eqn:Hgoto; cbn.
  2,3: eexists _, _, [_]; split_and!; try done; by rewrite <- app_assoc.
  destruct ((status response <? 200) || (400 <=? status response)) eqn:Hstatus.
  { eexists _, _, [_]. split_and!; try done. by rewrite <- app_assoc. }
  apply orb_false_iff in Hstatus as [Hlow%Z.ltb_ge Hhigh%Z.leb_gt].
  destruct (text response) as [content|error] eqn:Htext; cbn.
  2:{ eexists _, _, [_]. split_and!; try done. by rewrite <- app_assoc. }
  rewrite length_zero_nil.
  destruct (bool_decide (content = []) || bool_decide (trim content = []))
    eqn:Hblank.
  { eexists _, _, [_]. split_and!; try done. by rewrite <- app_assoc. }
  apply orb_false_iff in Hblank as [_ Htrim%bool_decide_eq_false].
  eexists _, _, [_]. split_and!; try done; [by rewrite <- app_assoc|].
  intros ? [= <-]. split_and!; try done. by exists response, w1, w2.
Qed.

Lemma fetchFeed_cases {St : Type}
    (feedUrl : jsstring) (b : Browser) (timeout : option Z)
    (s : St) (c : Ctx W) :
  ∃ r c',
    fetchFeed feedUrl b timeout s c = (r, s, c')
    ∧ r ≠ Pending
    ∧ (∀ t, r = Rejected t → ∃ e, t = ThrownError e ∧ is_FeedFetchError e = true)
    ∧ (∀ content, r = Resolved content →
         is_http_url feedUrl = true ∧ trim content ≠ []
         ∧ ∃ page response w1 w2,
             page_goto page feedUrl (default 30000 timeout) w1
             = (Return (Some response), w2)
             ∧ 200 ≤ status response < 400
             ∧ text response = Return content)
    ∧ (is_http_url feedUrl = false → c' = c)
    ∧ (is_http_url feedUrl = true →
       ∀ page w1, browser_newPage b (world c) = (Return page, w1) →
         ∃ events,
           trace c' = trace c ++ [EvNewPage b;
                                  EvPageTimeouts page (default 30000 timeout)]
                      ++ events ++ [EvPageClose page]).
Proof.
  unfold fetchFeed, rejectWith, reject.
  destruct (bool_decide (feedUrl = [])) eqn:Hempty.
  { apply bool_decide_eq_true in Hempty as ->. eexists _, c.
    split; [reflexivity|]. split_and!; try done.
    intros t [= <-]. by eexists. }
  destruct (is_http_url feedUrl) eqn:Hurl; cbn [negb].
  2:{ eexists _, c. split; [reflexivity|]. split_and!; try done.
      intros t [= <-]. by eexists. }
  unfold call at 1.
  destruct (browser_newPage b (world c)) as [[page|error] w1]; cbn [settle].
  2:{ destruct (fetch_catch_outcome feedUrl error s
                  {| world := w1; trace := trace c ++ [EvNewPage b];
                     resolvers := resolvers c |}) as (e & -> & He).
      eexists _, _. split; [reflexivity|]. split_and!; try done.
      intros t [= <-]. by eexists. }
  unfold try_finally, try_catch at 1.
  destruct (fetch_page_outcome feedUrl page (default DEFAULT_TIMEOUT timeout) s
              {| world := w1; trace := trace c ++ [EvNewPage b];
                 resolvers := resolvers c |})
    as (r & c1 & events & -> & Htrace & Hsettled & Hcontent).
  assert (Hclose : ∃ c2,
            try_catch (call (EvPageClose page) (page_close page)) (λ _, ret tt)
              s c1 = (Resolved tt, s, c2)
            ∧ trace c2 = trace c1 ++ [EvPageClose page]).
  { unfold try_catch, call, ret.
    destruct (page_close page (world c1)) as [[[]|error] w2]; cbn;
      by eexists. }
  destruct r as [content|error|]; [| |done]; cbn beta iota.
  - destruct Hclose as (c2 & -> & Htrace2). eexists _, c2.
    split; [reflexivity|]. split_and!; try done.
    + intros ? [= <-]. destruct (Hcontent content eq_refl)
        as (Htrim & _ & response & w1' & w2' & Hgoto & Hstatus & Htext).
      split_and!; try done. by exists page, response, w1', w2'.
    + intros _ page' w1' [= <- <-]. exists events.
      rewrite Htrace2, Htrace. cbn. by rewrite <- !app_assoc.
  - destruct (fetch_catch_outcome feedUrl error s c1) as (e & -> & He).
    destruct Hclose as (c2 & Hclose & Htrace2).
    assert (Hclose' : ∃ c2',
              try_catch (call (EvPageClose page) (page_close page)) (λ _, ret tt)
                s c1 = (Resolved tt, s, c2')
              ∧ trace c2' = trace c1 ++ [EvPageClose page]) by by exists c2.
    clear Hclose Htrace2. destruct Hclose' as (c2' & -> & Htrace2).
    eexists _, c2'. split; [reflexivity|]. split_and!; try done.
    + intros t [= <-]. by eexists.
    + intros _ page' w1' [= <- <-]. exists events.
      rewrite Htrace2, Htrace. cbn. by rewrite <- !app_assoc.
Qed.
End FetchMore.

(** X17. [fetchFeed] never stays pending and rejects with fetch errors
    only.  It resolves only for an [http] or [https] URL, with the text of a
    response whose status is at least 200 and below 400, and that text is
    not blank.  Once the page is open, the time limits are set first, to the
    given timeout or to 30 seconds, and the page is closed last, whatever
    happened in between, even when closing throws. *)
Theorem fetchFeed_outcomes {W : Type} `{Engine W} {St : Type}
    (feedUrl : jsstring) (b : Browser) (timeout : option Z)
    (s : St) (c : Ctx W) :
  ∃ r c',
    fetchFeed feedUrl b timeout s c = (r, s, c')
    ∧ r ≠ Pending
    ∧ (∀ t, r = Rejected t → ∃ e, t = ThrownError e ∧ is_FeedFetchError e = true)
    ∧ (∀ content, r = Resolved content →
         is_http_url feedUrl = true ∧ trim content ≠ []
         ∧ ∃ page response w1 w2,
             page_goto page feedUrl (default 30000 timeout) w1
             = (Return (Some response), w2)
             ∧ 200 ≤ status response < 400
             ∧ text response = Return content)
    ∧ (is_http_url feedUrl = false → c' = c)
    ∧ (is_http_url feedUrl = true →
       ∀ page w1, browser_newPage b (world c) = (Return page, w1) →
         ∃ events,
           trace c' = trace c ++ [EvNewPage b;
                                  EvPageTimeouts page (default 30000 timeout)]
                      ++ events ++ [EvPageClose page]).
Proof.
  destruct (fetchFeed_cases feedUrl b timeout s c)
    as (r & c' & Hrun & Hsettled & Hrejected & Hresolved & Hscheme & Hpage).
  exists r, c'. split; [exact Hrun|]. split; [exact Hsettled|].
  split; [exact Hrejected|]. split; [exact Hresolved|].
  split; [exact Hscheme|exact Hpage].
Qed.

(** ** Fetching with a user agent *)

(** X22. [fetchFeedWithUserAgent] gives the guarantees of [fetchFeed] about
    what it returns and throws (it always settles, rejects with fetch errors
    only, resolves only with the non-blank text of a response whose status
    is at least 200 and below 400, and closes the page it opened last), but
    it does not test the URL: whatever the URL, even an empty one or one
    that is not [http] or [https], a page is opened, where [fetchFeed]
    rejects such a URL without a call.  For an [http] or [https] URL, and an
    engine on which setting the user agent succeeds and changes nothing,
    the two functions do the same. *)
Theorem fetchFeedWithUserAgent_outcomes {W : Type} `{Engine W} {St : Type}
    (page_setUserAgent : Page → jsstring → W → Completion unit * W)
    (feedUrl : jsstring) (b : Browser) (userAgent : jsstring)
    (timeout : option Z) (s : St) (c : Ctx W) :
  (∃ r c' events,
     fetchFeedWithUserAgent page_setUserAgent feedUrl b userAgent timeout s c
     = (r, s, c')
     ∧ r ≠ Pending
     ∧ (∀ t, r = Rejected t → ∃ e, t = ThrownError e ∧ is_FeedFetchError e = true)
     ∧ (∀ content, r = Resolved content →
          trim content ≠ []
          ∧ ∃ page response w1 w2,
              page_goto page feedUrl (default 30000 timeout) w1
              = (Return (Some response), w2)
              ∧ 200 ≤ status response < 400
              ∧ text response = Return content)
     ∧ trace c' = trace c ++ EvNewPage b :: events
     ∧ (∀ page w1, browser_newPage b (world c) = (Return page, w1) →
          last events = Some (EvPageClose page)))
  ∧ (is_http_url feedUrl = false →
     fetchFeed feedUrl b timeout s c = (Rejected (scheme_error feedUrl), s, c))
  ∧ (is_http_url feedUrl = true →
     (∀ page w, page_setUserAgent page userAgent w = (Return tt, w)) →
     fetchFeedWithUserAgent page_setUserAgent feedUrl b userAgent timeout s c
     = fetchFeed feedUrl b timeout s c).
Proof.
  split_and!.
  - unfold fetchFeedWithUserAgent. unfold call at 1.
    destruct (browser_newPage b (world c)) as [[page|error] w1]; cbn [settle].
    2:{ destruct (fetch_catch_outcome feedUrl error s
                    {| world := w1; trace := trace c ++ [EvNewPage b];
                       resolvers := resolvers c |}) as (e & -> & He).
        eexists _, _, []. split; [reflexivity|]. split_and!; try done.
        intros t [= <-]. by eexists. }
    unfold try_finally, try_catch at 1, bind, setUserAgent.
    cbn [world trace resolvers].
    assert (Hclose : ∀ c1 : Ctx W, ∃ c2,
              try_catch (call (EvPageClose page) (page_close page)) (λ _, ret tt)
                s c1 = (Resolved tt, s, c2)
              ∧ trace c2 = trace c1 ++ [EvPageClose page]).
    { intros c1. unfold try_catch, call, ret.
      destruct (page_close page (world c1)) as [[[]|error] w2]; cbn;
        by eexists. }
    destruct (page_setUserAgent page userAgent w1) as [[[]|error] w2];
      cbn [settle].
    + destruct (fetch_page_outcome feedUrl page (default DEFAULT_TIMEOUT timeout) s
                  {| world := w2; trace := trace c ++ [EvNewPage b];
                     resolvers := resolvers c |})
        as (r & c1 & events & -> & Htrace & Hsettled & Hcontent).
      destruct r as [content|error|]; [| |done]; cbn beta iota.
      * destruct (Hclose c1) as (c2 & -> & Htrace2).
        eexists _, c2, (_ :: events ++ [EvPageClose page]).
        split; [reflexivity|]. split_and!; try done.
        -- intros ? [= <-]. destruct (Hcontent content eq_refl)
             as (Htrim & _ & response & w1' & w2' & Hgoto & Hstatus & Htext).
           split; [done|]. by exists page, response, w1', w2'.
        -- rewrite Htrace2, Htrace. cbn. by rewrite <- !app_assoc.
        -- intros page' w1' [= <- <-]. by rewrite last_cons, last_snoc.
      * destruct (fetch_catch_outcome feedUrl error s c1) as (e & -> & He).
        destruct (Hclose c1) as (c2 & -> & Htrace2).
        eexists _, c2, (_ :: events ++ [EvPageClose page]).
        split; [reflexivity|]. split_and!; try done.
        -- intros t [= <-]. by eexists.
        -- rewrite Htrace2, Htrace. cbn. by rewrite <- !app_assoc.
        -- intros page' w1' [= <- <-]. by rewrite last_cons, last_snoc.
    + destruct (fetch_catch_outcome feedUrl error s
                  {| world := w2; trace := trace c ++ [EvNewPage b];
                     resolvers := resolvers c |}) as (e & -> & He).
      destruct (Hclose {| world := w2; trace := trace c ++ [EvNewPage b];
                          resolvers := resolvers c |}) as (c2 & -> & Htrace2).
      eexists _, c2, [EvPageClose page].
      split; [reflexivity|]. split_and!; try done.
      * intros t [= <-]. by eexists.
      * rewrite Htrace2. cbn. by rewrite <- !app_assoc.
      * by intros page' w1' [= <- <-].
  - intros Hurl. by apply fetchFeed_rejects_scheme.
  - intros Hurl Hagent. unfold fetchFeedWithUserAgent, fetchFeed.
    rewrite Hurl. cbn [negb].
    rewrite bool_decide_eq_false_2 by (by intros ->).
    unfold call at 1 3.
    destruct (browser_newPage b (world c)) as [[page|error] w1]; cbn [settle];
      [|done].
    unfold try_finally, try_catch at 1 3, bind, setUserAgent.
    cbn [world trace resolvers].
    by rewrite Hagent.
Qed.

(** ** The whole call *)

Section ReaderMore.
Context {W : Type} `{Engine W}.

Lemma acquire_rec_rejects (fuel : nat) :
  ∀ maxRetries attempt (p : BrowserPool) (c : Ctx W) t p' c',
    acquire_rec fuel maxRetries attempt p c = (Rejected t, p', c') →
    ∃ e, t = ThrownError e ∧ is_BrowserError e = true.
Proof.
  induction fuel as [|fuel IH]; intros maxRetries attempt p c t p' c';
    rewrite acquire_rec_step.
  all: destruct (negb (initialized p)); [intros [= <- _ _]; by eexists|].
  all: destruct (maxRetries <=? attempt); [intros [= <- _ _]; by eexists|].
  all: destruct (pop (availableBrowsers p)) as [[b rest]|]; [|done].
  all: destruct (browser_isConnected b (world c)); [done|].
  all: destruct (recoverBrowser b (set_available rest p) c) as [[r1 p1] c1] eqn:Hrec.
  all: apply recoverBrowser_outcome in Hrec as (_ & _ & _ & Herr & _).
  all: destruct r1 as [[]|error|]; [|intros [= <- _ _]|done].
  all: try (destruct (Herr error eq_refl) as (e & -> & He);
            exists e; split; [done|]; unfold is_BrowserError; by rewrite He).
  - done.
  - apply IH.
Qed.

Lemma acquire_resolves_initialized (p : BrowserPool) (c : Ctx W) b p' c' :
  acquire p c = (Resolved b, p', c') → initialized p = true.
Proof.
  unfold acquire, acquire_with. rewrite acquire_rec_step.
  by destruct (initialized p).
Qed.

Lemma release_rejects (b : Browser) (p : BrowserPool) (c : Ctx W) t p' c' :
  release b p c = (Rejected t, p', c') →
  ∃ e, t = ThrownError e ∧ is_BrowserError e = true.
Proof.
  destruct (initialized p) eqn:Hi.
  2:{ rewrite release_not_initialized by done. intros [= <- _ _]. by eexists. }
  destruct (decide (b ∈ busyBrowsers p)) as [Hbusy|Hbusy].
  2:{ rewrite release_not_busy by done. intros [= <- _ _]. by eexists. }
  destruct (waitQueue p) as [|resolve rest] eqn:Hq.
  { by rewrite release_no_waiter. }
  destruct (browser_isConnected b (world c)) eqn:Hconn.
  { by rewrite (release_hand_off b p c resolve rest). }
  unfold release. unfold_async. unfold rejectWith, reject. cbn beta iota.
  rewrite Hi. cbn [negb]. rewrite decide_False by (by intros Hn; apply Hn).
  cbn [waitQueue set_busy]. rewrite Hq. cbn beta iota. cbn [world].
  rewrite Hconn.
  destruct (recoverBrowser b _ _) as [[r1 p1] c1] eqn:Hrec.
  apply recoverBrowser_outcome in Hrec as (_ & _ & _ & Herr & _).
  destruct r1 as [[]|error|]; [|intros [= <- _ _]|done].
  2:{ destruct (Herr error eq_refl) as (e & -> & He).
      exists e. split; [done|]. unfold is_BrowserError. by rewrite He. }
  destruct (acquire p1 c1) as [[r2 p2] c2] eqn:Hacq.
  destruct r2 as [workingBrowser|error|]; [done| |done].
  intros [= <- _ _]. unfold acquire, acquire_with in Hacq.
  by apply acquire_rec_rejects in Hacq.
Qed.

Lemma fetch_attempt_outcome (this : RssReader) (feedUrl : jsstring)
    (p : BrowserPool) (c : Ctx W) r p' c' :
  fetch_attempt this feedUrl p c = (r, p', c') →
  (∀ t, r = Rejected t →
     ∃ e, t = ThrownError e
          ∧ (is_BrowserError e = true ∨ is_FeedFetchError e = true))
  ∧ (∀ xml, r = Resolved xml → is_http_url feedUrl = true ∧ trim xml ≠ []).
Proof.
  unfold fetch_attempt. unfold bind.
  destruct (acquire p c) as [[r0 p0] c0] eqn:Hacq.
  destruct r0 as [b|error|].
  2:{ intros [= <- _ _]. split; [|done]. intros t [= <-].
      unfold acquire, acquire_with in Hacq.
      apply acquire_rec_rejects in Hacq as (e & -> & He). exists e. auto. }
  2:{ intros [= <- _ _]. split; done. }
  unfold try_finally.
  destruct (fetchFeed_cases feedUrl b (Some (timeout (config this))) p0 c0)
    as (r1 & c1 & -> & Hsettled & Hrej & Hres & _).
  destruct (release b p0 c1) as [[r2 p2] c2] eqn:Hrel.
  destruct r1 as [xml|error|]; [| |done].
  - destruct r2 as [[]|error|].
    + intros [= <- _ _]. split; [done|]. intros ? [= <-].
      destruct (Hres xml eq_refl) as (Hurl & Htrim & _). done.
    + intros [= <- _ _]. split; [|done]. intros t [= <-].
      apply release_rejects in Hrel as (e & -> & He). exists e. auto.
    + intros [= <- _ _]. split; done.
  - destruct r2 as [[]|error2|].
    + intros [= <- _ _]. split; [|done]. intros t [= <-].
      destruct (Hrej error eq_refl) as (e & -> & He). exists e. auto.
    + intros [= <- _ _]. split; [|done]. intros t [= <-].
      apply release_rejects in Hrel as (e & -> & He). exists e. auto.
    + intros [= <- _ _]. split; done.
Qed.

(** The call ends with one run of the operation, whose outcome it
    returns. *)
Lemma executeWithRetry_last_attempt {St T} (this : RetryOptions)
    (operation : M W St T) (maxAttempts : Z) (s : St) (c : Ctx W) :
  1 ≤ maxAttempts →
  ∃ s1 c1 r s2 c2,
    operation s1 c1 = (r, s2, c2)
    ∧ executeWithRetry this operation maxAttempts s c =
        (match r with
         | Rejected e => Rejected (ThrownError (asError e))
         | _ => r
         end, s2, c2).
Proof.
  intros Hmax.
  destruct (failed_attempts_end this operation (Z.to_nat maxAttempts - 1)
              (initialDelay this) s c)
    as (k & s1 & c1 & r & s2 & c2 & Hk & Hfail & Hop & Hlast).
  exists s1, c1, r, s2, c2. split; [done|].
  unfold executeWithRetry. rewrite (proj2 (Z.ltb_ge _ _)) by lia.
  rewrite (retry_loop_settles this operation maxAttempts k _ _ _ _ _ _
             s1 c1 r s2 c2) by (done || lia).
  destruct r as [v|e|]; [done| |done].
  assert (k = (Z.to_nat maxAttempts - 1)%nat) as -> by (apply Hlast; eauto).
  by rewrite (proj2 (Z.eqb_eq _ _)) by lia.
Qed.

Variable parseString : jsstring → Completion FeedData.
Variable parseItem : RawRssItem → jsstring → Completion RssItem.

Lemma fetchAndParse_steps (this : RssReader) (url : jsstring)
    (p : BrowserPool) (c : Ctx W) :
  initialized p = true →
  fetchAndParse parseString parseItem this url p c =
    let '(fetched, p', c') :=
      executeWithRetry (retryHandler this) (fetch_attempt this url)
        (retryAttempts (config this)) p c in
    match fetched with
    | Resolved xml =>
        match parseString xml with
        | Return feedData =>
            match extractRawItems feedData url with
            | Return rawItems =>
                match parseItems parseItem rawItems url with
                | Return items =>
                    (Resolved {| feed_title := extractFeedTitle feedData;
                                 feedUrl := url;
                                 description := extractFeedDescription feedData;
                                 items := deduplicateItems items;
                                 fetchedAt := Some (clock_now (world c')) |},
                     p', c')
                | Throw t => (Rejected t, p', c')
                end
            | Throw t => (Rejected t, p', c')
            end
        | Throw err =>
            (Rejected (ThrownError
                         (MkError (InvalidFeedError url)
                            (js "Failed to parse XML: " ++ errorMessage err)
                            (errorCause err))), p', c')
        end
    | Rejected t => (Rejected t, p', c')
    | Pending => (Pending, p', c')
    end.
Proof.
  intros Hi. unfold fetchAndParse, isInitialized. unfold bind at 1, get.
  rewrite Hi. cbn [negb]. unfold bind at 1.
  destruct (executeWithRetry _ _ _ p c) as [[[xml|t|] p'] c']; try done.
  unfold bind at 1, parseXml, rejectWith, reject, ret.
  destruct (parseString xml) as [feedData|err]; [|done].
  unfold bind at 1, lift.
  destruct (extractRawItems feedData url) as [rawItems|t]; [|done]. cbn [settle].
  unfold bind.
  by destruct (parseItems parseItem rawItems url) as [items0|t].
Qed.

Lemma feed_fields (feedData : FeedData) :
  extractFeedTitle feedData ≠ [] ∧ extractFeedDescription feedData ≠ Some [].
Proof.
  unfold extractFeedTitle, extractFeedDescription. split.
  - destruct (truthy (first (first_channel feedData ≫= channel_title)))
      as [t|] eqn:Ht; [by apply truthy_Some in Ht as [_ ?]|].
    destruct (truthy (first (feed feedData ≫= atom_title)))
      as [t|] eqn:Ht'; [by apply truthy_Some in Ht' as [_ ?]|]. done.
  - destruct (truthy (first (first_channel feedData ≫= channel_description)))
      as [t|] eqn:Ht; [apply truthy_Some in Ht as [_ ?]; congruence|].
    destruct (truthy (first (feed feedData ≫= atom_subtitle)))
      as [t|] eqn:Ht'; [apply truthy_Some in Ht' as [_ ?]; congruence|]. done.
Qed.


Lemma deduplicateItems_shape (items0 : list RssItem) :
  NoDup (link <$> deduplicateItems items0)
  ∧ sublist (deduplicateItems items0) items0
  ∧ (items0 ≠ [] → deduplicateItems items0 ≠ []).
Proof.
  unfold deduplicateItems. rewrite deduplicate_loop_keep_unseen. cbn [app].
  split_and!.
  - apply keep_unseen_NoDup.
  - apply keep_unseen_sublist.
  - destruct items0 as [|item rest]; [done|]. intros _. cbn [keep_unseen].
    rewrite decide_False by apply not_elem_of_empty. done.
Qed.
End ReaderMore.

(** X18. What a feed returned by [fetchAndParse] is.  The pool was
    initialized, at least one attempt was allowed, the URL is an [http] or
    [https] one and the document fetched was not blank.  The feed carries
    the URL it was asked for, a title that is not empty, a description that
    is absent rather than empty, and the time of the clock at the end.  Its
    items have pairwise distinct links; each was assembled from an entry of
    the document and has a title and a link that are not blank and a valid
    date.  If the document had entries, the feed has at least one item. *)
Theorem fetchAndParse_feed {W : Type} `{Engine W}
    (parseString : jsstring → Completion FeedData)
    (parseItem : RawRssItem → jsstring → Completion RssItem)
    (this : RssReader) (url : jsstring) (p : BrowserPool) (c : Ctx W)
    (result : RssFeed) (p' : BrowserPool) (c' : Ctx W) :
  fetchAndParse parseString parseItem this url p c = (Resolved result, p', c') →
  feedUrl result = url
  ∧ is_http_url url = true
  ∧ initialized p = true
  ∧ 1 ≤ retryAttempts (config this)
  ∧ feed_title result ≠ []
  ∧ description result ≠ Some []
  ∧ fetchedAt result = Some (clock_now (world c'))
  ∧ NoDup (link <$> items result)
  ∧ Forall (λ item, trim (title item) ≠ [] ∧ trim (link item) ≠ []
                    ∧ publishedAt item ≠ None
                    ∧ ∃ rawItem, parseItem rawItem url = Return item)
      (items result)
  ∧ ∃ xml feedData rawItems,
      trim xml ≠ []
      ∧ parseString xml = Return feedData
      ∧ extractRawItems feedData url = Return rawItems
      ∧ Forall (λ item, ∃ rawItem, rawItem ∈ rawItems
                                   ∧ parseItem rawItem url = Return item)
          (items result)
      ∧ (rawItems ≠ [] → items result ≠ []).
Proof.
  intros Hrun.
  assert (Hi : initialized p = true).
  { destruct (initialized p) eqn:Hi; [done|].
    revert Hrun. unfold fetchAndParse, isInitialized. unfold bind at 1, get.
    by rewrite Hi. }
  rewrite fetchAndParse_steps in Hrun by done.
  assert (Hmax : 1 ≤ retryAttempts (config this)).
  { destruct (Z.le_gt_cases 1 (retryAttempts (config this))) as [|Hlt]; [done|].
    revert Hrun. unfold executeWithRetry.
    by rewrite (proj2 (Z.ltb_lt _ _)) by lia. }
  destruct (executeWithRetry_last_attempt (retryHandler this)
              (fetch_attempt this url) (retryAttempts (config this)) p c Hmax)
    as (p1 & c1 & r & p2 & c2 & Hop & Hexec).
  rewrite Hexec in Hrun.
  destruct r as [xml|t|]; [| done | done].
  apply fetch_attempt_outcome in Hop as [_ Hxml].
  destruct (Hxml xml eq_refl) as [Hurl Htrim].
  destruct (parseString xml) as [feedData|err] eqn:Hparse; [|done].
  destruct (extractRawItems feedData url) as [rawItems|t] eqn:Hraw; [|done].
  destruct (parseItems parseItem rawItems url) as [items0|t] eqn:Hitems; [|done].
  injection Hrun as <- <- <-.
  cbn [feedUrl feed_title description fetchedAt items].
  destruct (feed_fields feedData) as [Htitle Hdesc].
  destruct (deduplicateItems_shape items0) as (Hnodup & Hsub & Hne).
  assert (Hvalid : Forall (λ item, trim (title item) ≠ [] ∧ trim (link item) ≠ []
                                   ∧ publishedAt item ≠ None
                                   ∧ ∃ rawItem, rawItem ∈ rawItems
                                       ∧ parseItem rawItem url = Return item)
                     (deduplicateItems items0)).
  { assert (Hall : Forall (λ item, trim (title item) ≠ [] ∧ trim (link item) ≠ []
                                   ∧ publishedAt item ≠ None
                                   ∧ ∃ rawItem, rawItem ∈ rawItems
                                       ∧ parseItem rawItem url = Return item)
                     items0).
    { revert Hitems. unfold parseItems. rewrite parseItems_loop. cbn [app].
      pose proof (successes_validated parseItem rawItems url) as Hs.
      destruct ((Z.of_nat (length (successes parseItem rawItems url)) =? 0)
                && (0 <? Z.of_nat (length (failures parseItem rawItems url))));
        [by destruct (failures parseItem rawItems url !! 0%nat)|].
      intros [= <-]. eapply Forall_impl; [exact Hs|]. simpl.
      intros item [Hv Hfrom]. apply validate_accepts_iff in Hv. tauto. }
    apply Forall_forall. intros item Hin.
    eapply elem_of_sublist in Hin; [|exact Hsub].
    by eapply Forall_forall in Hall. }
  split_and!; try done.
  - eapply Forall_impl; [exact Hvalid|]. simpl.
    intros item (? & ? & ? & rawItem & _ & ?). split_and!; try done.
    by exists rawItem.
  - exists xml, feedData, rawItems. split_and!; try done.
    + eapply Forall_impl; [exact Hvalid|]. simpl. tauto.
    + intros Hraw_ne. apply Hne. revert Hitems.
      unfold parseItems. rewrite parseItems_loop. cbn [app].
      pose proof (successes_failures_length parseItem rawItems url) as Hlen.
      destruct (successes parseItem rawItems url) as [|i r] eqn:Hs.
      * destruct (failures parseItem rawItems url) as [|e errors] eqn:Hf.
        -- destruct rawItems; [done|]. cbn in Hlen. lia.
        -- done.
      * by intros [= <-].
Qed.


(** The sample document on the scripted engine: entries one and three, the
    second having a date that cannot be read. *)
Lemma fetchAndParse_feed_witness :
  ∃ result p' c',
    fetchAndParse sample_xml sample_parseItem sample_reader
      (js "https://example.com/feed") ready_reader_pool.1 ready_reader_pool.2
    = (Resolved result, p', c')
    ∧ title <$> items result = [js "one"; js "three"]
    ∧ feedUrl result = js "https://example.com/feed"
    ∧ is_http_url (js "https://example.com/feed") = true
    ∧ initialized ready_reader_pool.1 = true
    ∧ 1 ≤ retryAttempts (config sample_reader)
    ∧ feed_title result ≠ []
    ∧ description result ≠ Some []
    ∧ fetchedAt result = Some (clock_now (world c'))
    ∧ NoDup (link <$> items result).
Proof.
  destruct (fetchAndParse sample_xml sample_parseItem sample_reader
              (js "https://example.com/feed") ready_reader_pool.1
              ready_reader_pool.2) as [[r p'] c'] eqn:Hrun.
  assert (Hr : ∃ result, r = Resolved result
                         ∧ title <$> items result = [js "one"; js "three"]).
  { assert (Hc : (fetchAndParse sample_xml sample_parseItem sample_reader
                    (js "https://example.com/feed") ready_reader_pool.1
                    ready_reader_pool.2).1.1 = r) by (by rewrite Hrun).
    revert Hc. vm_compute. intros <-. eexists. split; reflexivity. }
  destruct Hr as (result & -> & Htitles).
  exists result, p', c'. split; [reflexivity|]. split; [exact Htitles|].
  pose proof (fetchAndParse_feed sample_xml sample_parseItem sample_reader
                (js "https://example.com/feed") ready_reader_pool.1
                ready_reader_pool.2 result p' c' Hrun) as Hfeed.
  tauto.
Defined.


(** ** Constructing a reader *)

(** X21. [new RssReader(config)] throws exactly when the pool size asked
    for is below one, and then a plain error; the number of attempts is not
    checked.  Without a configuration the reader has a pool of two slots,
    three attempts and a timeout of 30 seconds.  A new reader is not
    initialized, has no handle free or in use, and its backoff always starts
    at one second, doubles and is capped at 30 seconds, whatever the
    configuration. *)
Theorem newRssReader_defaults (arg : option RssReaderConfigArg) :
  (∀ t, newRssReader arg = Throw t
        ↔ default 2 (arg ≫= arg_browserPoolSize) < 1
          ∧ t = ThrownError
                  (MkError PlainError (js "Pool size must be at least 1") None))
  ∧ (∀ reader, newRssReader arg = Return reader →
       config reader = mergeConfig arg
       ∧ 1 ≤ browserPoolSize (config reader)
       ∧ retryAttempts (config reader) = default 3 (arg ≫= arg_retryAttempts)
       ∧ isInitialized (browserPool reader) = false
       ∧ getStats (browserPool reader)
         = {| total := browserPoolSize (config reader); available := 0; inUse := 0 |}
       ∧ retryHandler reader
         = {| initialDelay := 1000; maxDelay := 30000; backoffMultiplier := 2 |})
  ∧ (∃ reader, newRssReader None = Return reader
               ∧ config reader
                 = {| browserPoolSize := 2; retryAttempts := 3; timeout := 30000;
                      cfg_disableSandbox := false |}).
Proof.
  assert (Hnew : newRssReader arg =
            if default 2 (arg ≫= arg_browserPoolSize) <? 1
            then Throw (ThrownError
                          (MkError PlainError (js "Pool size must be at least 1")
                             None))
            else Return
                   {| config := mergeConfig arg;
                      browserPool :=
                        {| managers := []; availableBrowsers := [];
                           busyBrowsers := ∅; initialized := false;
                           waitQueue := [];
                           poolSize := default 2 (arg ≫= arg_browserPoolSize);
                           disableSandbox :=
                             default false (arg ≫= arg_disableSandbox) |};
                      retryHandler :=
                        {| initialDelay := 1000; maxDelay := 30000;
                           backoffMultiplier := 2 |} |}).
  { unfold newRssReader, newBrowserPool, throwError.
    change (default 2 (opt_poolSize _))
      with (default 2 (arg ≫= arg_browserPoolSize)).
    by destruct (default 2 (arg ≫= arg_browserPoolSize) <? 1). }
  rewrite Hnew. clear Hnew. split_and!.
  - intros t. destruct (default 2 (arg ≫= arg_browserPoolSize) <? 1) eqn:Hsize.
    + apply Z.ltb_lt in Hsize. split; [by intros [= <-]|]. intros [_ Ht].
      by rewrite Ht.
    + apply Z.ltb_ge in Hsize. split; [done|]. intros [? _]. lia.
  - intros reader.
    destruct (default 2 (arg ≫= arg_browserPoolSize) <? 1) eqn:Hsize; [done|].
    apply Z.ltb_ge in Hsize. intros [= <-]. cbn. split_and!; done.
  - by eexists.
Qed.
